(** * Chronosanity key-item placement (logicwriter_chronosanity.py)

    A shallow embedding of the weighted, backtracking key-item placement
    of [logicwriter_chronosanity.py]: the catalogs, the [Game] state
    tracker, [Location] and [LocationGroup], the registry built by
    [initLocationGroups], the key-item pool of [getInitialKeyItems] and the
    recursive solver [determineKeyItemPlacement_impl].

    Python objects that are shared and mutated (the locations, the location
    groups, the list of chosen locations, the game) live in an explicit
    [World]; a reference to a location or to a group is its index there.
    Python integers are [Z], Python sets are [gset], the two float products
    of the registry are binary64 products, and the [random] module is an
    oracle [nat -> nat] read through a cursor. *)

From Stdlib Require Import ZArith Floats String.
From stdpp Require Import gmap list strings.

Open Scope Z_scope.
Set Warnings "-inexact-float,-clear-no-such-hyp".

(** ** Catalogs *)

(** [class KeyItems(enum.Enum)]: the variants in definition order, which is
    the order in which Python iterates over the enumeration. *)
Inductive KeyItems :=
  | tomapop | hilt | blade | dreamstone | rubyknife
  | gatekey | jerky | pendant | moonstone | prismshard
  | grandleon | clone | ctrigger | heromedal | roboribbon.

Definition KeyItems_value (k : KeyItems) : Z :=
  match k with
  | tomapop => 0xE3 | hilt => 0x51 | blade => 0x50 | dreamstone => 0xDC
  | rubyknife => 0xE0 | gatekey => 0xD7 | jerky => 0xDB | pendant => 0xD6
  | moonstone => 0xDE | prismshard => 0xD8 | grandleon => 0x42
  | clone => 0xE2 | ctrigger => 0xD9 | heromedal => 0xB3 | roboribbon => 0xB8
  end.

(** [[key for key in (KeyItems)]] *)
Definition KeyItems_members : list KeyItems :=
  [tomapop; hilt; blade; dreamstone; rubyknife; gatekey; jerky; pendant;
   moonstone; prismshard; grandleon; clone; ctrigger; heromedal; roboribbon].

#[global] Instance KeyItems_eq_dec : EqDecision KeyItems.
Proof. solve_decision. Defined.

Definition KeyItems_index (k : KeyItems) : nat :=
  match k with
  | tomapop => 0 | hilt => 1 | blade => 2 | dreamstone => 3 | rubyknife => 4
  | gatekey => 5 | jerky => 6 | pendant => 7 | moonstone => 8
  | prismshard => 9 | grandleon => 10 | clone => 11 | ctrigger => 12
  | heromedal => 13 | roboribbon => 14
  end%nat.

#[global] Instance KeyItems_countable : Countable KeyItems.
Proof.
  apply (inj_countable KeyItems_index (fun n => KeyItems_members !! n)).
  by intros [].
Defined.

(** [class Characters(enum.Enum)] *)
Inductive Characters := Crono | Marle | Lucca | Robo | Frog | Ayla | Magus.

Definition Characters_value (c : Characters) : Z :=
  match c with
  | Crono => 0 | Marle => 1 | Lucca => 2 | Robo => 3
  | Frog => 4 | Ayla => 5 | Magus => 6
  end.

Definition Characters_members : list Characters :=
  [Crono; Marle; Lucca; Robo; Frog; Ayla; Magus].

#[global] Instance Characters_eq_dec : EqDecision Characters.
Proof. solve_decision. Defined.

#[global] Instance Characters_countable : Countable Characters.
Proof.
  apply (inj_countable (fun c => Z.to_nat (Characters_value c))
                       (fun n => Characters_members !! n)).
  by intros [].
Defined.

(** [class LootTiers(enum.Enum)] *)
Inductive LootTiers := Mid | MidHigh | High.

(** ** Python lists and numbers *)

(** [l.remove(x)]: drops the first occurrence; [None] stands for the
    [ValueError] raised when there is none. *)
Fixpoint list_remove {A} `{EqDecision A} (x : A) (l : list A) : option (list A) :=
  match l with
  | [] => None
  | y :: l' => if decide (y = x) then Some l' else (y ::.) <$> list_remove x l'
  end.

(** Number of tokens of [k] in a pool. *)
Definition tokens (k : KeyItems) (pool : list KeyItems) : nat :=
  length (filter (fun x => x = k) pool).

(** The conversion of an integer to a float (to nearest, ties to even), as
    done by [weight * 0.2]. *)
Definition float (z : Z) : PrimFloat.float :=
  SF2Prim (binary_normalize prec emax z 0 false).

(** [int(x)] on a finite float: truncation towards zero. *)
Definition int (x : PrimFloat.float) : Z :=
  match Prim2SF x with
  | S754_finite s m e =>
      let v := if decide (0 <= e) then Z.pos m * 2 ^ e
               else Z.pos m `div` 2 ^ (- e) in
      if s then - v else v
  | _ => 0
  end.

(** ** The key-item pool *)

(** [getInitialKeyItems()], statement by statement; the four [remove] calls
    are the only ones that can raise. *)
Definition getInitialKeyItems : option (list KeyItems) :=
  let keyItemList := KeyItems_members in
  let keyItemList := keyItemList ++ KeyItems_members in
  let keyItemList := keyItemList ++ KeyItems_members in
  let keyItemList := keyItemList ++ KeyItems_members in
  let keyItemList := keyItemList ++ KeyItems_members in
  let keyItemList := filter (fun x => x ≠ rubyknife) keyItemList in
  let keyItemList := filter (fun x => x ≠ dreamstone) keyItemList in
  let keyItemList := filter (fun x => x ≠ clone) keyItemList in
  let keyItemList := filter (fun x => x ≠ ctrigger) keyItemList in
  let keyItemList := keyItemList ++ [rubyknife; dreamstone; clone; ctrigger] in
  keyItemList ← list_remove hilt keyItemList;
  keyItemList ← list_remove hilt keyItemList;
  keyItemList ← list_remove blade keyItemList;
  keyItemList ← list_remove blade keyItemList;
  let keyItemList :=
    keyItemList ++ [gatekey; gatekey; gatekey; pendant; pendant; pendant] in
  Some keyItemList.

(** The table of the specification (section 4.5). *)
Definition initial_tokens (k : KeyItems) : nat :=
  match k with
  | tomapop | jerky | moonstone | prismshard
  | grandleon | heromedal | roboribbon => 5
  | hilt | blade => 3
  | dreamstone | rubyknife | clone | ctrigger => 1
  | gatekey | pendant => 8
  end%nat.

(** ** The game state *)

(** [charLocations] is the dictionary written by [characterwriter]; only the
    character of each of its seven slots is read
    ([Characters(self.charLocations['start'][0])]), so it is kept as a
    record of seven characters. *)
Record CharLocations := {
  slot_start : Characters;
  slot_start2 : Characters;
  slot_cathedral : Characters;
  slot_castle : Characters;
  slot_proto : Characters;
  slot_dactyl : Characters;
  slot_burrow : Characters
}.

Record Game := {
  characters : gset Characters;
  keyItems : gset KeyItems;
  earlyPendant : bool;
  lockedChars : bool;
  charLocations : CharLocations
}.

Module Game.

Definition init (charLocations : CharLocations) : Game :=
  {| characters := ∅; keyItems := ∅; earlyPendant := false;
     lockedChars := false; charLocations := charLocations |}.

Definition getKeyItemCount (self : Game) : nat := size (keyItems self).

Definition setEarlyPendant (self : Game) (pflag : bool) : Game :=
  {| characters := characters self; keyItems := keyItems self;
     earlyPendant := pflag; lockedChars := lockedChars self;
     charLocations := charLocations self |}.

Definition setLockedCharacters (self : Game) (cflag : bool) : Game :=
  {| characters := characters self; keyItems := keyItems self;
     earlyPendant := earlyPendant self; lockedChars := cflag;
     charLocations := charLocations self |}.

Definition set_characters (self : Game) (cs : gset Characters) : Game :=
  {| characters := cs; keyItems := keyItems self;
     earlyPendant := earlyPendant self; lockedChars := lockedChars self;
     charLocations := charLocations self |}.

Definition set_keyItems (self : Game) (ks : gset KeyItems) : Game :=
  {| characters := characters self; keyItems := ks;
     earlyPendant := earlyPendant self; lockedChars := lockedChars self;
     charLocations := charLocations self |}.

Definition hasCharacter (self : Game) (character : Characters) : bool :=
  bool_decide (character ∈ characters self).

Definition addCharacter (self : Game) (character : Characters) : Game :=
  set_characters self (characters self ∪ {[character]}).

Definition removeCharacter (self : Game) (character : Characters) : Game :=
  set_characters self (characters self ∖ {[character]}).

Definition hasKeyItem (self : Game) (item : KeyItems) : bool :=
  bool_decide (item ∈ keyItems self).

Definition addKeyItem (self : Game) (item : KeyItems) : Game :=
  set_keyItems self (keyItems self ∪ {[item]}).

Definition removeKeyItem (self : Game) (item : KeyItems) : Game :=
  set_keyItems self (keyItems self ∖ {[item]}).

Definition canAccessFuture (self : Game) : bool := hasKeyItem self pendant.

Definition canAccessPrehistory (self : Game) : bool := hasKeyItem self gatekey.

Definition canAccessDactylCharacter (self : Game) : bool :=
  canAccessPrehistory self
  && (negb (lockedChars self) || hasKeyItem self dreamstone).

Definition canAccessTyranoLair (self : Game) : bool :=
  canAccessPrehistory self && hasKeyItem self dreamstone.

Definition hasMasamune (self : Game) : bool :=
  hasKeyItem self hilt && hasKeyItem self blade.

Definition canAccessMagusCastle (self : Game) : bool :=
  hasMasamune self && hasCharacter self Frog.

Definition canAccessDarkAges (self : Game) : bool :=
  canAccessTyranoLair self || canAccessMagusCastle self.

Definition canAccessOceanPalace (self : Game) : bool :=
  canAccessDarkAges self && hasKeyItem self rubyknife.

Definition canAccessBlackOmen (self : Game) : bool :=
  canAccessFuture self && hasKeyItem self clone && hasKeyItem self ctrigger.

Definition canGetSunstone (self : Game) : bool :=
  canAccessFuture self && canAccessPrehistory self
  && hasKeyItem self moonstone.

Definition canAccessKingsTrial (self : Game) : bool :=
  hasCharacter self Marle && hasKeyItem self prismshard.

Definition canAccessMelchiorsRefinements (self : Game) : bool :=
  canAccessKingsTrial self && canGetSunstone self.

Definition canAccessGiantsClaw (self : Game) : bool := hasKeyItem self tomapop.

Definition canAccessRuins (self : Game) : bool := hasKeyItem self grandleon.

Definition canAccessSealedChests (self : Game) : bool :=
  hasKeyItem self pendant && (earlyPendant self || canAccessDarkAges self).

Definition canAccessBurrowItem (self : Game) : bool :=
  hasKeyItem self heromedal.

Definition canAccessFionasShrine (self : Game) : bool :=
  hasCharacter self Robo.

Definition updateAvailableCharacters (self : Game) : Game :=
  let self := addCharacter self (slot_start (charLocations self)) in
  let self := addCharacter self (slot_start2 (charLocations self)) in
  let self := addCharacter self (slot_cathedral (charLocations self)) in
  let self := addCharacter self (slot_castle (charLocations self)) in
  let self :=
    if canAccessFuture self
    then addCharacter self (slot_proto (charLocations self)) else self in
  let self :=
    if canAccessDactylCharacter self
    then addCharacter self (slot_dactyl (charLocations self)) else self in
  let self :=
    if hasMasamune self
    then addCharacter self (slot_burrow (charLocations self)) else self in
  self.

End Game.

(** ** Locations *)

(** A reference to a [Location] object, to a [LocationGroup] object. *)
Definition LocRef := nat.
Definition GroupRef := nat.

(** [Location], [EventLocation] (a second pointer) and [BaselineLocation]
    (a second pointer and a loot tier) as one record. *)
Record Location := {
  locName : string;
  pointer : Z;
  pointer2 : option Z;
  lootTier : option LootTiers;
  keyItem : option KeyItems
}.

Module Location.

Definition init (name : string) (pointer : Z) : Location :=
  {| locName := name; pointer := pointer; pointer2 := None;
     lootTier := None; keyItem := None |}.

Definition setKeyItem (self : Location) (k : KeyItems) : Location :=
  {| locName := locName self; pointer := pointer self;
     pointer2 := pointer2 self; lootTier := lootTier self;
     keyItem := Some k |}.

Definition getKeyItem (self : Location) : option KeyItems := keyItem self.

End Location.

Module EventLocation.

Definition init (name : string) (pointer pointer2 : Z) : Location :=
  {| locName := name; pointer := pointer; pointer2 := Some pointer2;
     lootTier := None; keyItem := None |}.

End EventLocation.

Module BaselineLocation.

Definition init (name : string) (pointer pointer2 : Z) (lootTier : LootTiers)
    : Location :=
  {| locName := name; pointer := pointer; pointer2 := Some pointer2;
     lootTier := Some lootTier; keyItem := None |}.

End BaselineLocation.

(** ** Location groups *)

(** [class LocationGroup]; [locations] holds references, [weightStack]
    grows at its end ([append]) and shrinks there ([pop]). *)
Record LocationGroup := {
  name : string;
  locations : list LocRef;
  weight : Z;
  accessRule : Game -> bool;
  weightDecay : option (Z -> Z);
  weightStack : list Z
}.

Module LocationGroup.

(** [__init__]: the weight is stored as given. *)
Definition init (name : string) (weight : Z) (accessRule : Game -> bool)
    (weightDecay : option (Z -> Z)) : LocationGroup :=
  {| name := name; locations := []; weight := weight;
     accessRule := accessRule; weightDecay := weightDecay;
     weightStack := [] |}.

Definition canAccess (self : LocationGroup) (game : Game) : bool :=
  accessRule self game.

Definition getName (self : LocationGroup) : string := name self.

Definition getWeight (self : LocationGroup) : Z := weight self.

Definition setWeight (self : LocationGroup) (weight : Z) : LocationGroup :=
  let weight := if decide (weight < 1) then 1 else weight in
  {| name := name self; locations := locations self; weight := weight;
     accessRule := accessRule self; weightDecay := weightDecay self;
     weightStack := weightStack self |}.

Definition set_weightStack (self : LocationGroup) (s : list Z)
    : LocationGroup :=
  {| name := name self; locations := locations self; weight := weight self;
     accessRule := accessRule self; weightDecay := weightDecay self;
     weightStack := s |}.

Definition set_locations (self : LocationGroup) (l : list LocRef)
    : LocationGroup :=
  {| name := name self; locations := l; weight := weight self;
     accessRule := accessRule self; weightDecay := weightDecay self;
     weightStack := weightStack self |}.

Definition decayWeight (self : LocationGroup) : LocationGroup :=
  let self := set_weightStack self (weightStack self ++ [weight self]) in
  match weightDecay self with
  | None => setWeight self 1
  | Some f => setWeight self (f (weight self))
  end.

Definition undoWeightDecay (self : LocationGroup) : LocationGroup :=
  match last (weightStack self) with
  | Some w =>
      setWeight (set_weightStack self (removelast (weightStack self))) w
  | None => self
  end.

Definition getAvailableLocationCount (self : LocationGroup) : nat :=
  length (locations self).

Definition addLocation (self : LocationGroup) (location : LocRef)
    : LocationGroup :=
  if decide (location ∈ locations self) then self
  else set_locations self (locations self ++ [location]).

(** [None] is the [ValueError] of [list.remove]. *)
Definition removeLocation (self : LocationGroup) (location : LocRef)
    : option LocationGroup :=
  set_locations self <$> list_remove location (locations self).

Definition getLocations (self : LocationGroup) : list LocRef :=
  locations self.

(** The operations a caller can apply to a group. *)
Inductive op :=
  | SetWeight (w : Z)
  | DecayWeight
  | UndoWeightDecay
  | AddLocation (l : LocRef)
  | RemoveLocation (l : LocRef).

(** A [removeLocation] that raises leaves the group as it was. *)
Definition apply (self : LocationGroup) (o : op) : LocationGroup :=
  match o with
  | SetWeight w => setWeight self w
  | DecayWeight => decayWeight self
  | UndoWeightDecay => undoWeightDecay self
  | AddLocation l => addLocation self l
  | RemoveLocation l => default self (removeLocation self l)
  end.

End LocationGroup.

(** ** The registry *)

(** One [LocationGroup(...)] followed by its chain of
    [.addLocation(Location(...))]: every [Location(...)] makes a new object,
    whose reference is the next free index of the heap, and adds it to the
    group. *)
Definition addLocations (heap : list Location) (group : LocationGroup)
    (news : list Location) : list Location * LocationGroup :=
  foldl (fun '(heap, group) l =>
           (heap ++ [l], LocationGroup.addLocation group (length heap)))
        (heap, group) news.

(** [initLocationGroups()]: the location objects in the order of their
    construction, and the list [locationGroups] in the order of the
    [append] calls. *)
Definition initLocationGroups : list Location * list LocationGroup :=
  let heap : list Location := [] in
  let '(heap, darkagesLocations) :=
    addLocations heap
      (LocationGroup.init "Darkages" 30
         (fun game => Game.canAccessDarkAges game) None)
      [ Location.init "Mt Woe 1st Screen" 0x35F770;
        Location.init "Mt Woe 2nd Screen 1" 0x35F748;
        Location.init "Mt Woe 2nd Screen 2" 0x35F74C;
        Location.init "Mt Woe 2nd Screen 3" 0x35F750;
        Location.init "Mt Woe 2nd Screen 4" 0x35F754;
        Location.init "Mt Woe 2nd Screen 5" 0x35F758;
        Location.init "Mt Woe 3rd Screen 1" 0x35F75C;
        Location.init "Mt Woe 3rd Screen 2" 0x35F760;
        Location.init "Mt Woe 3rd Screen 3" 0x35F764;
        Location.init "Mt Woe 3rd Screen 4" 0x35F768;
        Location.init "Mt Woe 3rd Screen 5" 0x35F76C;
        Location.init "Mt Woe Final 1" 0x35F774;
        Location.init "Mt Woe Final 2" 0x35F778;
        BaselineLocation.init "Mount Woe" 0x381010 0x381013 High ] in
  let '(heap, fionaShrineLocations) :=
    addLocations heap
      (LocationGroup.init "Fionashrine" 2
         (fun game => Game.canAccessFionasShrine game) None)
      [ BaselineLocation.init "Fiona's Shrine" 0x6EF5E 0x6EF61 MidHigh ] in
  let '(heap, futureOpenLocations) :=
    addLocations heap
      (LocationGroup.init "FutureOpen" 20
         (fun game => Game.canAccessFuture game) None)
      [ Location.init "Arris Dome" 0x35F5C8;
        Location.init "Arris Dome Food Store" 0x35F744;
        BaselineLocation.init "Arris Dome Doan" 0x392F4C 0x392F4E MidHigh;
        BaselineLocation.init "Sun Palace" 0x1B8D95 0x1B8D97 MidHigh ] in
  let '(heap, futureSewersLocations) :=
    addLocations heap
      (LocationGroup.init "FutureSewers" 9
         (fun game => Game.canAccessFuture game) None)
      [ Location.init "Sewers 1" 0x35F614;
        Location.init "Sewers 2" 0x35F618;
        Location.init "Sewers 3" 0x35F61C ] in
  let '(heap, futureLabLocations) :=
    addLocations heap
      (LocationGroup.init "FutureLabs" 15
         (fun game => Game.canAccessFuture game) None)
      [ Location.init "Lab 16 1" 0x35F5B8;
        Location.init "Lab 16 2" 0x35F5BC;
        Location.init "Lab 16 3" 0x35F5C0;
        Location.init "Lab 16 4" 0x35F5C4;
        Location.init "Lab 32 1" 0x35F5E0;
        Location.init "Prison Tower" 0x35F7DC ] in
  let '(heap, genoDomeLocations) :=
    addLocations heap
      (LocationGroup.init "GenoDome" 33
         (fun game => Game.canAccessFuture game) None)
      [ Location.init "Geno Dome 1st Floor 1" 0x35F630;
        Location.init "Geno Dome 1st Floor 2" 0x35F634;
        Location.init "Geno Dome 1st Floor 3" 0x35F638;
        Location.init "Geno Dome 1st Floor 4" 0x35F63C;
        Location.init "Geno Dome Room 1" 0x35F640;
        Location.init "Geno Dome Room 2" 0x35F644;
        Location.init "Proto 4 Chamber 1" 0x35F648;
        Location.init "Proto 4 Chamber 2" 0x35F64C;
        Location.init "Geno Dome 2nd Floor 1" 0x35F668;
        Location.init "Geno Dome 2nd Floor 2" 0x35F66C;
        Location.init "Geno Dome 2nd Floor 3" 0x35F670;
        Location.init "Geno Dome 2nd Floor 4" 0x35F674;
        BaselineLocation.init "Geno Dome Mother Brain" 0x1B1844 0x1B1846 MidHigh ] in
  let '(heap, factoryLocations) :=
    addLocations heap
      (LocationGroup.init "Factory" 30
         (fun game => Game.canAccessFuture game) None)
      [ Location.init "Factory Ruins Left - Auxillary Console" 0x35F5E8;
        Location.init "Factory Ruins Left - Security Center (Right)" 0x35F5EC;
        Location.init "Factory Ruins Left - Security Center (Left)" 0x35F5F0;
        Location.init "Factory Ruins Left - Power Core" 0x35F610;
        Location.init "Factory Ruins Right - Data Core 1" 0x35F650;
        Location.init "Factory Ruins Left - Data Core 2" 0x35F654;
        Location.init "Factory Ruins Right - Factory Floor (Top)" 0x35F5F4;
        Location.init "Factory Ruins Right - Factory Floor (Left)" 0x35F5F8;
        Location.init "Factory Ruins Right - Factory Floor (Bottom)" 0x35F5FC;
        Location.init "Factory Ruins Right - Factory Floor (Secret)" 0x35F600;
        Location.init "Factory Ruins Right - Crane Control Room (lower)" 0x35F604;
        Location.init "Factory Ruins Right - Crane Control Room (upper)" 0x35F608;
        Location.init "Factory Ruins Right - Information Archive" 0x35F60C ] in
  let '(heap, giantsClawLocations) :=
    addLocations heap
      (LocationGroup.init "Giantsclaw" 30
         (fun game => Game.canAccessGiantsClaw game) None)
      [ Location.init "Giant's Claw Kino's Cell" 0x35F468;
        Location.init "Giant's Claw Traps" 0x35F46C;
        Location.init "Giant's Claw Caves 1" 0x35F56C;
        Location.init "Giant's Claw Caves 2" 0x35F570;
        Location.init "Giant's Claw Caves 3" 0x35F574;
        Location.init "Giant's Claw Caves 4" 0x35F578;
        Location.init "Giant's Claw Caves 5" 0x35F57C;
        Location.init "Giant's Claw Caves 6" 0x35F580;
        BaselineLocation.init "Giant's Claw" 0x1B8AEC 0x1B8AEF Mid ] in
  let '(heap, northernRuinsLocations) :=
    addLocations heap
      (LocationGroup.init "NorthernRuins" 25
         (fun game => Game.canAccessRuins game && Game.canAccessSealedChests game) None)
      [ EventLocation.init "Hero's Grave 1" 0x1B03CD 0x1B03D0;
        EventLocation.init "Hero's Grave 2" 0x1B0401 0x1B0404;
        EventLocation.init "Hero's Grave 3" 0x393F8 0x393FF ] in
  let '(heap, guardiaTreasuryLocations) :=
    addLocations heap
      (LocationGroup.init "GuardiaTreasury" 36
         (fun game => Game.canAccessKingsTrial game) None)
      [ Location.init "Guardia Basement 1" 0x35F41C;
        Location.init "Guardia Basement 2" 0x35F420;
        Location.init "Guardia Basement 3" 0x35F424;
        Location.init "Guardia Treasury 1" 0x35F7A4;
        Location.init "Guardia Treasury 2" 0x35F7A8;
        Location.init "Guardia Treasury 3" 0x35F7AC;
        BaselineLocation.init "King's Trial" 0x38045D 0x38045F High ] in
  let '(heap, earlyOzziesFortLocations) :=
    addLocations heap
      (LocationGroup.init "Ozzie's Fort Front" 6
         (fun game => Game.canAccessFuture game || Game.canAccessPrehistory game) None)
      [ Location.init "Ozzie's Fort Guillotines 1" 0x35F554;
        Location.init "Ozzie's Fort Guillotines 2" 0x35F558;
        Location.init "Ozzie's Fort Guillotines 3" 0x35F55C;
        Location.init "Ozzie's Fort Guillotines 4" 0x35F560 ] in
  let '(heap, lateOzziesFortLocations) :=
    addLocations heap
      (LocationGroup.init "Ozzie's Fort Back" 6
         (fun game => Game.canAccessDarkAges game) None)
      [ Location.init "Ozzie's Fort Final 1" 0x35F564;
        Location.init "Ozzie's Fort Final 2" 0x35F568 ] in
  let '(heap, openLocations) :=
    addLocations heap
      (LocationGroup.init "Open" 10
         (fun game => true) (Some (fun weight => int (float weight * 0.2)%float)))
      [ Location.init "Truce Mayor's House F1" 0x35F40C;
        Location.init "Truce Mayor's House F2" 0x35F410;
        Location.init "Forest Ruins" 0x35F42C;
        Location.init "Porre Mayor's House F2" 0x35F440;
        Location.init "Truce Canyon 1" 0x35F470;
        Location.init "Truce Canyon 2" 0x35F474;
        Location.init "Fiona's House 1" 0x35F4FC;
        Location.init "Fiona's House 2" 0x35F500;
        Location.init "Cursed Woods 1" 0x35F4A4;
        Location.init "Cursed Woods 2" 0x35F4A8;
        Location.init "Frog's Burrow Right Chest" 0x35F4AC ] in
  let '(heap, openKeys) :=
    addLocations heap
      (LocationGroup.init "OpenKeys" 5
         (fun game => true) None)
      [ BaselineLocation.init "Zenan Bridge" 0x393C82 0x393C84 Mid;
        BaselineLocation.init "Snail Stop" 0x380C42 0x380C5B Mid;
        BaselineLocation.init "Lazy Carpenter" 0x3966B 0x3966D Mid ] in
  let '(heap, heckranLocations) :=
    addLocations heap
      (LocationGroup.init "Heckran" 4
         (fun game => true) None)
      [ Location.init "Heckran Cave Sidetrack" 0x35F430;
        Location.init "Heckran Cave Entrance" 0x35F434;
        Location.init "Heckran Cave 1" 0x35F438;
        Location.init "Heckran Cave 2" 0x35F43C;
        BaselineLocation.init "Taban" 0x35F888 0x35F88A Mid ] in
  let '(heap, guardiaCastleLocations) :=
    addLocations heap
      (LocationGroup.init "GuardiaCastle" 3
         (fun game => true) None)
      [ Location.init "King's Room (Present)" 0x35F414;
        Location.init "Queen's Room (Present)" 0x35F418;
        Location.init "King's Room(Middle Ages)" 0x35F478;
        Location.init "Queen's Room(Middle Ages)" 0x35F47C;
        Location.init "Royal Kitchen" 0x35F480;
        Location.init "Queen's Tower(Middle Ages)" 0x35F7B0;
        Location.init "King's Tower(Middle Ages)" 0x35F7CC;
        Location.init "King's Tower(Present)" 0x35F7D0;
        Location.init "Queen's Tower(Present)" 0x35F7D4;
        Location.init "Guardia Court Tower" 0x35F7D8 ] in
  let '(heap, cathedralLocations) :=
    addLocations heap
      (LocationGroup.init "CathedralLocations" 6
         (fun game => true) None)
      [ Location.init "Manoria Cathedral 1" 0x35F488;
        Location.init "Manoria Cathedral 2" 0x35F48C;
        Location.init "Manoria Cathedral 3" 0x35F490;
        Location.init "Cathedral Interior 1" 0x35F494;
        Location.init "Cathedral Interior 2" 0x35F498;
        Location.init "Cathedral Interior 3" 0x35F49C;
        Location.init "Cathedral Interior 4" 0x35F4A0;
        Location.init "Manoria Shrine Sideroom 1" 0x35F588;
        Location.init "Manoria Shrine Sideroom 2" 0x35F58C;
        Location.init "Manoria Bromide Room 1" 0x35F590;
        Location.init "Manoria Bromide Room 2" 0x35F594;
        Location.init "Manoria Bromide Room 3" 0x35F598;
        Location.init "Manoria Magus Shrine 1" 0x35F59C;
        Location.init "Manoria Magus Shrine 2" 0x35F5A0;
        Location.init "Yakra's Room" 0x35F584 ] in
  let '(heap, denadoroLocations) :=
    addLocations heap
      (LocationGroup.init "DenadoroLocations" 6
         (fun game => true) None)
      [ Location.init "Denadoro Mts Screen 2 1" 0x35F4B0;
        Location.init "Denadoro Mts Screen 2 2" 0x35F4B4;
        Location.init "Denadoro Mts Screen 2 3" 0x35F4B8;
        Location.init "Denadoro Mts Final 1" 0x35F4BC;
        Location.init "Denadoro Mts Final 2" 0x35F4C0;
        Location.init "Denadoro Mts Final 3" 0x35F4C4;
        Location.init "Denadoro Mts Waterfall Top 1" 0x35F4C8;
        Location.init "Denadoro Mts Waterfall Top 2" 0x35F4CC;
        Location.init "Denadoro Mts Waterfall Top 3" 0x35F4D0;
        Location.init "Denadoro Mts Waterfall Top 4" 0x35F4D4;
        Location.init "Denadoro Mts Waterfall Top 5" 0x35F4D8;
        Location.init "Denadoro Mts Entrance 1" 0x35F4DC;
        Location.init "Denadoro Mts Entrance 2" 0x35F4E0;
        Location.init "Denadoro Mts Screen 3 1" 0x35F4E4;
        Location.init "Denadoro Mts Screen 3 2" 0x35F4E8;
        Location.init "Denadoro Mts Screen 3 3" 0x35F4EC;
        Location.init "Denadoro Mts Screen 3 4" 0x35F4F0;
        Location.init "Denadoro Mts Ambush" 0x35F4F4;
        Location.init "Denadoro Mts Save Point" 0x35F4F8;
        BaselineLocation.init "Denadoro Mountain" 0x3773F1 0x3773F3 Mid ] in
  let '(heap, sealedLocations) :=
    addLocations heap
      (LocationGroup.init "SealedLocations" 30
         (fun game => Game.canAccessSealedChests game) (Some (fun weight => int (float weight * 0.3)%float)))
      [ Location.init "Bangor Dome Seal 1" 0x35F5A4;
        Location.init "Bangor Dome Seal 2" 0x35F5A8;
        Location.init "Bangor Dome Seal 3" 0x35F5AC;
        Location.init "Trann Dome Seal 1" 0x35F5B0;
        Location.init "Trann Dome Seal 2" 0x35F5B4;
        Location.init "Arris Dome Seal 1" 0x35F5CC;
        Location.init "Arris Dome Seal 2" 0x35F5D0;
        Location.init "Arris Dome Seal 3" 0x35F5D4;
        Location.init "Arris Dome Seal 4" 0x35F5D8;
        EventLocation.init "Truce Inn 600AD Sealed" 0x19FE7C 0x19FE83;
        EventLocation.init "Porre Elder's House 1 Sealed" 0x1B90EA 0x1B90F2;
        EventLocation.init "Porre Elder's House 2Sealed" 0x1B9123 0x1B9126;
        EventLocation.init "Guardia Castle 600AD Sealed" 0x3AED24 0x3AED26;
        EventLocation.init "Guardia Forest 600AD Sealed" 0x39633B 0x39633D;
        EventLocation.init "Truce Inn 1000AD Sealed" 0xC3328 0xC332C;
        EventLocation.init "Porre Mayor's House Sealed 1" 0x1BACD6 0x1BACD8;
        EventLocation.init "Porre Mayor's House Sealed 2" 0x1BACF7 0x1BACF9;
        EventLocation.init "Guardia Forest 1000AD Sealed" 0x3908B5 0x3908C9;
        EventLocation.init "Guardia Castle 1000AD Sealed" 0x3AEF65 0x3AEF67;
        EventLocation.init "Heckran's Cave Sealed 1" 0x24EC29 0x24EC2B;
        EventLocation.init "Heckran's Cave Sealed 2" 0x24EC3B 0x24EC3D ] in
  let '(heap, magicCaveLocations) :=
    addLocations heap
      (LocationGroup.init "Magic Cave" 4
         (fun game => Game.canAccessSealedChests game && Game.canAccessMagusCastle game) None)
      [ EventLocation.init "Magic Cave" 0x1B31C7 0x1B31CA ] in
  let '(heap, prehistoryForestMazeLocations) :=
    addLocations heap
      (LocationGroup.init "PrehistoryForestMaze" 18
         (fun game => Game.canAccessPrehistory game) None)
      [ Location.init "Mystic Mtn Stream" 0x35F678;
        Location.init "Forest Maze 1" 0x35F67C;
        Location.init "Forest Maze 2" 0x35F680;
        Location.init "Forest Maze 3" 0x35F684;
        Location.init "Forest Maze 4" 0x35F688;
        Location.init "Forest Maze 5" 0x35F68C;
        Location.init "Forest Maze 6" 0x35F690;
        Location.init "Forest Maze 7" 0x35F694;
        Location.init "Forest Maze 8" 0x35F698;
        Location.init "Forest Maze 9" 0x35F69C ] in
  let '(heap, prehistoryReptiteLocations) :=
    addLocations heap
      (LocationGroup.init "PrehistoryReptite" 27
         (fun game => Game.canAccessPrehistory game) None)
      [ Location.init "Reptite Lair Reptites 1" 0x35F6B8;
        Location.init "Reptite Lair Reptites 2" 0x35F6BC;
        BaselineLocation.init "Reptite Lair" 0x18FC04 0x18FC07 MidHigh ] in
  let '(heap, prehistoryDactylNest) :=
    addLocations heap
      (LocationGroup.init "PrehistoryDactylNest" 6
         (fun game => Game.canAccessPrehistory game) None)
      [ Location.init "Dactyl Nest 1" 0x35F6C0;
        Location.init "Dactyl Nest 2" 0x35F6C4;
        Location.init "Dactyl Nest 3" 0x35F6C8 ] in
  let '(heap, melchiorsRefinementslocations) :=
    addLocations heap
      (LocationGroup.init "MelchiorRefinements" 15
         (fun game => Game.canAccessMelchiorsRefinements game) None)
      [ BaselineLocation.init "Melchior's Refinements" 0x3805DE 0x3805E0 High ] in
  let '(heap, frogsBurrowLocation) :=
    addLocations heap
      (LocationGroup.init "FrogsBurrowLocation" 9
         (fun game => Game.canAccessBurrowItem game) None)
      [ BaselineLocation.init "Frog's Burrow Left Chest" 0x3891DE 0x3891E0 MidHigh ] in
  let locationGroups : list LocationGroup := [] in
  let locationGroups := locationGroups ++ [prehistoryForestMazeLocations] in
  let locationGroups := locationGroups ++ [prehistoryReptiteLocations] in
  let locationGroups := locationGroups ++ [prehistoryDactylNest] in
  let locationGroups := locationGroups ++ [darkagesLocations] in
  let locationGroups := locationGroups ++ [fionaShrineLocations] in
  let locationGroups := locationGroups ++ [giantsClawLocations] in
  let locationGroups := locationGroups ++ [northernRuinsLocations] in
  let locationGroups := locationGroups ++ [guardiaTreasuryLocations] in
  let locationGroups := locationGroups ++ [openLocations] in
  let locationGroups := locationGroups ++ [openKeys] in
  let locationGroups := locationGroups ++ [heckranLocations] in
  let locationGroups := locationGroups ++ [cathedralLocations] in
  let locationGroups := locationGroups ++ [guardiaCastleLocations] in
  let locationGroups := locationGroups ++ [denadoroLocations] in
  let locationGroups := locationGroups ++ [magicCaveLocations] in
  let locationGroups := locationGroups ++ [melchiorsRefinementslocations] in
  let locationGroups := locationGroups ++ [frogsBurrowLocation] in
  let locationGroups := locationGroups ++ [earlyOzziesFortLocations] in
  let locationGroups := locationGroups ++ [lateOzziesFortLocations] in
  let locationGroups := locationGroups ++ [futureOpenLocations] in
  let locationGroups := locationGroups ++ [futureLabLocations] in
  let locationGroups := locationGroups ++ [futureSewersLocations] in
  let locationGroups := locationGroups ++ [genoDomeLocations] in
  let locationGroups := locationGroups ++ [factoryLocations] in
  let locationGroups := locationGroups ++ [sealedLocations] in
  (heap, locationGroups).

(** ** The world and its monad *)

Record World := {
  heap : list Location;               (* the Location objects *)
  locationGroups : list LocationGroup;  (* the script variable *)
  game : Game;                        (* the Game object of the solve *)
  chosenLocations : list LocRef;      (* the one list of chosen locations *)
  cursor : nat                        (* draws made so far *)
}.

#[global] Instance Location_inhabited : Inhabited Location :=
  populate (Location.init "" 0).

#[global] Instance LocationGroup_inhabited : Inhabited LocationGroup :=
  populate (LocationGroup.init "" 0 (fun _ => false) None).

(** The exceptions the modelled statements can raise. *)
Inductive Fault := ValueError | IndexError | NameError.

(** What running a piece of code from a world gives: a value and the world
    after it, an exception, or no answer within the given number of loop
    iterations or of nested calls. *)
Inductive Result (A : Type) :=
  | Returns (a : A) (w : World)
  | Raises (e : Fault)
  | OutOfIterations
  | OutOfDepth.

Arguments Returns {A} a w.
Arguments Raises {A} e.
Arguments OutOfIterations {A}.
Arguments OutOfDepth {A}.

Definition M (A : Type) : Type := World -> Result A.

Definition ret {A} (a : A) : M A := fun w => Returns a w.

Definition bind {A B} (m : M A) (k : A -> M B) : M B :=
  fun w =>
    match m w with
    | Returns a w' => k a w'
    | Raises e => Raises e
    | OutOfIterations => OutOfIterations
    | OutOfDepth => OutOfDepth
    end.

Definition raise {A} (e : Fault) : M A := fun _ => Raises e.

Definition gets {A} (f : World -> A) : M A := fun w => Returns (f w) w.

Definition modify (f : World -> World) : M unit := fun w => Returns tt (f w).

#[global] Instance M_ret : MRet M := @ret.
#[global] Instance M_bind : MBind M := fun A B k m => bind m k.

Definition set_heap (w : World) (h : list Location) : World :=
  {| heap := h; locationGroups := locationGroups w; game := game w;
     chosenLocations := chosenLocations w; cursor := cursor w |}.

Definition set_locationGroups (w : World) (gs : list LocationGroup) : World :=
  {| heap := heap w; locationGroups := gs; game := game w;
     chosenLocations := chosenLocations w; cursor := cursor w |}.

Definition set_game (w : World) (g : Game) : World :=
  {| heap := heap w; locationGroups := locationGroups w; game := g;
     chosenLocations := chosenLocations w; cursor := cursor w |}.

Definition set_chosenLocations (w : World) (c : list LocRef) : World :=
  {| heap := heap w; locationGroups := locationGroups w; game := game w;
     chosenLocations := c; cursor := cursor w |}.

Definition set_cursor (w : World) (n : nat) : World :=
  {| heap := heap w; locationGroups := locationGroups w; game := game w;
     chosenLocations := chosenLocations w; cursor := n |}.

(** The group, the location behind a reference. *)
Definition groupAt (w : World) (g : GroupRef) : LocationGroup :=
  locationGroups w !!! g.

Definition locationAt (w : World) (l : LocRef) : Location := heap w !!! l.

(** A method call that mutates the group, the location, the game. *)
Definition onGroup (g : GroupRef) (f : LocationGroup -> LocationGroup) : M unit :=
  modify (fun w => set_locationGroups w (<[g := f (groupAt w g)]> (locationGroups w))).

Definition onLocation (l : LocRef) (f : Location -> Location) : M unit :=
  modify (fun w => set_heap w (<[l := f (locationAt w l)]> (heap w))).

Definition onGame (f : Game -> Game) : M unit :=
  modify (fun w => set_game w (f (game w))).

(** [group.removeLocation(location)] *)
Definition removeLocation (g : GroupRef) (l : LocRef) : M unit :=
  fun w =>
    match LocationGroup.removeLocation (groupAt w g) l with
    | Some grp => Returns tt (set_locationGroups w (<[g := grp]> (locationGroups w)))
    | None => Raises ValueError
    end.

(** ** The solver *)

Section Solver.

(** The random source: the n-th raw draw. *)
Variable rand : nat -> nat.

Definition draw : M nat :=
  fun w => Returns (rand (cursor w)) (set_cursor w (S (cursor w))).

(** [rand.randint(a, b)]: any integer of [a..b]; [ValueError] on an empty
    range. *)
Definition randint (a b : Z) : M Z :=
  if decide (b < a) then raise ValueError
  else n ← draw; ret (a + Z.of_nat n `mod` (b - a + 1)).

(** [rand.choice(seq)]: any element; [IndexError] on an empty sequence. *)
Definition choice {A} (seq : list A) : M A :=
  match seq with
  | [] => raise IndexError
  | x :: _ => n ← draw; ret (nth (n mod length seq) seq x)
  end.

(** [getAvailableLocations(game)]: the characters are updated, then the
    loop over [locationGroups] appends, in order, every group that is
    accessible and has a location left. *)
Definition getAvailableLocations : M (list GroupRef) :=
  onGame Game.updateAvailableCharacters;;
  gets (fun w =>
    filter (fun g =>
              LocationGroup.canAccess (groupAt w g) (game w) = true
              /\ (0 < LocationGroup.getAvailableLocationCount (groupAt w g))%nat)
           (seq 0 (length (locationGroups w)))).

(** The local variables of one call of [determineKeyItemPlacement_impl]
    that live across the iterations of its loop.  [remainingKeyItems] is the
    content of the list the local name is bound to; [passedKeyItems] is
    [None] as long as that list is the one the caller passed, and the
    content of the caller's list once the name was rebound to [newList].
    [returnedChosenLocations] is not kept: every call returns the one
    [chosenLocations] list. *)
Record Frame := {
  availableLocations : list GroupRef;
  remainingKeyItems : list KeyItems;
  passedKeyItems : option (list KeyItems);
  keyItemConfirmed : bool;
  location : option LocRef;
  locationGroup : option GroupRef;
  keyItemTemp : option KeyItems
}.

Definition set_remainingKeyItems (fr : Frame) (l : list KeyItems) : Frame :=
  {| availableLocations := availableLocations fr; remainingKeyItems := l;
     passedKeyItems := passedKeyItems fr;
     keyItemConfirmed := keyItemConfirmed fr; location := location fr;
     locationGroup := locationGroup fr; keyItemTemp := keyItemTemp fr |}.

(** [remainingKeyItems = newList]: the name leaves the caller's list. *)
Definition rebind_remainingKeyItems (fr : Frame) (newList : list KeyItems)
    : Frame :=
  {| availableLocations := availableLocations fr;
     remainingKeyItems := newList;
     passedKeyItems :=
       Some (default (remainingKeyItems fr) (passedKeyItems fr));
     keyItemConfirmed := keyItemConfirmed fr; location := location fr;
     locationGroup := locationGroup fr; keyItemTemp := keyItemTemp fr |}.

Definition set_choice (fr : Frame) (location : LocRef)
    (locationGroup : option GroupRef) : Frame :=
  {| availableLocations := availableLocations fr;
     remainingKeyItems := remainingKeyItems fr;
     passedKeyItems := passedKeyItems fr;
     keyItemConfirmed := keyItemConfirmed fr; location := Some location;
     locationGroup := locationGroup; keyItemTemp := keyItemTemp fr |}.

Definition set_keyItemTemp (fr : Frame) (k : KeyItems) : Frame :=
  {| availableLocations := availableLocations fr;
     remainingKeyItems := remainingKeyItems fr;
     passedKeyItems := passedKeyItems fr;
     keyItemConfirmed := keyItemConfirmed fr; location := location fr;
     locationGroup := locationGroup fr; keyItemTemp := Some k |}.

Definition set_result (fr : Frame) (confirmed : bool) (pool : list KeyItems)
    : Frame :=
  {| availableLocations := availableLocations fr;
     remainingKeyItems := pool;
     passedKeyItems := passedKeyItems fr;
     keyItemConfirmed := confirmed; location := location fr;
     locationGroup := locationGroup fr; keyItemTemp := keyItemTemp fr |}.

(** The content of the caller's list, seen from the frame. *)
Definition callerKeyItems (fr : Frame) : list KeyItems :=
  default (remainingKeyItems fr) (passedKeyItems fr).

(** [if locationGroup != None: locationGroup.addLocation(location);
    locationGroup.undoWeightDecay()].  [location] is set whenever
    [locationGroup] is. *)
Definition undoPreviousChoice (fr : Frame) : M unit :=
  match locationGroup fr, location fr with
  | Some g, Some l =>
      onGroup g (fun grp => LocationGroup.addLocation grp l);;
      onGroup g LocationGroup.undoWeightDecay
  | _, _ => ret tt
  end.

(** [weightTotal], summed over the snapshot. *)
Definition weightTotal (w : World) (avail : list GroupRef) : Z :=
  foldl (fun weightTotal g => weightTotal + LocationGroup.getWeight (groupAt w g))
        0 avail.

(** The [for group in availableLocations] loop with its [break]: the last
    value of the loop variable [group], and the group assigned to
    [locationGroup] if the loop broke. *)
Fixpoint selectGroup (w : World) (avail : list GroupRef)
    (locationChoice counter : Z) (group : option GroupRef)
    : option GroupRef * option GroupRef :=
  match avail with
  | [] => (group, None)
  | g :: rest =>
      let counter := counter + LocationGroup.getWeight (groupAt w g) in
      if decide (counter >= locationChoice) then (Some g, Some g)
      else selectGroup w rest locationChoice counter (Some g)
  end.

(** From the computation of [weightTotal] to
    [chosenLocations.append(location)]. *)
Definition pickLocation (fr : Frame) : M Frame :=
  weightTotal ← gets (fun w => weightTotal w (availableLocations fr));
  locationChoice ← randint 1 weightTotal;
  sel ← gets (fun w => selectGroup w (availableLocations fr) locationChoice 0 None);
  let locationGroup :=
    match sel.2 with Some g => Some g | None => locationGroup fr end in
  match sel.1 with
  | None => raise NameError
  | Some group =>
      locs ← gets (fun w => LocationGroup.getLocations (groupAt w group));
      location ← choice locs;
      removeLocation group location;;
      onGroup group LocationGroup.decayWeight;;
      modify (fun w => set_chosenLocations w (chosenLocations w ++ [location]));;
      ret (set_choice fr location locationGroup)
  end.

(** The undo of the previous choice, then the choice of a location. *)
Definition chooseLocation (fr : Frame) : M Frame :=
  undoPreviousChoice fr;;
  pickLocation fr.

(** The loop that fills [newList]. *)
Definition collapse (remainingKeyItems : list KeyItems) : list KeyItems :=
  foldl (fun newList key =>
           if decide (key ∈ newList) then newList else newList ++ [key])
        [] remainingKeyItems.

(** [if game.getKeyItemCount() == 10: ...] *)
Definition pruneKeyItems (fr : Frame) : M Frame :=
  count ← gets (fun w => Game.getKeyItemCount (game w));
  if decide (count = 10%nat)
  then ret (rebind_remainingKeyItems fr (collapse (remainingKeyItems fr)))
  else ret fr.

(** From [keyItem = rand.choice(remainingKeyItems)] to
    [keyItemTemp = keyItem]. *)
Definition chooseKeyItem (fr : Frame) : M Frame :=
  keyItem ← choice (remainingKeyItems fr);
  let fr := set_remainingKeyItems fr
              (filter (fun x => x ≠ keyItem) (remainingKeyItems fr)) in
  match location fr with
  | None => raise NameError
  | Some location =>
      onLocation location (fun l => Location.setKeyItem l keyItem);;
      onGame (fun g => Game.addKeyItem g keyItem);;
      fr ← match keyItemTemp fr with
            | Some keyItemTemp =>
                onGame (fun g => Game.removeKeyItem g keyItemTemp);;
                ret (set_remainingKeyItems fr
                       (remainingKeyItems fr ++ [keyItemTemp]))
            | None => ret fr
            end;
      ret (set_keyItemTemp fr keyItem)
  end.

(** One pass through the [else] branch of the loop, up to the recursive
    call. *)
Definition tryPlacement (fr : Frame) : M Frame :=
  fr ← chooseLocation fr;
  fr ← pruneKeyItems fr;
  chooseKeyItem fr.

(** What a call returns: the flag, the content of the returned list (the
    [chosenLocations] list) at that moment, and the content in which the
    call leaves the key-item list it was passed. *)
Record Reply := {
  success : bool;
  placement : list LocRef;
  keyItemsLeft : list KeyItems
}.

Definition reply (success : bool) (keyItemsLeft : list KeyItems) : M Reply :=
  gets (fun w => {| success := success; placement := chosenLocations w;
                    keyItemsLeft := keyItemsLeft |}).

(** [while True: ...], with the recursive call as a parameter and a bound
    on the number of iterations. *)
Fixpoint placementLoop (recurse : list KeyItems -> M Reply)
    (iterations : nat) (fr : Frame) : M Reply :=
  match iterations with
  | O => fun _ => OutOfIterations
  | S iterations =>
      if keyItemConfirmed fr then reply true (callerKeyItems fr)
      else
        fr ← tryPlacement fr;
        r ← recurse (remainingKeyItems fr);
        placementLoop recurse iterations
          (set_result fr (success r) (keyItemsLeft r))
  end.

(** The local variables on entry to the loop. *)
Definition newFrame (availableLocations : list GroupRef)
    (remainingKeyItems : list KeyItems) : Frame :=
  {| availableLocations := availableLocations;
     remainingKeyItems := remainingKeyItems;
     passedKeyItems := None;
     keyItemConfirmed := false;
     location := None;
     locationGroup := None;
     keyItemTemp := None |}.

(** [determineKeyItemPlacement_impl(chosenLocations, remainingKeyItems,
    game)], with [chosenLocations] and [game] in the world, a bound [depth]
    on the nesting of calls and a bound [iterations] on the iterations of
    each loop. *)
Fixpoint determineKeyItemPlacement_impl (depth iterations : nat)
    (remainingKeyItems : list KeyItems) : M Reply :=
  match depth with
  | O => fun _ => OutOfDepth
  | S depth =>
      if decide (length remainingKeyItems = 0%nat)
      then reply true remainingKeyItems
      else
        availableLocations ← getAvailableLocations;
        if decide (length availableLocations = 0%nat)
        then reply false remainingKeyItems
        else
          placementLoop
            (determineKeyItemPlacement_impl depth iterations) iterations
            (newFrame availableLocations remainingKeyItems)
  end.

(** The world in which a solve starts. *)
Definition initialWorld (registry : list Location * list LocationGroup)
    (game : Game) : World :=
  {| heap := registry.1; locationGroups := registry.2; game := game;
     chosenLocations := []; cursor := 0 |}.

(** [determineKeyItemPlacement(charlocs, lockedChars, earlyPendant)] *)
Definition determineKeyItemPlacement (depth iterations : nat)
    (charlocs : CharLocations) (lockedChars earlyPendant : bool)
    : Result Reply :=
  let game := Game.init charlocs in
  let game := Game.setEarlyPendant game earlyPendant in
  let game := Game.setLockedCharacters game lockedChars in
  match getInitialKeyItems with
  | None => Raises ValueError
  | Some remainingKeyItems =>
      determineKeyItemPlacement_impl depth iterations remainingKeyItems
        (initialWorld initLocationGroups game)
  end.

End Solver.

(** The number of distinct key items of a pool. *)
Definition distinct (pool : list KeyItems) : nat :=
  size (list_to_set (C := gset KeyItems) pool).

(** Code without a loop and without a call: it returns or raises. *)
Definition straight {A} (m : M A) : Prop :=
  forall w, m w <> OutOfDepth /\ m w <> OutOfIterations.


(** A callee that refuses, with [OutOfDepth], every pool that does not have
    fewer distinct key items than [bound]. *)
Definition onlySmaller (bound : nat) (recurse : list KeyItems -> M Reply)
    : list KeyItems -> M Reply :=
  fun pool =>
    if decide (distinct pool < bound)%nat then recurse pool
    else fun _ => OutOfDepth.

(** The pool of a frame between two passes through the loop, against the
    key items [S0] of the pool the call was entered with: before the first
    pass it has the key items of [S0]; after a pass it lacks exactly the key
    item chosen in that pass. *)
Definition poolOf (S0 : gset KeyItems) (fr : Frame) : Prop :=
  match keyItemTemp fr with
  | None => list_to_set (remainingKeyItems fr) = S0
  | Some kt => kt ∈ S0 /\ list_to_set (remainingKeyItems fr) = S0 ∖ {[kt]}
  end.

(** A callee whose failures leave the list it was passed as it was. *)
Definition failsClean (recurse : list KeyItems -> M Reply) : Prop :=
  forall pool w r w',
    recurse pool w = Returns r w' -> success r = false ->
    keyItemsLeft r = pool.

(** The state of a solve in which no pass was ever retried, with the pool
    it has reached: the references are valid; no location is both chosen and
    still in a group, or twice in the groups; every weight is at least 1;
    some group that is always accessible is large enough never to run empty;
    the chosen locations hold, in order, distinct key items, which are the
    key items of the game; and the pool holds exactly the other key items. *)
Record Consistent (w : World) (pool : list KeyItems) : Prop := {
  consistent_refs :
    forall l, l ∈ chosenLocations w ++ concat (locations <$> locationGroups w) ->
              (l < length (heap w))%nat;
  consistent_nodup :
    NoDup (chosenLocations w ++ concat (locations <$> locationGroups w));
  consistent_weight :
    forall g, g ∈ locationGroups w -> 1 <= weight g;
  consistent_open :
    exists i g, locationGroups w !! i = Some g /\
                (forall game, accessRule g game = true) /\
                (15 <= length (locations g) + length (chosenLocations w))%nat;
  consistent_placed :
    exists ks, NoDup ks /\
               (fun l => keyItem (locationAt w l)) <$> chosenLocations w
               = Some <$> ks /\
               keyItems (game w) = list_to_set ks;
  consistent_pool :
    forall k, k ∈ pool <-> k ∉ keyItems (game w)
}.

(** The placement list [placement] pairs, through the key item each of its
    locations holds in [w], the 15 key items with 15 distinct locations, none
    of which is still (or again) a member of a group. *)
Record Bijective (w : World) (placement : list LocRef) : Prop := {
  bijective_length : length placement = 15%nat;
  bijective_nodup : NoDup placement;
  bijective_total :
    forall l, l ∈ placement -> is_Some (keyItem (locationAt w l));
  bijective_unique :
    forall k, exists l,
      l ∈ placement /\ keyItem (locationAt w l) = Some k /\
      forall l', l' ∈ placement -> keyItem (locationAt w l') = Some k -> l' = l;
  bijective_kept :
    forall l g, l ∈ placement -> g ∈ locationGroups w -> l ∉ locations g
}.

(** A registry (the location objects and the list of groups) as the solver
    needs it: every member of a group is a location of the heap; no location
    is a member of two groups, or twice of one; every base weight is at least
    1; and some group is accessible in every game and has at least 15
    locations. *)
Record WellFormed (registry : list Location * list LocationGroup) : Prop := {
  wf_refs :
    Forall (fun l => (l < length registry.1)%nat)
           (concat (locations <$> registry.2));
  wf_nodup : NoDup (concat (locations <$> registry.2));
  wf_weight : Forall (fun g => 1 <= weight g) registry.2;
  wf_open :
    exists i g, registry.2 !! i = Some g /\
                (forall game, accessRule g game = true) /\
                (15 <= length (locations g))%nat
}.

(** A character placement and a random source to run the solver on. *)
Definition sampleCharLocations : CharLocations :=
  {| slot_start := Crono; slot_start2 := Marle; slot_cathedral := Lucca;
     slot_castle := Frog; slot_proto := Robo; slot_dactyl := Ayla;
     slot_burrow := Magus |}.

Definition zeros : nat -> nat := fun _ => 0%nat.

(** ** Small registries *)

(** One group, always accessible, with a single location. *)
Definition oneChestRegistry : list Location * list LocationGroup :=
  let heap : list Location := [] in
  let '(heap, only) :=
    addLocations heap
      (LocationGroup.init "Only" 4 (fun game => true) None)
      [ Location.init "Only Chest" 0x100 ] in
  (heap, [only]).

(** An always accessible group with a single location, and a group of 14
    locations that needs the pendant. *)
Definition gatedRegistry : list Location * list LocationGroup :=
  let heap : list Location := [] in
  let '(heap, front) :=
    addLocations heap
      (LocationGroup.init "Front" 4 (fun game => true) None)
      [ Location.init "Front Chest" 0x100 ] in
  let '(heap, back) :=
    addLocations heap
      (LocationGroup.init "Back" 9 (fun game => Game.canAccessFuture game) None)
      [ Location.init "Back 1" 0x201; Location.init "Back 2" 0x202;
        Location.init "Back 3" 0x203; Location.init "Back 4" 0x204;
        Location.init "Back 5" 0x205; Location.init "Back 6" 0x206;
        Location.init "Back 7" 0x207; Location.init "Back 8" 0x208;
        Location.init "Back 9" 0x209; Location.init "Back 10" 0x20A;
        Location.init "Back 11" 0x20B; Location.init "Back 12" 0x20C;
        Location.init "Back 13" 0x20D; Location.init "Back 14" 0x20E ] in
  (heap, [front; back]).

(** A registry with a location that is a member of two groups (the one
    location of "Porch" is the first location of "House") and a group with
    base weight 0. *)
Definition malformedRegistry : list Location * list LocationGroup :=
  let heap : list Location := [] in
  let '(heap, house) :=
    addLocations heap
      (LocationGroup.init "House" 3 (fun game => true) None)
      [ Location.init "Room 1" 0x301; Location.init "Room 2" 0x302;
        Location.init "Room 3" 0x303; Location.init "Room 4" 0x304;
        Location.init "Room 5" 0x305; Location.init "Room 6" 0x306;
        Location.init "Room 7" 0x307; Location.init "Room 8" 0x308;
        Location.init "Room 9" 0x309; Location.init "Room 10" 0x30A;
        Location.init "Room 11" 0x30B; Location.init "Room 12" 0x30C;
        Location.init "Room 13" 0x30D; Location.init "Room 14" 0x30E;
        Location.init "Room 15" 0x30F; Location.init "Room 16" 0x310 ] in
  let porch :=
    LocationGroup.addLocation
      (LocationGroup.init "Porch" 7 (fun game => true) None) 0%nat in
  let '(heap, shed) :=
    addLocations heap
      (LocationGroup.init "Shed" 0 (fun game => true) None)
      [ Location.init "Shed Chest" 0x401 ] in
  (heap, [porch; house; shed]).

(** The game [determineKeyItemPlacement] starts from. *)
Definition newGame (charlocs : CharLocations) (lockedChars earlyPendant : bool)
    : Game :=
  Game.setLockedCharacters
    (Game.setEarlyPendant (Game.init charlocs) earlyPendant) lockedChars.

(** The state of the first call of a solve just before its first recursive
    call: the frame and the world after the first pass through the loop. *)
Definition afterFirstPass (rand : nat -> nat)
    (registry : list Location * list LocationGroup) (game : Game)
    (pool : list KeyItems) : option (Frame * World) :=
  match getAvailableLocations (initialWorld registry game) with
  | Returns avail w =>
      match tryPlacement rand (newFrame avail pool) w with
      | Returns fr w => Some (fr, w)
      | _ => None
      end
  | _ => None
  end.

(** The state of the first call of a solve at the start of its second pass:
    the first recursive call has failed. *)
Definition afterFirstFailure (rand : nat -> nat)
    (registry : list Location * list LocationGroup) (game : Game)
    (pool : list KeyItems) : option (Frame * World) :=
  match afterFirstPass rand registry game pool with
  | Some (fr, w) =>
      match determineKeyItemPlacement_impl rand 1 1 (remainingKeyItems fr) w with
      | Returns r w =>
          if success r then None
          else Some (set_result fr (success r) (keyItemsLeft r), w)
      | _ => None
      end
  | None => None
  end.

(** The pool returned by [getInitialKeyItems]. *)
Definition initialKeyItems : list KeyItems := default [] getInitialKeyItems.

(** A random source that is 0 except at its sixth draw. *)
Definition sixth (n : nat) : nat -> nat :=
  fun i => if decide (i = 5%nat) then n else 0%nat.

Definition sampleGame : Game := newGame sampleCharLocations false false.

(** What a caller sees of a run: the flag, and the returned list with the
    key item each of its locations holds. *)
Definition observe (res : Result Reply)
    : option (bool * list (LocRef * option KeyItems)) :=
  match res with
  | Returns r w =>
      Some (success r,
            (fun l => (l, keyItem (locationAt w l))) <$> placement r)
  | _ => None
  end.

(** ** Further definitions *)

(** [g'] holds everything [g] holds, under the same flags. *)
Definition grows (g g' : Game) : Prop :=
  keyItems g ⊆ keyItems g' /\ characters g ⊆ characters g' /\
  earlyPendant g = earlyPendant g' /\ lockedChars g = lockedChars g'.

(** The logic convenience functions of [Game]. *)
Definition Game_predicates : list (Game -> bool) :=
  [ Game.canAccessDactylCharacter; Game.canAccessFuture;
    Game.canAccessPrehistory; Game.canAccessTyranoLair; Game.hasMasamune;
    Game.canAccessMagusCastle; Game.canAccessDarkAges;
    Game.canAccessOceanPalace; Game.canAccessBlackOmen;
    Game.canGetSunstone; Game.canAccessKingsTrial;
    Game.canAccessMelchiorsRefinements; Game.canAccessGiantsClaw;
    Game.canAccessRuins; Game.canAccessSealedChests;
    Game.canAccessBurrowItem; Game.canAccessFionasShrine ].

(** The access rules of [initLocationGroups], in the order of
    [locationGroups]. *)
Definition registryRules : list (Game -> bool) :=
  accessRule <$> initLocationGroups.2.

(** The names of the groups of [initLocationGroups] whose rule is
    [lambda game: True]. *)
Definition openGroupNames : list string :=
  ["Open"; "OpenKeys"; "Heckran"; "CathedralLocations"; "GuardiaCastle";
   "DenadoroLocations"].

(** ** Playing a placement through *)

(** The chosen locations of [w] with the key item each of them holds, in
    the order in which they were chosen. *)
Definition placedItems (w : World) : list (LocRef * KeyItems) :=
  omap (fun l => (fun k => (l, k)) <$> keyItem (locationAt w l))
       (chosenLocations w).

(** The game of a player who has picked up the key items [items] in order,
    with the characters updated before each. *)
Definition collect (game : Game) (items : list KeyItems) : Game :=
  foldl (fun game k => Game.addKeyItem (Game.updateAvailableCharacters game) k)
        game items.

(** Whether the location [l] is a member of a group of [groups] that
    [game] gives access to. *)
Definition reachable (groups : list LocationGroup) (game : Game) (l : LocRef)
    : bool :=
  existsb (fun grp => LocationGroup.canAccess grp game
                      && bool_decide (l ∈ locations grp)) groups.

(** Whether the key items of [placed] can be picked up in order: each
    location is reachable in the game that holds the key items before it,
    once its characters are updated. *)
Fixpoint inLogic (groups : list LocationGroup) (game : Game)
    (placed : list (LocRef * KeyItems)) : bool :=
  match placed with
  | [] => true
  | (l, k) :: placed =>
      let game := Game.updateAvailableCharacters game in
      reachable groups game l && inLogic groups (Game.addKeyItem game k) placed
  end.

(** Two location objects that differ at most in the key item they hold. *)
Definition sameSite (a b : Location) : Prop :=
  locName a = locName b /\ pointer a = pointer b /\
  pointer2 a = pointer2 b /\ lootTier a = lootTier b.

(** A group that differs from [grp0] at most in its weight and in having
    lost locations. *)
Definition sameGroup (grp grp0 : LocationGroup) : Prop :=
  accessRule grp = accessRule grp0 /\ name grp = name grp0 /\
  locations grp ⊆ locations grp0.

(** The state of a solve in which no pass was ever retried, against the
    registry and the game it started from: the location objects and the
    groups are those of the registry, apart from the key items and the
    weights; every location of the registry is either chosen or still in its
    group; the game is that of a player who picked up the key items of the
    chosen locations in the order of the list, and each of these locations
    was reachable for that player; three draws were made per location. *)
Record Progress (registry : list Location * list LocationGroup)
    (game0 : Game) (w : World) : Prop := {
  progress_sites : Forall2 sameSite (heap w) registry.1;
  progress_groups : Forall2 sameGroup (locationGroups w) registry.2;
  progress_all :
    chosenLocations w ++ concat (locations <$> locationGroups w)
    ≡ₚ concat (locations <$> registry.2);
  progress_placed : (placedItems w).*1 = chosenLocations w;
  progress_game : game w = collect game0 (placedItems w).*2;
  progress_logic : inLogic registry.2 game0 (placedItems w) = true;
  progress_draws : cursor w = (3 * length (chosenLocations w))%nat
}.

(** ** The treasure of the baseline locations *)

(** The tables of the module [treasurewriter] the script reads. *)
Record Treasurewriter := {
  plvlconsumables : list Z;
  mlvlconsumables : list Z;
  glvlconsumables : list Z;
  hlvlconsumables : list Z;
  alvlconsumables : list Z;
  mlvlitems : list Z;
  glvlitems : list Z;
  hlvlitems : list Z;
  alvlitems : list Z
}.

Section Treasure.

Variable rand : nat -> nat.
Variable treasure : Treasurewriter.

(** [rand.randrange(0, stop, 1)]: any integer of [0..stop-1]; [ValueError]
    on an empty range. *)
Definition randrange (stop : Z) : M Z :=
  if decide (stop <= 0) then raise ValueError
  else n ← draw rand; ret (Z.of_nat n `mod` stop).

(** [getRandomTreasure(location)], for a baseline location of loot tier
    [lootTier]. *)
Definition getRandomTreasure (lootTier : LootTiers) : M Z :=
  rand_num ← randrange 11;
  match lootTier with
  | Mid =>
      if decide (rand_num > 5)
      then choice rand (treasure.(plvlconsumables)
                        ++ treasure.(mlvlconsumables))
      else
        rand_num ← randrange 100;
        if decide (rand_num > 74) then
          if decide (rand_num > 94) then choice rand treasure.(hlvlitems)
          else choice rand treasure.(glvlitems)
        else choice rand treasure.(mlvlitems)
  | MidHigh =>
      if decide (rand_num > 5)
      then choice rand (treasure.(mlvlconsumables)
                        ++ treasure.(glvlconsumables))
      else
        rand_num ← randrange 100;
        if decide (rand_num > 74) then
          if decide (rand_num > 94) then choice rand treasure.(alvlitems)
          else choice rand treasure.(hlvlitems)
        else choice rand treasure.(glvlitems)
  | High =>
      if decide (rand_num > 6)
      then choice rand (treasure.(glvlconsumables)
                        ++ treasure.(hlvlconsumables)
                        ++ treasure.(alvlconsumables))
      else
        rand_num ← randrange 100;
        if decide (rand_num > 74) then choice rand treasure.(alvlitems)
        else choice rand (treasure.(glvlitems) ++ treasure.(hlvlitems))
  end.

(** The treasure codes a tier can give. *)
Definition tierTreasures (lootTier : LootTiers) : list Z :=
  match lootTier with
  | Mid =>
      treasure.(plvlconsumables) ++ treasure.(mlvlconsumables)
      ++ treasure.(mlvlitems) ++ treasure.(glvlitems) ++ treasure.(hlvlitems)
  | MidHigh =>
      treasure.(mlvlconsumables) ++ treasure.(glvlconsumables)
      ++ treasure.(glvlitems) ++ treasure.(hlvlitems) ++ treasure.(alvlitems)
  | High =>
      treasure.(glvlconsumables) ++ treasure.(hlvlconsumables)
      ++ treasure.(alvlconsumables)
      ++ treasure.(glvlitems) ++ treasure.(hlvlitems) ++ treasure.(alvlitems)
  end.

(** ** The ROM *)

(** The content of the ROM file, byte by byte. *)
Definition Rom := list Z.

(** The exceptions of the writer: those of the solver and of the random
    source, [OSError] (a seek to a negative offset), [AttributeError]
    ([None.value], a location without a second pointer) and [struct.error]
    (a value that is not a byte). *)
Inductive Exception :=
  | SolverFault (e : Fault) | OSError | AttributeError | StructError.

Inductive Outcome (A : Type) :=
  | Done (a : A)
  | Throws (e : Exception)
  | Unfinished.

#[global] Arguments Done {A} a.
#[global] Arguments Throws {A} e.
#[global] Arguments Unfinished {A}.

#[global] Instance Outcome_ret : MRet Outcome := @Done.
#[global] Instance Outcome_bind : MBind Outcome := fun A B k m =>
  match m with
  | Done a => k a
  | Throws e => Throws e
  | Unfinished => Unfinished
  end.

(** [romFile.seek(offset)]: the position reached. *)
Definition seek (offset : Z) : Outcome nat :=
  if decide (offset < 0) then Throws OSError else mret (Z.to_nat offset).

(** [st.pack("B", value)] *)
Definition pack_B (value : Z) : Outcome Z :=
  if decide (0 <= value <= 255) then mret value else Throws StructError.

(** [romFile.write(byte)] at position [pos] of a file opened with ["r+b"]:
    the byte is replaced; past the end, the file is first filled with zero
    bytes. *)
Definition write (rom : Rom) (pos : nat) (byte : Z) : Rom :=
  if decide (pos < length rom)%nat then <[pos := byte]> rom
  else rom ++ replicate (pos - length rom) 0 ++ [byte].

(** The body of the loop over [chosenLocations]; an [EventLocation] or a
    [BaselineLocation] is a location with a second pointer. *)
Definition writeKeyItem (w : World) (rom : Rom) (location : LocRef)
    : Outcome Rom :=
  let loc := locationAt w location in
  pos ← seek (pointer loc);
  keyItem ← from_option mret (Throws AttributeError) (Location.getKeyItem loc);
  byte ← pack_B (KeyItems_value keyItem);
  let rom := write rom pos byte in
  match pointer2 loc with
  | Some pointer2 =>
      pos ← seek pointer2;
      byte ← pack_B (KeyItems_value keyItem);
      mret (write rom pos byte)
  | None => mret rom
  end.

(** The body of the loops over the groups and their locations; a
    [BaselineLocation] is a location with a loot tier. *)
Definition writeTreasure (chosenLocations : list LocRef)
    (acc : Rom * World) (location : LocRef) : Outcome (Rom * World) :=
  let '(rom, w) := acc in
  let loc := locationAt w location in
  match lootTier loc with
  | Some tier =>
      if decide (location ∈ chosenLocations) then mret (rom, w)
      else
        match getRandomTreasure tier w with
        | Returns treasureCode w =>
            pos ← seek (pointer loc);
            byte ← pack_B treasureCode;
            let rom := write rom pos byte in
            pointer2 ← from_option mret (Throws AttributeError) (pointer2 loc);
            pos ← seek pointer2;
            byte ← pack_B treasureCode;
            mret (write rom pos byte, w)
        | Raises e => Throws (SolverFault e)
        | _ => Unfinished
        end
  | None => mret (rom, w)
  end.

(** A [for] loop with an accumulator. *)
Definition forEach {A B} (body : A -> B -> Outcome A) (acc : A) (l : list B)
    : Outcome A :=
  foldl (fun acc x => acc ← acc; body acc x) (mret acc) l.

(** What [writeKeyItems] leaves: the ROM as it is when the file is closed
    and the world of the solve, or nothing but the message that the key
    items could not be placed. *)
Inductive Report :=
  | Written (rom : Rom) (w : World)
  | Unable.

(** [writeKeyItems(outFile, charLocations, lockedChars, earlyPendant)] up
    to [romFile.close()], on a file [outFile] of content [rom]. *)
Definition writeKeyItems (depth iterations : nat) (rom : Rom)
    (charLocations : CharLocations) (lockedChars earlyPendant : bool)
    : Outcome Report :=
  match determineKeyItemPlacement rand depth iterations charLocations
          lockedChars earlyPendant with
  | Returns r w =>
      if success r then
        rom ← forEach (writeKeyItem w) rom (placement r);
        '(rom, w) ← forEach (writeTreasure (placement r)) (rom, w)
                      (concat (LocationGroup.getLocations <$> locationGroups w));
        mret (Written rom w)
      else mret Unable
  | Raises e => Throws (SolverFault e)
  | OutOfIterations | OutOfDepth => Unfinished
  end.

End Treasure.

(** The offsets a location is written at. *)
Definition targets (loc : Location) : list Z :=
  pointer loc :: match pointer2 loc with Some p => [p] | None => [] end.

(** A ROM after the writes of [log], pairs of an offset and a byte, in
    order. *)
Definition applyLog (rom : Rom) (log : list (Z * Z)) : Rom :=
  foldl (fun rom '(offset, byte) => write rom (Z.to_nat offset) byte) rom log.

(** The writes that put [byte] at every offset of a location. *)
Definition stamp (loc : Location) (byte : Z) : list (Z * Z) :=
  (fun offset => (offset, byte)) <$> targets loc.

(** The writes of the treasure loop for one location: none for a location
    that is chosen or has no loot tier, else a code of its tier at each of
    its offsets. *)
Definition treasureStamp (treasure : Treasurewriter)
    (chosenLocations : list LocRef) (w : World) (location : LocRef)
    (log : list (Z * Z)) : Prop :=
  match lootTier (locationAt w location) with
  | Some tier =>
      if decide (location ∈ chosenLocations) then log = []
      else exists treasureCode,
             treasureCode ∈ tierTreasures treasure tier /\
             log = stamp (locationAt w location) treasureCode
  | None => log = []
  end.

(** The writes of the key-item loop for one location. *)
Definition keyItemStamp (w : World) (location : LocRef) : list (Z * Z) :=
  match keyItem (locationAt w location) with
  | Some k => stamp (locationAt w location) (KeyItems_value k)
  | None => []
  end.

(** Tables from which every choice succeeds and every code is a byte. *)
Definition stocked (treasure : Treasurewriter) : Prop :=
  mlvlconsumables treasure <> [] /\ glvlconsumables treasure <> [] /\
  mlvlitems treasure <> [] /\ glvlitems treasure <> [] /\
  hlvlitems treasure <> [] /\ alvlitems treasure <> [] /\
  forall tier, Forall (fun code => 0 <= code <= 255)
                      (tierTreasures treasure tier).

(** Small tables to run the writer on. *)
Definition sampleTreasure : Treasurewriter :=
  {| plvlconsumables := [0x01; 0x02]; mlvlconsumables := [0x03; 0x04];
     glvlconsumables := [0x05]; hlvlconsumables := [0x06];
     alvlconsumables := [0x07]; mlvlitems := [0x11; 0x12];
     glvlitems := [0x21]; hlvlitems := [0x31; 0x32]; alvlitems := [0x41] |}.

(** ** The passes of a solve *)




(** A group that is [grp0] after [n] weight decays and the loss of [n] of
    its locations, the others in their order. *)
Definition spentGroup (grp grp0 : LocationGroup) : Prop :=
  exists n,
    grp = LocationGroup.set_locations
            (Nat.iter n LocationGroup.decayWeight grp0) (locations grp) /\
    locations grp `sublist_of` locations grp0 /\
    (length (locations grp) + n = length (locations grp0))%nat.

(** A group with a location, of weight 2, and one without, of weight 3. *)
Definition halfEmptyRegistry : list Location * list LocationGroup :=
  let heap : list Location := [] in
  let '(heap, full) :=
    addLocations heap
      (LocationGroup.init "Full" 2 (fun game => true) None)
      [ Location.init "Full Chest" 0x100 ] in
  (heap, [full; LocationGroup.init "Empty" 3 (fun game => true) None]).

(** A random source that always gives 3. *)
Definition threes : nat -> nat := fun _ => 3%nat.
(** * Properties *)

(** ** The pool *)

Lemma getInitialKeyItems_tokens :
  exists pool,
    getInitialKeyItems = Some pool /\
    length pool = 61%nat /\
    forall k, tokens k pool = initial_tokens k.
Proof.
  eexists. split; [reflexivity|]. split; [reflexivity|].
  intros []; reflexivity.
Qed.

(** C5: [getInitialKeyItems] returns (without raising) a list of 61 tokens
    in which every key item occurs exactly as often as the fixed table says:
    5 each of tomapop, jerky, moonstone, prismshard, grandleon, heromedal and
    roboribbon, 3 each of hilt and blade, 1 each of dreamstone, rubyknife,
    clone and ctrigger, 8 each of gatekey and pendant. *)
Theorem getInitialKeyItems_composition :
  exists pool,
    getInitialKeyItems = Some pool /\
    length pool = 61%nat /\
    (forall k, tokens k pool = initial_tokens k) /\
    tokens tomapop pool = 5%nat /\ tokens jerky pool = 5%nat /\
    tokens moonstone pool = 5%nat /\ tokens prismshard pool = 5%nat /\
    tokens grandleon pool = 5%nat /\ tokens heromedal pool = 5%nat /\
    tokens roboribbon pool = 5%nat /\
    tokens hilt pool = 3%nat /\ tokens blade pool = 3%nat /\
    tokens dreamstone pool = 1%nat /\ tokens rubyknife pool = 1%nat /\
    tokens clone pool = 1%nat /\ tokens ctrigger pool = 1%nat /\
    tokens gatekey pool = 8%nat /\ tokens pendant pool = 8%nat.
Proof.
  destruct getInitialKeyItems_tokens as (pool & Hrun & Hlen & Htok).
  exists pool. rewrite !Htok. by repeat split.
Qed.

(** ** Weights *)

Lemma setWeight_floor g w : 1 <= weight (LocationGroup.setWeight g w).
Proof. unfold LocationGroup.setWeight; simpl. case_decide; lia. Qed.

Lemma setWeight_clamp g w :
  w < 1 -> weight (LocationGroup.setWeight g w) = 1.
Proof. unfold LocationGroup.setWeight; simpl. case_decide; lia. Qed.

Lemma decayWeight_floor g : 1 <= weight (LocationGroup.decayWeight g).
Proof.
  unfold LocationGroup.decayWeight; simpl.
  destruct (weightDecay g); apply setWeight_floor.
Qed.

Lemma undoWeightDecay_floor g :
  1 <= weight g -> 1 <= weight (LocationGroup.undoWeightDecay g).
Proof.
  intros Hg. unfold LocationGroup.undoWeightDecay.
  destruct (last (weightStack g)); [apply setWeight_floor | exact Hg].
Qed.

Lemma apply_floor g o :
  1 <= weight g -> 1 <= weight (LocationGroup.apply g o).
Proof.
  intros Hg. destruct o as [w| | |l|l]; unfold LocationGroup.apply.
  - apply setWeight_floor.
  - apply decayWeight_floor.
  - by apply undoWeightDecay_floor.
  - unfold LocationGroup.addLocation. by case_decide.
  - unfold LocationGroup.removeLocation.
    by destruct (list_remove l (locations g)).
Qed.

(** C7: a group constructed with a weight of at least 1 has a weight of at
    least 1 after every sequence of operations: [setWeight] with any argument
    (an argument below 1 is clamped to 1), [decayWeight] with no decay
    function (drop to one) or with any decay function, [undoWeightDecay], and
    the two membership operations. *)
Theorem weight_floor_invariant nm w rule decay (ops : list LocationGroup.op) :
  1 <= w ->
  1 <= weight (foldl LocationGroup.apply (LocationGroup.init nm w rule decay) ops)
  /\ (forall g w', w' < 1 -> weight (LocationGroup.setWeight g w') = 1).
Proof.
  intros Hw. split; [|apply setWeight_clamp].
  assert (Hinit : 1 <= weight (LocationGroup.init nm w rule decay)) by exact Hw.
  revert Hinit. generalize (LocationGroup.init nm w rule decay).
  induction ops as [|o ops IH]; intros g Hg; simpl; [exact Hg|].
  apply IH. by apply apply_floor.
Qed.

Lemma weight_floor_invariant_witness :
  1 <= weight (foldl LocationGroup.apply
                 (LocationGroup.init "Open" 10 (fun _ => true)
                    (Some (fun w => w - 20)))
                 [LocationGroup.DecayWeight; LocationGroup.SetWeight (-3);
                  LocationGroup.UndoWeightDecay; LocationGroup.DecayWeight;
                  LocationGroup.AddLocation 0%nat;
                  LocationGroup.UndoWeightDecay])
  /\ (forall g w', w' < 1 -> weight (LocationGroup.setWeight g w') = 1).
Proof. refine (weight_floor_invariant _ _ _ _ _ _). lia. Defined.

(** C8: on a group whose weight is at least 1, [decayWeight] followed at
    once by [undoWeightDecay] gives back the group it started from, with its
    exact weight and its undo stack, whether the group has no decay function
    (drop to one) or any decay function at all. *)
Theorem decay_undo_roundtrip g :
  1 <= weight g ->
  LocationGroup.undoWeightDecay (LocationGroup.decayWeight g) = g /\
  weight (LocationGroup.undoWeightDecay (LocationGroup.decayWeight g))
  = weight g.
Proof.
  intros Hg.
  assert (H : LocationGroup.undoWeightDecay (LocationGroup.decayWeight g) = g);
    [|by rewrite H].
  destruct g as [nm locs w rule decay st]; simpl in Hg.
  unfold LocationGroup.undoWeightDecay, LocationGroup.decayWeight; simpl.
  destruct decay as [f|]; simpl; rewrite last_snoc, removelast_last;
    unfold LocationGroup.setWeight, LocationGroup.set_weightStack; simpl;
    (case_decide; [lia|reflexivity]).
Qed.

Lemma decay_undo_roundtrip_witness :
  let g := foldl LocationGroup.apply
             (LocationGroup.init "SealedLocations" 30 (fun _ => true)
                (Some (fun weight => int (float weight * 0.3)%float)))
             [LocationGroup.AddLocation 4%nat; LocationGroup.DecayWeight] in
  1 <= weight g /\
  LocationGroup.undoWeightDecay (LocationGroup.decayWeight g) = g /\
  weight (LocationGroup.undoWeightDecay (LocationGroup.decayWeight g))
  = weight g.
Proof.
  intros g. assert (Hg : 1 <= weight g) by (vm_compute; discriminate).
  split; [exact Hg|]. exact (decay_undo_roundtrip g Hg).
Defined.

(** C10: on a group whose undo stack is empty, [undoWeightDecay] does
    nothing: it returns the very same group (weight, stack, locations and
    every other field); it is a total function, so it raises nothing. *)
Theorem undoWeightDecay_empty_stack g :
  weightStack g = [] -> LocationGroup.undoWeightDecay g = g.
Proof. intros Hst. unfold LocationGroup.undoWeightDecay. by rewrite Hst. Qed.

Lemma undoWeightDecay_empty_stack_witness :
  weightStack (LocationGroup.init "OpenKeys" 5 (fun _ => true) None) = [] /\
  LocationGroup.undoWeightDecay
    (LocationGroup.init "OpenKeys" 5 (fun _ => true) None)
  = LocationGroup.init "OpenKeys" 5 (fun _ => true) None.
Proof.
  split; [reflexivity|].
  refine (undoWeightDecay_empty_stack _ _). reflexivity.
Defined.

(** ** Running the monad *)

Lemma bind_run {A B} (m : M A) (k : A -> M B) w a w1 :
  m w = Returns a w1 -> (m ≫= k) w = k a w1.
Proof. intros H. unfold mbind, M_bind, bind. by rewrite H. Qed.

Lemma bind_Returns {A B} (m : M A) (k : A -> M B) w b w' :
  (m ≫= k) w = Returns b w' ->
  exists a w1, m w = Returns a w1 /\ k a w1 = Returns b w'.
Proof.
  unfold mbind, M_bind, bind. destruct (m w) as [a w1| | |]; try discriminate.
  intros H. by exists a, w1.
Qed.

Lemma straight_ret {A} (a : A) : straight (mret a).
Proof. intros w. by split. Qed.

Lemma straight_raise {A} e : straight (raise (A := A) e).
Proof. intros w. by split. Qed.

Lemma straight_gets {A} (f : World -> A) : straight (gets f).
Proof. intros w. by split. Qed.

Lemma straight_modify f : straight (modify f).
Proof. intros w. by split. Qed.

Lemma straight_bind {A B} (m : M A) (k : A -> M B) :
  straight m -> (forall a, straight (k a)) -> straight (m ≫= k).
Proof.
  intros Hm Hk w. unfold mbind, M_bind, bind.
  destruct (m w) as [a w1| | |] eqn:E.
  - apply Hk.
  - by split.
  - by destruct (Hm w) as [_ []].
  - by destruct (Hm w) as [[] _].
Qed.

Lemma straight_onGroup g f : straight (onGroup g f).
Proof. apply straight_modify. Qed.

Lemma straight_onLocation l f : straight (onLocation l f).
Proof. apply straight_modify. Qed.

Lemma straight_onGame f : straight (onGame f).
Proof. apply straight_modify. Qed.

Lemma straight_removeLocation g l : straight (removeLocation g l).
Proof. intros w. unfold removeLocation. by destruct LocationGroup.removeLocation. Qed.

Lemma straight_draw rand : straight (draw rand).
Proof. intros w. by split. Qed.

Lemma straight_randint rand a b : straight (randint rand a b).
Proof.
  unfold randint. case_decide; [apply straight_raise|].
  apply straight_bind; [apply straight_draw|]. intros; apply straight_ret.
Qed.

Lemma straight_choice {A} rand (l : list A) : straight (choice rand l).
Proof.
  destruct l; simpl; [apply straight_raise|].
  apply straight_bind; [apply straight_draw|]. intros; apply straight_ret.
Qed.

Create HintDb straight.
#[local] Hint Resolve straight_ret straight_raise straight_gets straight_modify
  straight_onGroup straight_onLocation straight_onGame
  straight_removeLocation straight_draw straight_randint straight_choice
  : straight.

#[local] Ltac straight :=
  repeat first
    [ apply straight_bind; [|intros ?]
    | solve [eauto with straight]
    | match goal with |- straight (match ?x with _ => _ end) => destruct x end
    | match goal with |- straight (if ?x then _ else _) => destruct x end ].

Lemma straight_getAvailableLocations : straight getAvailableLocations.
Proof. unfold getAvailableLocations. straight. Qed.

Lemma straight_undoPreviousChoice fr : straight (undoPreviousChoice fr).
Proof. unfold undoPreviousChoice. straight. Qed.

Lemma straight_pickLocation rand fr : straight (pickLocation rand fr).
Proof. unfold pickLocation. straight. Qed.

Lemma straight_pruneKeyItems fr : straight (pruneKeyItems fr).
Proof. unfold pruneKeyItems. straight. Qed.

Lemma straight_chooseKeyItem rand fr : straight (chooseKeyItem rand fr).
Proof. unfold chooseKeyItem. straight. Qed.

Lemma straight_tryPlacement rand fr : straight (tryPlacement rand fr).
Proof.
  unfold tryPlacement, chooseLocation.
  apply straight_bind; [apply straight_bind|intros fr1; apply straight_bind].
  - apply straight_undoPreviousChoice.
  - intros _. apply straight_pickLocation.
  - apply straight_pruneKeyItems.
  - intros fr2. apply straight_chooseKeyItem.
Qed.

Lemma straight_reply b pool : straight (reply b pool).
Proof. apply straight_gets. Qed.

Lemma draw_run rand w :
  draw rand w = Returns (rand (cursor w)) (set_cursor w (S (cursor w))).
Proof. reflexivity. Qed.

Lemma choice_Returns {A} rand (seq : list A) w a w' :
  choice rand seq w = Returns a w' ->
  a ∈ seq /\ w' = set_cursor w (S (cursor w)).
Proof.
  destruct seq as [|x seq']; [discriminate|].
  unfold choice. assert (Hne : x :: seq' <> []) by done.
  revert Hne. generalize (x :: seq') at 1 2 3 4 as l. intros l Hne H.
  apply bind_Returns in H as (n & w1 & Hd & Hr).
  rewrite draw_run in Hd. injection Hd as <- <-. injection Hr as <- <-.
  split; [|done].
  apply list_elem_of_In, nth_In. apply Nat.mod_upper_bound.
  by destruct l.
Qed.

Lemma choice_nonempty {A} rand (seq : list A) w :
  seq <> [] ->
  exists a, choice rand seq w = Returns a (set_cursor w (S (cursor w))) /\ a ∈ seq.
Proof.
  intros Hne. destruct (choice rand seq w) as [a w'| | |] eqn:E.
  - apply choice_Returns in E as Hin. destruct Hin as [Hin ->]. by exists a.
  - destruct seq; [done|]. discriminate.
  - by destruct (straight_choice rand seq w) as [_ []].
  - by destruct (straight_choice rand seq w) as [[] _].
Qed.

Lemma randint_Returns rand a b w n w' :
  randint rand a b w = Returns n w' ->
  a <= n <= b /\ w' = set_cursor w (S (cursor w)).
Proof.
  unfold randint. case_decide as Hab; [discriminate|].
  intros H. apply bind_Returns in H as (m & w1 & Hd & Hr).
  rewrite draw_run in Hd. injection Hd as <- <-. injection Hr as <- <-.
  split; [|done].
  pose proof (Z.mod_pos_bound (Z.of_nat (rand (cursor w))) (b - a + 1)).
  lia.
Qed.

Lemma randint_nonempty rand a b w :
  a <= b ->
  exists n, randint rand a b w = Returns n (set_cursor w (S (cursor w)))
            /\ a <= n <= b.
Proof.
  intros Hab. destruct (randint rand a b w) as [n w'| | |] eqn:E.
  - apply randint_Returns in E as Hn. destruct Hn as [Hn ->]. by exists n.
  - unfold randint in E. case_decide; [lia|]. discriminate.
  - by destruct (straight_randint rand a b w) as [_ []].
  - by destruct (straight_randint rand a b w) as [[] _].
Qed.

(** ** Lists *)

Lemma list_remove_Some {A} `{EqDecision A} (x : A) (l : list A) :
  x ∈ l -> exists l', list_remove x l = Some l'.
Proof.
  induction l as [|y l IH]; intros Hin; [by apply elem_of_nil in Hin|].
  simpl. case_decide as Hy; [by eexists|].
  apply elem_of_cons in Hin as [->|Hin]; [done|].
  destruct (IH Hin) as [l' ->]. by eexists.
Qed.

Lemma list_remove_Permutation {A} `{EqDecision A} (x : A) (l l' : list A) :
  list_remove x l = Some l' -> l ≡ₚ x :: l'.
Proof.
  revert l'. induction l as [|y l IH]; intros l'; [discriminate|].
  simpl. case_decide as Hy.
  - intros [= <-]. by subst.
  - destruct (list_remove x l) as [l0|]; [|discriminate].
    intros [= <-]. rewrite (IH l0 eq_refl). apply Permutation_swap.
Qed.

(** ** The selection of a group *)

Lemma weightTotal_from w avail c :
  foldl (fun t g => t + LocationGroup.getWeight (groupAt w g)) c avail
  = c + weightTotal w avail.
Proof.
  unfold weightTotal. revert c.
  induction avail as [|g avail IH]; intros c; simpl; [lia|].
  rewrite IH, (IH (0 + _)). lia.
Qed.

Lemma weightTotal_cons w g avail :
  weightTotal w (g :: avail)
  = LocationGroup.getWeight (groupAt w g) + weightTotal w avail.
Proof. unfold weightTotal at 1. simpl. by rewrite weightTotal_from. Qed.

Lemma weightTotal_nonneg w avail :
  (forall g, g ∈ avail -> 1 <= weight (groupAt w g)) ->
  0 <= weightTotal w avail.
Proof.
  induction avail as [|g avail IH]; intros Hw; [done|].
  rewrite weightTotal_cons. unfold LocationGroup.getWeight.
  assert (1 <= weight (groupAt w g)) by (apply Hw; constructor).
  assert (0 <= weightTotal w avail); [|lia].
  apply IH. intros g' Hg'. apply Hw. by constructor.
Qed.

Lemma weightTotal_pos w avail :
  avail <> [] ->
  (forall g, g ∈ avail -> 1 <= weight (groupAt w g)) ->
  1 <= weightTotal w avail.
Proof.
  intros Hne Hw. destruct avail as [|g avail]; [done|].
  rewrite weightTotal_cons. unfold LocationGroup.getWeight.
  assert (1 <= weight (groupAt w g)) by (apply Hw; constructor).
  assert (0 <= weightTotal w avail); [|lia].
  apply weightTotal_nonneg. intros g' Hg'. apply Hw. by constructor.
Qed.

(** A draw within the total weight always breaks out of the loop, at a
    group of the snapshot. *)
Lemma selectGroup_hit w avail locationChoice counter group :
  counter < locationChoice <= counter + weightTotal w avail ->
  exists g, selectGroup w avail locationChoice counter group = (Some g, Some g)
            /\ g ∈ avail.
Proof.
  revert counter group.
  induction avail as [|g avail IH]; intros counter group Hc.
  - unfold weightTotal in Hc; simpl in Hc. lia.
  - rewrite weightTotal_cons in Hc. simpl. case_decide as Hge.
    + exists g. split; [done|constructor].
    + destruct (IH (counter + LocationGroup.getWeight (groupAt w g)) (Some g))
        as (g' & -> & Hin); [lia|].
      exists g'. split; [done|by constructor].
Qed.

(** The selection reads the groups of the world only. *)
Lemma weightTotal_ext w1 w2 avail :
  locationGroups w1 = locationGroups w2 ->
  weightTotal w1 avail = weightTotal w2 avail.
Proof.
  intros Hg.
  assert (Heq : forall g, groupAt w1 g = groupAt w2 g)
    by (intros g; unfold groupAt; by rewrite Hg).
  unfold weightTotal. generalize 0.
  induction avail as [|g avail IH]; intros c; simpl; [done|].
  rewrite (Heq g). apply IH.
Qed.

Lemma selectGroup_ext w1 w2 avail locationChoice counter group :
  locationGroups w1 = locationGroups w2 ->
  selectGroup w1 avail locationChoice counter group
  = selectGroup w2 avail locationChoice counter group.
Proof.
  intros Hg.
  assert (Heq : forall g, groupAt w1 g = groupAt w2 g)
    by (intros g; unfold groupAt; by rewrite Hg).
  revert counter group.
  induction avail as [|g avail IH]; intros counter group; simpl; [done|].
  rewrite (Heq g). case_decide; [done|]. apply IH.
Qed.

(** ** The steps of one pass through the loop *)

Lemma gets_bind {A B} (f : World -> A) (k : A -> M B) w :
  (gets f ≫= k) w = k (f w) w.
Proof. reflexivity. Qed.

Lemma modify_bind {B} (f : World -> World) (k : unit -> M B) w :
  (modify f ≫= k) w = k tt (f w).
Proof. reflexivity. Qed.

Lemma onGroup_bind {B} g f (k : unit -> M B) w :
  (onGroup g f ≫= k) w
  = k tt (set_locationGroups w (<[g := f (groupAt w g)]> (locationGroups w))).
Proof. reflexivity. Qed.

Lemma onGame_bind {B} f (k : unit -> M B) w :
  (onGame f ≫= k) w = k tt (set_game w (f (game w))).
Proof. reflexivity. Qed.

Lemma onLocation_bind {B} l f (k : unit -> M B) w :
  (onLocation l f ≫= k) w
  = k tt (set_heap w (<[l := f (locationAt w l)]> (heap w))).
Proof. reflexivity. Qed.

(** What [pickLocation] does when it returns. *)
Lemma pickLocation_Returns rand fr w fr' w' :
  pickLocation rand fr w = Returns fr' w' ->
  exists g l grp,
    g ∈ availableLocations fr /\
    l ∈ locations (groupAt w g) /\
    LocationGroup.removeLocation (groupAt w g) l = Some grp /\
    fr' = set_choice fr l (Some g) /\
    heap w' = heap w /\ game w' = game w /\
    chosenLocations w' = chosenLocations w ++ [l] /\
    cursor w' = S (S (cursor w)) /\
    locationGroups w'
    = <[g := LocationGroup.decayWeight (<[g := grp]> (locationGroups w) !!! g)]>
        (<[g := grp]> (locationGroups w)).
Proof.
  unfold pickLocation. intros H.
  apply bind_Returns in H as (total & w1 & [= <- <-] & H).
  apply bind_Returns in H as (locationChoice & w1 & Hr & H).
  apply randint_Returns in Hr as [Hchoice ->].
  apply bind_Returns in H as (sel & w1 & [= <- <-] & H).
  destruct (selectGroup_hit w (availableLocations fr) locationChoice 0 None)
    as (g & Hsel & Hg); [lia|].
  assert (Hsel' : selectGroup (set_cursor w (S (cursor w)))
                    (availableLocations fr) locationChoice 0 None
                  = (Some g, Some g))
    by (by rewrite (selectGroup_ext _ w)).
  rewrite Hsel' in H. simpl in H.
  apply bind_Returns in H as (locs & w1 & [= <- <-] & H).
  apply bind_Returns in H as (l & w1 & Hc & H).
  apply choice_Returns in Hc as [Hl ->].
  apply bind_Returns in H as ([] & w1 & Hrm & H).
  unfold removeLocation in Hrm.
  destruct (LocationGroup.removeLocation _ l) as [grp|] eqn:Hgrp; [|discriminate].
  injection Hrm as <-.
  apply bind_Returns in H as ([] & w1 & [= <-] & H).
  apply bind_Returns in H as ([] & w1 & [= <-] & H).
  injection H as <- <-.
  exists g, l, grp. by repeat split.
Qed.

(** [pickLocation] returns whenever the snapshot is not empty and each of
    its groups has a weight of at least 1 and a location left. *)
Lemma pickLocation_progress rand fr w :
  availableLocations fr <> [] ->
  (forall g, g ∈ availableLocations fr ->
     1 <= weight (groupAt w g) /\ locations (groupAt w g) <> []) ->
  exists fr' w', pickLocation rand fr w = Returns fr' w'.
Proof.
  intros Hne Hav. unfold pickLocation. rewrite gets_bind.
  destruct (randint_nonempty rand 1 (weightTotal w (availableLocations fr)) w)
    as (locationChoice & Hr & Hchoice).
  { apply weightTotal_pos; [done|]. intros g Hg. by apply Hav. }
  rewrite (bind_run _ _ _ _ _ Hr), gets_bind.
  destruct (selectGroup_hit w (availableLocations fr) locationChoice 0 None)
    as (g & Hsel & Hg); [lia|].
  rewrite (selectGroup_ext _ w), Hsel by done. simpl. rewrite gets_bind.
  destruct (choice_nonempty rand
              (LocationGroup.getLocations
                 (groupAt (set_cursor w (S (cursor w))) g))
              (set_cursor w (S (cursor w))))
    as (l & Hc & Hl); [by apply Hav|].
  rewrite (bind_run _ _ _ _ _ Hc).
  destruct (list_remove_Some l (locations (groupAt w g)) Hl) as [locs' Hrm].
  match goal with
  | |- context [(removeLocation g l ≫= ?k) ?w0] =>
      assert (Hrm' : removeLocation g l w0
                     = Returns tt
                         (set_locationGroups w0
                            (<[g := LocationGroup.set_locations (groupAt w g) locs']>
                               (locationGroups w))))
  end.
  { unfold removeLocation, LocationGroup.removeLocation.
    change (groupAt (set_cursor _ _) g) with (groupAt w g).
    by rewrite Hrm. }
  rewrite (bind_run _ _ _ _ _ Hrm'), onGroup_bind, modify_bind.
  by eexists _, _.
Qed.

Lemma undoPreviousChoice_Returns fr w :
  exists w1,
    undoPreviousChoice fr w = Returns tt w1 /\
    heap w1 = heap w /\ game w1 = game w /\
    chosenLocations w1 = chosenLocations w /\ cursor w1 = cursor w /\
    (locationGroup fr = None -> w1 = w) /\
    (forall g l, locationGroup fr = Some g -> location fr = Some l ->
       (g < length (locationGroups w))%nat ->
       locationGroups w1
       = <[g := LocationGroup.undoWeightDecay
                  (LocationGroup.addLocation (groupAt w g) l)]>
           (locationGroups w)).
Proof.
  unfold undoPreviousChoice.
  destruct (locationGroup fr) as [g|]; [destruct (location fr) as [l|]|].
  - rewrite onGroup_bind. eexists. split; [reflexivity|].
    repeat split; try done.
    intros g' l' [= <-] [= <-] Hg. simpl. unfold groupAt at 1. simpl.
    by rewrite list_lookup_total_insert_eq, list_insert_insert_eq
      by (by rewrite ?length_insert).
  - exists w. by repeat split.
  - exists w. by repeat split.
Qed.

Lemma pruneKeyItems_run fr w :
  pruneKeyItems fr w
  = Returns (if decide (Game.getKeyItemCount (game w) = 10%nat)
             then rebind_remainingKeyItems fr (collapse (remainingKeyItems fr))
             else fr) w.
Proof. unfold pruneKeyItems. rewrite gets_bind. by case_decide. Qed.

(** What [chooseKeyItem] does when it returns. *)
Lemma chooseKeyItem_Returns rand fr w fr' w' :
  chooseKeyItem rand fr w = Returns fr' w' ->
  exists k l,
    k ∈ remainingKeyItems fr /\ location fr = Some l /\
    fr' = set_keyItemTemp
            (set_remainingKeyItems fr
               (filter (fun x => x ≠ k) (remainingKeyItems fr)
                ++ match keyItemTemp fr with Some kt => [kt] | None => [] end))
            k /\
    heap w' = <[l := Location.setKeyItem (locationAt w l) k]> (heap w) /\
    locationGroups w' = locationGroups w /\
    chosenLocations w' = chosenLocations w /\
    cursor w' = S (cursor w) /\
    game w' = match keyItemTemp fr with
              | Some kt => Game.removeKeyItem (Game.addKeyItem (game w) k) kt
              | None => Game.addKeyItem (game w) k
              end.
Proof.
  unfold chooseKeyItem. intros H.
  apply bind_Returns in H as (k & w1 & Hc & H).
  apply choice_Returns in Hc as [Hk ->]. simpl in H.
  destruct (location fr) as [l|] eqn:Hl; [|discriminate].
  rewrite onLocation_bind, onGame_bind in H.
  exists k, l. split; [done|]. split; [done|].
  destruct (keyItemTemp fr) as [kt|] eqn:Hkt.
  - apply bind_Returns in H as (fr1 & w1 & H1 & H).
    rewrite onGame_bind in H1. injection H1 as <- <-. injection H as <- <-.
    by repeat split.
  - apply bind_Returns in H as (fr1 & w1 & [= <- <-] & H). injection H as <- <-.
    rewrite app_nil_r. by repeat split.
Qed.

(** [chooseKeyItem] returns whenever there is a key item left and a
    location was chosen. *)
Lemma chooseKeyItem_progress rand fr w :
  remainingKeyItems fr <> [] -> is_Some (location fr) ->
  exists fr' w', chooseKeyItem rand fr w = Returns fr' w'.
Proof.
  intros Hne [l Hl]. unfold chooseKeyItem.
  destruct (choice_nonempty rand (remainingKeyItems fr) w Hne) as (k & Hc & _).
  rewrite (bind_run _ _ _ _ _ Hc). simpl. rewrite Hl.
  rewrite onLocation_bind, onGame_bind.
  destruct (keyItemTemp fr); by eexists _, _.
Qed.

(** ** The collapse of the pool *)

Lemma collapse_from (acc pool : list KeyItems) :
  NoDup acc ->
  let r := foldl (fun newList key =>
                    if decide (key ∈ newList) then newList
                    else newList ++ [key]) acc pool in
  NoDup r /\ forall k, k ∈ r <-> k ∈ acc \/ k ∈ pool.
Proof.
  revert acc. induction pool as [|x pool IH]; intros acc Hacc; simpl.
  - split; [done|]. intros k. rewrite elem_of_nil. tauto.
  - case_decide as Hx.
    + destruct (IH acc Hacc) as [Hnd Hin]. split; [done|].
      intros k. rewrite Hin, elem_of_cons. split; [tauto|].
      intros [?|[->|?]]; tauto.
    + destruct (IH (acc ++ [x])) as [Hnd Hin].
      { apply NoDup_app. split; [done|]. split; [|apply NoDup_singleton].
        intros y Hy Hy'. apply list_elem_of_singleton in Hy' as ->. done. }
      split; [done|]. intros k.
      rewrite Hin, elem_of_app, list_elem_of_singleton, elem_of_cons. tauto.
Qed.


Lemma elem_of_collapse pool k : k ∈ collapse pool <-> k ∈ pool.
Proof.
  destruct (collapse_from [] pool) as [_ H]; [constructor|].
  unfold collapse. rewrite H, elem_of_nil. tauto.
Qed.


(** ** Key items as a finite type *)

Lemma elem_of_KeyItems_members k : k ∈ KeyItems_members.
Proof. destruct k; unfold KeyItems_members; repeat constructor. Qed.

Lemma size_keyItems_le (X : gset KeyItems) : (size X <= 15)%nat.
Proof.
  change 15%nat with (length KeyItems_members).
  rewrite <- (size_list_to_set (C := gset KeyItems) KeyItems_members).
  - apply subseteq_size. intros k _. apply elem_of_list_to_set.
    apply elem_of_KeyItems_members.
  - by apply (bool_decide_unpack _).
Qed.

Lemma distinct_le pool : (distinct pool <= 15)%nat.
Proof. apply size_keyItems_le. Qed.

(** ** The pool across the passes of one loop *)

(** The frame after a pass: a key item of the pool was chosen, all its
    tokens are gone, and the previous choice, if any, is back with one
    token. *)
Lemma tryPlacement_pool rand fr w fr' w' :
  tryPlacement rand fr w = Returns fr' w' ->
  exists k base,
    (base = remainingKeyItems fr \/ base = collapse (remainingKeyItems fr)) /\
    k ∈ base /\
    keyItemTemp fr' = Some k /\
    remainingKeyItems fr'
    = filter (fun x => x ≠ k) base
      ++ match keyItemTemp fr with Some kt => [kt] | None => [] end.
Proof.
  unfold tryPlacement, chooseLocation. intros H.
  apply bind_Returns in H as (fr1 & w1 & H1 & H).
  apply bind_Returns in H1 as ([] & w0 & _ & H1).
  apply pickLocation_Returns in H1 as (g & l & grp & _ & _ & _ & -> & _).
  apply bind_Returns in H as (fr2 & w2 & H2 & H).
  rewrite pruneKeyItems_run in H2. injection H2 as <- <-.
  apply chooseKeyItem_Returns in H as (k & l' & Hk & _ & -> & _).
  exists k. case_decide; simpl in *; eexists; (split; [|split; [exact Hk|done]]);
    auto.
Qed.

Lemma list_to_set_collapse pool :
  list_to_set (C := gset KeyItems) (collapse pool) = list_to_set pool.
Proof.
  apply set_eq. intros k. by rewrite !elem_of_list_to_set, elem_of_collapse.
Qed.

Lemma tryPlacement_poolOf rand S0 fr w fr' w' :
  poolOf S0 fr ->
  tryPlacement rand fr w = Returns fr' w' ->
  poolOf S0 fr' /\ S (distinct (remainingKeyItems fr')) = size S0.
Proof.
  intros Hinv H.
  apply tryPlacement_pool in H as (k & base & Hbase & Hk & Hkt & Hrem).
  assert (Hset : list_to_set (C := gset KeyItems) base
                 = list_to_set (remainingKeyItems fr)).
  { destruct Hbase as [->| ->]; [done|apply list_to_set_collapse]. }
  assert (Hk' : k ∈ list_to_set (C := gset KeyItems) (remainingKeyItems fr)).
  { rewrite <- Hset. by apply elem_of_list_to_set. }
  assert (Hfil : list_to_set (C := gset KeyItems) (filter (fun x => x ≠ k) base)
                 = list_to_set (remainingKeyItems fr) ∖ {[k]}).
  { rewrite <- Hset. apply set_eq. intros x.
    rewrite elem_of_difference, !elem_of_list_to_set, list_elem_of_filter,
      elem_of_singleton. tauto. }
  assert (Hnew : k ∈ S0 /\
                 list_to_set (C := gset KeyItems) (remainingKeyItems fr')
                 = S0 ∖ {[k]}).
  { rewrite Hrem, list_to_set_app_L, Hfil. unfold poolOf in Hinv.
    destruct (keyItemTemp fr) as [kt|].
    - destruct Hinv as [Hkt0 Hpool]. rewrite Hpool in Hk' |- *.
      apply elem_of_difference in Hk' as [Hk0 Hne].
      rewrite elem_of_singleton in Hne.
      split; [done|]. apply set_eq. intros x.
      rewrite elem_of_union, !elem_of_difference, elem_of_list_to_set,
        list_elem_of_singleton, !elem_of_singleton.
      split; [intros [[[? ?] ?]| ->]; auto|].
      intros [? ?]. destruct (decide (x = kt)); auto.
    - rewrite Hinv in Hk' |- *. split; [done|].
      simpl. by rewrite (right_id_L ∅ (∪)). }
  split.
  - unfold poolOf. by rewrite Hkt.
  - unfold distinct. destruct Hnew as [Hk0 ->].
    rewrite size_difference by (by apply singleton_subseteq_l).
    rewrite size_singleton.
    assert (size S0 ≠ 0%nat); [|lia].
    intros E. apply size_empty_inv in E.
    apply (not_elem_of_empty (C := gset KeyItems) k). by apply E.
Qed.

(** ** Success and failure of a call *)

(** The loop never reports a failure: it returns only once a recursive call
    has succeeded. *)
Lemma placementLoop_success rand recurse iterations fr w r w' :
  placementLoop rand recurse iterations fr w = Returns r w' ->
  success r = true /\ placement r = chosenLocations w'.
Proof.
  revert fr w. induction iterations as [|n IH]; intros fr w; [discriminate|].
  simpl. destruct (keyItemConfirmed fr).
  - intros [= <- <-]. done.
  - intros H. apply bind_Returns in H as (fr1 & w1 & _ & H).
    apply bind_Returns in H as (r1 & w2 & _ & H). by apply IH in H.
Qed.

Lemma getAvailableLocations_run w :
  exists avail w1,
    getAvailableLocations w = Returns avail w1 /\
    w1 = set_game w (Game.updateAvailableCharacters (game w)) /\
    avail = filter (fun g =>
                      LocationGroup.canAccess (groupAt w1 g) (game w1) = true
                      /\ (0 < LocationGroup.getAvailableLocationCount
                                (groupAt w1 g))%nat)
                   (seq 0 (length (locationGroups w1))).
Proof. by eexists _, _. Qed.

(** A call that reports a failure has found no accessible group on entry:
    it changed nothing but the characters of the game, and it returns the
    list of chosen locations and the pool as they were passed. *)
Lemma impl_failure rand depth iterations pool w r w' :
  determineKeyItemPlacement_impl rand depth iterations pool w = Returns r w' ->
  success r = false ->
  keyItemsLeft r = pool /\ placement r = chosenLocations w /\
  w' = set_game w (Game.updateAvailableCharacters (game w)) /\
  getAvailableLocations w = Returns [] w'.
Proof.
  destruct depth as [|d]; [discriminate|]. simpl.
  case_decide as Hlen; [by intros [= <- <-]|].
  intros H Hs. apply bind_Returns in H as (avail & w1 & Hav & H).
  case_decide as Hav0.
  - injection H as <- <-. apply nil_length_inv in Hav0. subst avail.
    destruct (getAvailableLocations_run w) as (a & w2 & Hrun & -> & _).
    rewrite Hrun in Hav. injection Hav as -> <-. by rewrite Hrun.
  - apply placementLoop_success in H as [H _]. congruence.
Qed.

Lemma impl_failsClean rand depth iterations :
  failsClean (determineKeyItemPlacement_impl rand depth iterations).
Proof. intros pool w r w' H Hs. by apply impl_failure in H as [? _]. Qed.

(** ** The depth of the recursion *)

(** Every recursive call of the loop is made on a pool with one distinct
    key item less than the pool the call was entered with: the loop runs the
    same with a callee that refuses every other pool. *)
Lemma placementLoop_onlySmaller rand recurse iterations S0 fr w :
  failsClean recurse ->
  poolOf S0 fr ->
  placementLoop rand recurse iterations fr w
  = placementLoop rand (onlySmaller (size S0) recurse) iterations fr w.
Proof.
  intros Hclean. revert fr w.
  induction iterations as [|n IH]; intros fr w Hinv; [done|].
  simpl. destruct (keyItemConfirmed fr) eqn:Hconf; [done|].
  unfold mbind, M_bind, bind.
  destruct (tryPlacement rand fr w) as [fr1 w1| | |] eqn:Htry; try done.
  destruct (tryPlacement_poolOf _ _ _ _ _ _ Hinv Htry) as [Hinv1 Hsize].
  unfold onlySmaller at 1. rewrite decide_True by lia.
  destruct (recurse (remainingKeyItems fr1) w1) as [r w2| | |] eqn:Hrec;
    try done.
  destruct (success r) eqn:Hs.
  - destruct n; [done|]. done.
  - apply IH. rewrite (Hclean _ _ _ _ Hrec Hs).
    unfold poolOf, set_result in *; simpl. exact Hinv1.
Qed.

Lemma placementLoop_depth rand recurse iterations S0 fr w :
  failsClean recurse ->
  (forall pool w, (distinct pool < size S0)%nat -> recurse pool w <> OutOfDepth) ->
  poolOf S0 fr ->
  placementLoop rand recurse iterations fr w <> OutOfDepth.
Proof.
  intros Hclean Hrec. revert fr w.
  induction iterations as [|n IH]; intros fr w Hinv; [done|].
  simpl. destruct (keyItemConfirmed fr) eqn:Hconf; [done|].
  unfold mbind, M_bind, bind.
  destruct (tryPlacement rand fr w) as [fr1 w1| | |] eqn:Htry; try done.
  - destruct (tryPlacement_poolOf _ _ _ _ _ _ Hinv Htry) as [Hinv1 Hsize].
    destruct (recurse (remainingKeyItems fr1) w1) as [r w2| | |] eqn:Hr;
      try done.
    + destruct (success r) eqn:Hs.
      * destruct n; done.
      * apply IH. rewrite (Hclean _ _ _ _ Hr Hs).
        unfold poolOf, set_result in *; simpl. exact Hinv1.
    + exfalso. apply (Hrec (remainingKeyItems fr1) w1); [lia|done].
  - by destruct (straight_tryPlacement rand fr w) as [[] _].
Qed.

Lemma poolOf_newFrame avail pool : poolOf (list_to_set pool) (newFrame avail pool).
Proof. reflexivity. Qed.

Lemma impl_depth rand depth iterations pool w :
  (distinct pool < depth)%nat ->
  determineKeyItemPlacement_impl rand depth iterations pool w <> OutOfDepth.
Proof.
  revert pool w. induction depth as [|d IH]; intros pool w Hd; [lia|].
  simpl. case_decide; [done|].
  unfold mbind, M_bind, bind.
  destruct (getAvailableLocations w) as [avail w1| | |] eqn:Hav; try done.
  case_decide; [done|].
  apply (placementLoop_depth _ _ _ (list_to_set pool)).
  - apply impl_failsClean.
  - intros pool' w' Hlt. apply IH. unfold distinct in Hd. lia.
  - apply poolOf_newFrame.
Qed.

(** C9: a call of [determineKeyItemPlacement_impl] on a pool with fewer
    distinct key items than the allowed nesting never runs into the bound on
    nested calls (so a pool, which has at most 15 distinct key items, never
    nests more than 15 calls below the first one, whatever the registry, the
    draws and the number of retries), because every recursive call made by
    the loop of a call is made on a pool with strictly fewer distinct key
    items than the pool that call was entered with. *)
Theorem recursion_depth_bounded rand depth iterations pool w :
  (distinct pool < depth)%nat ->
  (distinct pool <= 15)%nat /\
  determineKeyItemPlacement_impl rand depth iterations pool w <> OutOfDepth /\
  (forall d avail w1,
     placementLoop rand (determineKeyItemPlacement_impl rand d iterations)
       iterations (newFrame avail pool) w1
     = placementLoop rand
         (onlySmaller (distinct pool)
            (determineKeyItemPlacement_impl rand d iterations))
         iterations (newFrame avail pool) w1).
Proof.
  intros Hd. split; [apply distinct_le|]. split; [by apply impl_depth|].
  intros d avail w1. apply placementLoop_onlySmaller.
  - apply impl_failsClean.
  - apply poolOf_newFrame.
Qed.

(** ** The collapse at ten key items *)

(** A duplicate-free pool that holds exactly the key items not yet in the
    game holds as many tokens as there are key items missing from the
    game. *)
Lemma unplaced_count (pool : list KeyItems) (X : gset KeyItems) :
  NoDup pool ->
  (forall k, k ∈ pool <-> k ∉ X) ->
  (length pool + size X = 15)%nat.
Proof.
  intros Hnd Hin.
  rewrite <- (size_list_to_set (C := gset KeyItems) pool Hnd).
  rewrite <- size_union.
  - replace (list_to_set pool ∪ X) with
      (list_to_set (C := gset KeyItems) KeyItems_members).
    + by rewrite size_list_to_set by (by apply (bool_decide_unpack _)).
    + apply set_eq. intros k.
      rewrite elem_of_union, !elem_of_list_to_set, Hin.
      split; [intros _; destruct (decide (k ∈ X)); auto|].
      intros _. apply elem_of_KeyItems_members.
  - intros k Hk HX. apply elem_of_list_to_set, Hin in Hk. done.
Qed.


(** ** Runs without a retry *)

Lemma keyItems_updateAvailableCharacters g :
  keyItems (Game.updateAvailableCharacters g) = keyItems g.
Proof.
  unfold Game.updateAvailableCharacters.
  repeat match goal with |- context [if ?b then _ else _] => destruct b end;
    reflexivity.
Qed.

Lemma locations_decayWeight g :
  locations (LocationGroup.decayWeight g) = locations g.
Proof. unfold LocationGroup.decayWeight. simpl. by destruct (weightDecay g). Qed.

Lemma accessRule_decayWeight g :
  accessRule (LocationGroup.decayWeight g) = accessRule g.
Proof. unfold LocationGroup.decayWeight. simpl. by destruct (weightDecay g). Qed.

Lemma removeLocation_Some g l grp :
  LocationGroup.removeLocation g l = Some grp ->
  locations g ≡ₚ l :: locations grp /\ accessRule grp = accessRule g.
Proof.
  unfold LocationGroup.removeLocation.
  destruct (list_remove l (locations g)) as [locs|] eqn:E; [|discriminate].
  intros [= <-]. split; [|done]. by apply list_remove_Permutation.
Qed.

(** Replacing a group by one that has lost the location [l]. *)
Lemma concat_locations_insert (gs : list LocationGroup) i g0 g' l :
  gs !! i = Some g0 ->
  locations g0 ≡ₚ l :: locations g' ->
  concat (locations <$> gs) ≡ₚ l :: concat (locations <$> <[i := g']> gs).
Proof.
  intros Hi Hperm.
  rewrite <- (take_drop_middle gs i g0 Hi) at 1.
  rewrite insert_take_drop by (by eapply lookup_lt_Some).
  rewrite !fmap_app, !fmap_cons, !concat_app, !concat_cons, Hperm. simpl.
  symmetry. apply Permutation_middle.
Qed.

Lemma elem_of_concat {A} (x : A) (ls : list (list A)) :
  x ∈ concat ls <-> exists l, l ∈ ls /\ x ∈ l.
Proof.
  rewrite list_elem_of_In, in_concat. split.
  - intros (l & Hl & Hx). exists l. by rewrite !list_elem_of_In.
  - intros (l & Hl & Hx). exists l. by rewrite <- !list_elem_of_In.
Qed.

Lemma elem_of_insert_inv {A} (l : list A) i x y :
  y ∈ <[i := x]> l -> y = x \/ y ∈ l.
Proof.
  intros Hy. apply list_elem_of_lookup in Hy as [j Hj].
  destruct (decide (i = j)) as [->|Hne].
  - destruct (decide (j < length l)%nat) as [Hlt|Hge].
    + rewrite list_lookup_insert_eq in Hj by done. left. congruence.
    + rewrite list_insert_ge in Hj by lia. right.
      by eapply list_elem_of_lookup_2.
  - rewrite list_lookup_insert_ne in Hj by done. right.
    by eapply list_elem_of_lookup_2.
Qed.

Lemma groupAt_lookup w g :
  (g < length (locationGroups w))%nat ->
  locationGroups w !! g = Some (groupAt w g).
Proof. intros Hg. unfold groupAt. by apply list_lookup_lookup_total_lt. Qed.

Lemma groupAt_elem_of w g :
  (g < length (locationGroups w))%nat -> groupAt w g ∈ locationGroups w.
Proof. intros Hg. eapply list_elem_of_lookup_2, groupAt_lookup, Hg. Qed.

Lemma Consistent_chosen_size w pool :
  Consistent w pool ->
  length (chosenLocations w) = size (keyItems (game w)).
Proof.
  intros [_ _ _ _ (ks & Hnd & Hmap & Hset) _].
  rewrite Hset, size_list_to_set by done.
  rewrite <- (length_fmap (fun l => keyItem (locationAt w l))), Hmap.
  by rewrite length_fmap.
Qed.

Lemma Consistent_room w pool :
  Consistent w pool -> pool <> [] -> (size (keyItems (game w)) < 15)%nat.
Proof.
  intros Hc Hne. destruct pool as [|k pool]; [done|].
  assert (Hk : k ∉ keyItems (game w)) by (apply Hc; constructor).
  pose proof (size_keyItems_le (keyItems (game w) ∪ {[k]})) as Hle.
  rewrite size_union, size_singleton in Hle; [lia|].
  intros x Hx Hx'. apply elem_of_singleton in Hx' as ->. done.
Qed.

(** The first pass of a call entered in a consistent state returns, in a
    consistent state with one more key item in the game. *)
Lemma tryPlacement_Consistent rand avail pool w :
  Consistent w pool -> pool <> [] -> avail <> [] ->
  (forall g, g ∈ avail ->
     (g < length (locationGroups w))%nat /\ locations (groupAt w g) <> []) ->
  exists fr' w',
    tryPlacement rand (newFrame avail pool) w = Returns fr' w' /\
    Consistent w' (remainingKeyItems fr') /\
    size (keyItems (game w')) = S (size (keyItems (game w))).
Proof.
  intros Hc Hpool Havail Hav.
  unfold tryPlacement, chooseLocation.
  change (undoPreviousChoice (newFrame avail pool)) with (mret (M := M) tt).
  destruct (pickLocation_progress rand (newFrame avail pool) w Havail)
    as (fr1 & w1 & Hpick).
  { intros g Hg. destruct (Hav g Hg) as [Hlt Hlocs]. split; [|done].
    apply Hc. by apply groupAt_elem_of. }
  assert (Hpick' : (mret tt ≫= fun _ => pickLocation rand (newFrame avail pool)) w
                   = Returns fr1 w1) by exact Hpick.
  rewrite (bind_run _ _ _ _ _ Hpick').
  apply pickLocation_Returns in Hpick
    as (g & l & grp & Hg & Hl & Hrm & -> & Hheap1 & Hgame1 & Hchosen1 & _ & Hgroups1).
  destruct (Hav g Hg) as [Hlt _].
  rewrite list_lookup_total_insert_eq, list_insert_insert_eq in Hgroups1
    by (by rewrite ?length_insert).
  apply removeLocation_Some in Hrm as [Hperm Hrule].
  cbv beta. rewrite (bind_run _ _ _ _ _ (pruneKeyItems_run _ _)).
  set (fr2 := if decide (Game.getKeyItemCount (game w1) = 10%nat) then _ else _).
  assert (Hloc2 : location fr2 = Some l) by (subst fr2; by case_decide).
  assert (Htemp2 : keyItemTemp fr2 = None) by (subst fr2; by case_decide).
  assert (Hrem2 : forall k, k ∈ remainingKeyItems fr2 <-> k ∈ pool).
  { intros k. subst fr2. case_decide; simpl; [apply elem_of_collapse|done]. }
  destruct (chooseKeyItem_progress rand fr2 w1) as (fr3 & w3 & Hkey).
  { destruct pool as [|k0 pool']; [done|]. intros Hnil.
    assert (Hk0 : k0 ∈ remainingKeyItems fr2) by (apply Hrem2; constructor).
    rewrite Hnil in Hk0. by apply elem_of_nil in Hk0. }
  { by rewrite Hloc2. }
  exists fr3, w3. split; [exact Hkey|].
  apply chooseKeyItem_Returns in Hkey
    as (k & l' & Hk & Hl' & -> & Hheap3 & Hgroups3 & Hchosen3 & _ & Hgame3).
  rewrite Hloc2 in Hl'. injection Hl' as <-.
  rewrite Htemp2 in Hgame3 |- *. simpl. rewrite app_nil_r.
  apply Hrem2 in Hk.
  assert (Hknew : k ∉ keyItems (game w)) by (by apply Hc).
  assert (Hlgroups : l ∈ concat (locations <$> locationGroups w)).
  { apply elem_of_concat. exists (locations (groupAt w g)). split; [|done].
    apply list_elem_of_fmap. exists (groupAt w g).
    split; [done|]. by apply groupAt_elem_of. }
  assert (Hlheap : (l < length (heap w))%nat).
  { apply Hc. apply elem_of_app. by right. }
  assert (Hlchosen : l ∉ chosenLocations w).
  { destruct Hc as [_ Hnd _ _ _ _]. apply NoDup_app in Hnd as (_ & Hdisj & _).
    intros Hin. by apply (Hdisj l). }
  assert (Hpermall :
            chosenLocations w3 ++ concat (locations <$> locationGroups w3)
            ≡ₚ chosenLocations w ++ concat (locations <$> locationGroups w)).
  { rewrite Hchosen3, Hchosen1, Hgroups3, Hgroups1.
    rewrite (concat_locations_insert (locationGroups w) g (groupAt w g)
               (LocationGroup.decayWeight grp) l);
      [|by apply groupAt_lookup|by rewrite locations_decayWeight].
    rewrite <- app_assoc. done. }
  split; [|rewrite Hgame3; simpl;
           rewrite size_union, size_singleton, Hgame1; [lia|];
           intros x Hx Hx'; apply elem_of_singleton in Hx' as ->;
           by rewrite Hgame1 in Hx].
  split.
  - intros l0 Hl0. rewrite Hheap3, length_insert, Hheap1.
    apply Hc. by rewrite <- Hpermall.
  - rewrite Hpermall. apply Hc.
  - rewrite Hgroups3, Hgroups1. intros g0 Hg0.
    apply elem_of_insert_inv in Hg0 as [->|Hg0]; [apply decayWeight_floor|].
    by apply Hc.
  - destruct Hc as [_ _ _ (i & gi & Hi & Hopen & Hsize) _ _].
    rewrite Hgroups3, Hgroups1, Hchosen3, Hchosen1, length_app. simpl.
    destruct (decide (i = g)) as [->|Hne].
    + exists g, (LocationGroup.decayWeight grp).
      rewrite list_lookup_insert_eq by done. split; [done|].
      rewrite accessRule_decayWeight, Hrule, locations_decayWeight.
      rewrite groupAt_lookup in Hi by done. injection Hi as <-.
      split; [done|]. rewrite Hperm in Hsize. simpl in Hsize. lia.
    + exists i, gi. rewrite list_lookup_insert_ne by done.
      split; [done|]. split; [done|]. lia.
  - destruct Hc as [_ _ _ _ (ks & Hnd & Hmap & Hset) _].
    exists (ks ++ [k]). split; [|split].
    + apply NoDup_app. split; [done|]. split; [|apply NoDup_singleton].
      intros x Hx Hx'. apply list_elem_of_singleton in Hx' as ->.
      apply Hknew. rewrite Hset. by apply elem_of_list_to_set.
    + rewrite Hchosen3, Hchosen1, !fmap_app. f_equal.
      * rewrite <- Hmap. apply list_fmap_ext. intros j l0 Hl0.
        unfold locationAt. rewrite Hheap3, Hheap1.
        rewrite list_lookup_total_insert_ne; [done|].
        intros <-. apply Hlchosen. by eapply list_elem_of_lookup_2.
      * simpl. unfold locationAt at 1. rewrite Hheap3, Hheap1.
        by rewrite list_lookup_total_insert_eq by done.
    + rewrite Hgame3, Hgame1. simpl. rewrite Hset.
      by rewrite list_to_set_app_L, list_to_set_singleton_L.
  - intros k0. rewrite Hgame3, Hgame1. simpl.
    rewrite list_elem_of_filter, Hrem2, not_elem_of_union, elem_of_singleton.
    rewrite (consistent_pool _ _ Hc k0). tauto.
Qed.

(** The snapshot of a consistent state with a key item left to place is
    not empty, and each of its groups has a location left. *)
Lemma getAvailableLocations_Consistent w pool :
  Consistent w pool -> pool <> [] ->
  exists avail w1,
    getAvailableLocations w = Returns avail w1 /\
    Consistent w1 pool /\
    keyItems (game w1) = keyItems (game w) /\
    avail <> [] /\
    forall g, g ∈ avail ->
      (g < length (locationGroups w1))%nat /\ locations (groupAt w1 g) <> [].
Proof.
  intros Hc Hpool.
  destruct (getAvailableLocations_run w) as (avail & w1 & Hrun & Hw1 & Havail).
  exists avail, w1. split; [done|].
  assert (Hkeys : keyItems (game w1) = keyItems (game w)).
  { subst w1. cbn [game set_game]. apply keyItems_updateAvailableCharacters. }
  assert (Hc1 : Consistent w1 pool).
  { destruct Hc as [H1 H2 H3 H4 H5 H6]. rewrite Hw1.
    split; unfold locationAt;
      cbn [game set_game heap locationGroups chosenLocations].
    - exact H1.
    - exact H2.
    - exact H3.
    - exact H4.
    - destruct H5 as (ks & ? & ? & ?). exists ks.
      by rewrite keyItems_updateAvailableCharacters.
    - intros k. by rewrite keyItems_updateAvailableCharacters. }
  split; [done|]. split; [done|]. split.
  - pose proof (Consistent_room _ _ Hc1 Hpool) as Hroom.
    rewrite <- (Consistent_chosen_size _ _ Hc1) in Hroom.
    destruct Hc1 as [_ _ _ (i & gi & Hi & Hopen & Hsize) _ _].
    assert (Hin : i ∈ avail); [|intros Hnil; rewrite Hnil in Hin;
                                 by apply elem_of_nil in Hin].
    rewrite Havail. apply list_elem_of_filter.
    assert (Hgi : groupAt w1 i = gi).
    { unfold groupAt. by apply list_lookup_total_correct. }
    rewrite Hgi. split.
    + split; [apply Hopen|].
      unfold LocationGroup.getAvailableLocationCount. lia.
    + apply elem_of_seq. split; [lia|]. simpl. by eapply lookup_lt_Some.
  - intros g Hg. rewrite Havail in Hg.
    apply list_elem_of_filter in Hg as [[_ Hcount] Hseq].
    apply elem_of_seq in Hseq. split; [lia|].
    unfold LocationGroup.getAvailableLocationCount in Hcount.
    intros Hnil. rewrite Hnil in Hcount. simpl in Hcount. lia.
Qed.

(** A call entered in a consistent state: it succeeds, in a consistent state
    with an empty pool, unless it is cut short by one of the two bounds;
    two iterations per loop and one level of nesting per key item still to
    place (and one more) are enough. *)
Lemma impl_Consistent rand depth iterations pool w :
  Consistent w pool ->
  match determineKeyItemPlacement_impl rand depth iterations pool w with
  | Returns r w' =>
      success r = true /\ placement r = chosenLocations w' /\ Consistent w' []
  | Raises _ => False
  | OutOfIterations => (iterations < 2)%nat
  | OutOfDepth => (depth + size (keyItems (game w)) <= 15)%nat
  end.
Proof.
  revert pool w. induction depth as [|d IH]; intros pool w Hc.
  { simpl. apply size_keyItems_le. }
  simpl. case_decide as Hlen.
  { apply nil_length_inv in Hlen. subst pool. by simpl. }
  assert (Hpool : pool <> []) by (by destruct pool).
  destruct (getAvailableLocations_Consistent w pool Hc Hpool)
    as (avail & w1 & Hrun & Hc1 & Hkeys & Havail & Hav).
  rewrite (bind_run _ _ _ _ _ Hrun).
  rewrite decide_False by (by destruct avail).
  destruct iterations as [|n]; [simpl; lia|].
  simpl.
  destruct (tryPlacement_Consistent rand avail pool w1 Hc1 Hpool Havail Hav)
    as (fr1 & w2 & Htry & Hc2 & Hsize).
  rewrite (bind_run _ _ _ _ _ Htry).
  specialize (IH (remainingKeyItems fr1) w2 Hc2).
  unfold mbind at 1, M_bind, bind.
  destruct (determineKeyItemPlacement_impl rand d (S n) (remainingKeyItems fr1) w2)
    as [r w3| | |]; try done.
  - destruct IH as (Hs & Hpl & Hc3). destruct n as [|n]; [simpl; lia|].
    simpl. by rewrite Hs.
  - rewrite Hsize, Hkeys in IH. lia.
Qed.

(** ** The final state *)

Lemma Consistent_Bijective w :
  Consistent w [] -> Bijective w (chosenLocations w).
Proof.
  intros Hc.
  assert (Hall : forall k, k ∈ keyItems (game w)).
  { intros k. destruct (decide (k ∈ keyItems (game w))) as [|Hk]; [done|].
    apply (consistent_pool _ _ Hc) in Hk. by apply elem_of_nil in Hk. }
  pose proof (Consistent_chosen_size _ _ Hc) as Hlen.
  destruct Hc as [_ Hnd _ _ (ks & Hks & Hmap & Hset) _].
  assert (Hsize : size (keyItems (game w)) = 15%nat).
  { pose proof (unplaced_count [] (keyItems (game w))) as H. simpl in H.
    apply H; [constructor|]. intros k. rewrite elem_of_nil. split; [done|].
    intros Hk. by apply Hk. }
  assert (Hat : forall i l, chosenLocations w !! i = Some l ->
                  exists k, ks !! i = Some k /\ keyItem (locationAt w l) = Some k).
  { intros i l Hi.
    assert (Hi' : ((fun l => keyItem (locationAt w l)) <$> chosenLocations w) !! i
                  = Some (keyItem (locationAt w l)))
      by (by rewrite list_lookup_fmap, Hi).
    rewrite Hmap, list_lookup_fmap in Hi'.
    destruct (ks !! i) as [k|]; [|discriminate]. exists k. split; [done|].
    simpl in Hi'. congruence. }
  split.
  - lia.
  - by apply NoDup_app in Hnd as [? _].
  - intros l Hl. apply list_elem_of_lookup in Hl as [i Hi].
    destruct (Hat i l Hi) as (k & _ & ->). by eexists.
  - intros k.
    assert (Hk : k ∈ ks).
    { apply (elem_of_list_to_set (C := gset KeyItems)). rewrite <- Hset.
      apply Hall. }
    apply list_elem_of_lookup in Hk as [i Hi].
    assert (Hi' : is_Some (chosenLocations w !! i)).
    { apply lookup_lt_is_Some. apply lookup_lt_Some in Hi.
      rewrite <- (length_fmap (fun l => keyItem (locationAt w l))), Hmap,
        length_fmap. done. }
    destruct Hi' as [l Hl]. exists l.
    destruct (Hat i l Hl) as (k' & Hk' & Hkey).
    assert (k' = k) by congruence. subst k'.
    split; [by eapply list_elem_of_lookup_2|]. split; [done|].
    intros l' Hl' Hkey'. apply list_elem_of_lookup in Hl' as [j Hj].
    destruct (Hat j l' Hj) as (k' & Hk'' & Hkey'').
    assert (k' = k) by congruence. subst k'.
    assert (j = i) by (eapply NoDup_lookup; eauto). subst j. congruence.
  - intros l g Hl Hg Hlg.
    apply NoDup_app in Hnd as (_ & Hdisj & _). apply (Hdisj l Hl).
    apply elem_of_concat. exists (locations g). split; [|done].
    apply list_elem_of_fmap. by exists g.
Qed.

(** ** The registry of [initLocationGroups] *)

Lemma initLocationGroups_WellFormed : WellFormed initLocationGroups.
Proof.
  split.
  - apply (bool_decide_unpack _). vm_compute. exact I.
  - apply (bool_decide_unpack _). vm_compute. exact I.
  - apply (bool_decide_unpack _). vm_compute. exact I.
  - exists 13%nat, (initLocationGroups.2 !!! 13%nat). split; [|split].
    + apply list_lookup_lookup_total_lt. vm_compute. lia.
    + intros game. vm_compute. reflexivity.
    + vm_compute. lia.
Qed.

Lemma initialWorld_Consistent registry game pool :
  WellFormed registry ->
  keyItems game = ∅ ->
  (forall k, k ∈ pool) ->
  Consistent (initialWorld registry game) pool.
Proof.
  intros [Hrefs Hnd Hw Hopen] Hkeys Hpool. split; simpl.
  - intros l Hl. by apply (proj1 (Forall_forall _ _) Hrefs).
  - done.
  - intros g Hg. by apply (proj1 (Forall_forall _ _) Hw).
  - destruct Hopen as (i & g & Hi & Hrule & Hlen). exists i, g.
    split; [done|]. split; [done|]. lia.
  - exists []. split; [constructor|]. by rewrite Hkeys.
  - intros k. rewrite Hkeys. split; [intros _; apply not_elem_of_empty|auto].
Qed.

Lemma tokens_pos_elem_of k pool : (0 < tokens k pool)%nat -> k ∈ pool.
Proof.
  unfold tokens. intros Hpos.
  destruct (filter (fun x => x = k) pool) as [|x l] eqn:E; [simpl in Hpos; lia|].
  assert (Hx : x ∈ filter (fun x => x = k) pool) by (rewrite E; constructor).
  apply list_elem_of_filter in Hx as [-> Hx]. done.
Qed.

Lemma determineKeyItemPlacement_Consistent rand depth iterations charlocs
    lockedChars earlyPendant :
  match determineKeyItemPlacement rand depth iterations charlocs lockedChars
          earlyPendant with
  | Returns r w =>
      success r = true /\ placement r = chosenLocations w /\ Consistent w []
  | Raises _ => False
  | OutOfIterations => (iterations < 2)%nat
  | OutOfDepth => (depth <= 15)%nat
  end.
Proof.
  unfold determineKeyItemPlacement.
  destruct getInitialKeyItems_tokens as (pool & -> & _ & Htok).
  match goal with
  | |- context [determineKeyItemPlacement_impl _ _ _ _ ?w0] =>
      pose proof (impl_Consistent rand depth iterations pool w0) as H
  end.
  match type of H with
  | ?P -> _ => assert (Hc : P)
  end.
  { apply initialWorld_Consistent.
    - apply initLocationGroups_WellFormed.
    - done.
    - intros k. apply tokens_pos_elem_of. rewrite Htok. destruct k; simpl; lia. }
  specialize (H Hc).
  destruct (determineKeyItemPlacement_impl _ _ _ _ _); try done.
  simpl in H. change (size (∅ : gset KeyItems)) with 0%nat in H. lia.
Qed.

(** C1: whenever [determineKeyItemPlacement] returns with a true success
    flag, the returned list is a list of 15 distinct locations that hold,
    between them, each of the 15 key items on exactly one location, none of
    them a location that was given back to its group; and it does return so
    (for every random source, character placement and pair of flags) as soon
    as 16 nested calls and 2 iterations per loop are allowed: with the
    registry of [initLocationGroups] no recursive call fails, so no pass is
    ever retried. *)
Theorem placement_is_bijection rand depth iterations charlocs lockedChars
    earlyPendant :
  (forall r w,
     determineKeyItemPlacement rand depth iterations charlocs lockedChars
       earlyPendant = Returns r w ->
     success r = true ->
     Bijective w (placement r)) /\
  ((16 <= depth)%nat -> (2 <= iterations)%nat ->
   exists r w,
     determineKeyItemPlacement rand depth iterations charlocs lockedChars
       earlyPendant = Returns r w /\
     success r = true).
Proof.
  pose proof (determineKeyItemPlacement_Consistent rand depth iterations
                charlocs lockedChars earlyPendant) as H.
  split.
  - intros r w Hrun _. rewrite Hrun in H. destruct H as (_ & -> & Hc).
    by apply Consistent_Bijective.
  - intros Hd Hi.
    destruct (determineKeyItemPlacement _ _ _ _ _ _) as [r w| | |];
      [|done|lia|lia].
    exists r, w. by destruct H as [? _].
Qed.

Lemma placement_is_bijection_witness :
  exists r w,
    determineKeyItemPlacement zeros 16 2 sampleCharLocations false false
    = Returns r w /\
    success r = true /\ Bijective w (placement r).
Proof.
  destruct (placement_is_bijection zeros 16 2 sampleCharLocations false false)
    as [Hbij Hrun].
  destruct (Hrun ltac:(lia) ltac:(lia)) as (r & w & Hr & Hs).
  exists r, w. split; [exact Hr|]. split; [exact Hs|]. by apply Hbij.
Defined.

(** ** Failure *)

(** A call that finds no accessible group while key items remain. *)
Lemma impl_empty_snapshot rand depth iterations pool w w' :
  pool <> [] ->
  getAvailableLocations w = Returns [] w' ->
  determineKeyItemPlacement_impl rand (S depth) iterations pool w
  = Returns {| success := false; placement := chosenLocations w;
               keyItemsLeft := pool |} w'
  /\ chosenLocations w' = chosenLocations w.
Proof.
  intros Hpool Hav.
  destruct (getAvailableLocations_run w) as (avail & w1 & Hrun & Hw1 & _).
  rewrite Hrun in Hav. injection Hav as -> ->.
  assert (Hchosen : chosenLocations w' = chosenLocations w) by (by rewrite Hw1).
  split; [|exact Hchosen].
  simpl. rewrite decide_False by (by destruct pool).
  rewrite (bind_run _ _ _ _ _ Hrun). simpl. unfold reply, gets.
  by rewrite Hchosen.
Qed.

(** The failure of a call does not depend on the two bounds. *)
Lemma impl_failure_any_bound rand depth iterations pool w r w' :
  determineKeyItemPlacement_impl rand 1 1 pool w = Returns r w' ->
  success r = false ->
  determineKeyItemPlacement_impl rand (S depth) iterations pool w = Returns r w'.
Proof.
  intros Hrun Hs.
  destruct (impl_failure _ _ _ _ _ _ _ Hrun Hs) as (Hleft & Hpl & _ & Hav).
  assert (Hpool : pool <> []).
  { intros ->. simpl in Hrun. injection Hrun as <- _. discriminate. }
  destruct (impl_empty_snapshot rand depth iterations pool w w' Hpool Hav)
    as [-> _].
  destruct r as [s p k]; simpl in *. by subst.
Qed.

(** The states [afterFirstPass] and [afterFirstFailure] are states of the
    loop of the first call: after a failed first recursive call, the loop
    goes on from [afterFirstFailure]. *)
Lemma placementLoop_second_pass rand registry game pool avail w0 fr w
    depth iterations :
  getAvailableLocations (initialWorld registry game) = Returns avail w0 ->
  afterFirstFailure rand registry game pool = Some (fr, w) ->
  placementLoop rand
    (determineKeyItemPlacement_impl rand (S depth) iterations)
    (S iterations) (newFrame avail pool) w0
  = placementLoop rand
      (determineKeyItemPlacement_impl rand (S depth) iterations)
      iterations fr w.
Proof.
  unfold afterFirstFailure, afterFirstPass. intros -> Hfail.
  destruct (tryPlacement rand (newFrame avail pool) w0) as [fr1 w1| | |] eqn:Htry;
    try discriminate.
  destruct (determineKeyItemPlacement_impl rand 1 1 (remainingKeyItems fr1) w1)
    as [r w2| | |] eqn:Hrec; try discriminate.
  destruct (success r) eqn:Hs; [discriminate|]. injection Hfail as <- <-.
  simpl. rewrite (bind_run _ _ _ _ _ Htry).
  by rewrite (bind_run _ _ _ _ _
                (impl_failure_any_bound _ depth iterations _ _ _ _ Hrec Hs)), Hs.
Qed.

(** Between two passes, the key item of the previous pass has no token in
    the pool. *)
Lemma poolOf_previous_out S0 fr kt :
  poolOf S0 fr -> keyItemTemp fr = Some kt -> kt ∉ remainingKeyItems fr.
Proof.
  unfold poolOf. intros Hpool Hkt Hin. rewrite Hkt in Hpool.
  destruct Hpool as [_ Hset].
  apply (elem_of_list_to_set (C := gset KeyItems)) in Hin.
  rewrite Hset in Hin. apply elem_of_difference in Hin as [_ Hne].
  apply Hne. by apply elem_of_singleton.
Qed.

(** C2 (as amended): a call that finds no accessible group while key items
    remain returns a false flag together with the list of chosen locations
    it was passed, as it was passed (it is not emptied: it is empty only if
    it was passed empty, as in the first call of a solve), and leaves the
    pool as it was. *)
Theorem failure_returns_passed_list rand depth iterations pool w w' :
  pool <> [] ->
  getAvailableLocations w = Returns [] w' ->
  determineKeyItemPlacement_impl rand (S depth) iterations pool w
  = Returns {| success := false; placement := chosenLocations w;
               keyItemsLeft := pool |} w'
  /\ chosenLocations w' = chosenLocations w
  /\ (chosenLocations w = [] ->
      determineKeyItemPlacement_impl rand (S depth) iterations pool w
      = Returns {| success := false; placement := [];
                   keyItemsLeft := pool |} w').
Proof.
  intros Hpool Hav.
  destruct (impl_empty_snapshot rand depth iterations pool w w' Hpool Hav)
    as [Himpl Hchosen].
  split; [exact Himpl|]. split; [exact Hchosen|].
  intros Hnil. by rewrite Himpl, Hnil.
Qed.

Lemma failure_returns_passed_list_witness :
  exists fr w w',
    afterFirstPass zeros oneChestRegistry sampleGame initialKeyItems
    = Some (fr, w) /\
    remainingKeyItems fr <> [] /\
    getAvailableLocations w = Returns [] w' /\
    determineKeyItemPlacement_impl zeros 1 1 (remainingKeyItems fr) w
    = Returns {| success := false; placement := chosenLocations w;
                 keyItemsLeft := remainingKeyItems fr |} w'.
Proof.
  eexists _, _, _. split; [vm_compute; reflexivity|].
  assert (Hpool : forall A (x : A) l, x :: l <> []) by discriminate.
  split; [apply Hpool|].
  match goal with
  | |- ?P /\ _ => assert (Hav : P) by (vm_compute; reflexivity)
  end.
  split; [exact Hav|].
  exact (proj1 (failure_returns_passed_list zeros 0 1 _ _ _ (Hpool _ _ _) Hav)).
Defined.

(** C2 (as stated) fails: the call that follows the first pass of a solve on
    a registry with a single location finds no accessible group while 14 key
    items remain, and returns, with its false flag, a list that holds the
    location chosen in that pass. *)
Lemma failure_list_not_empty :
  exists fr w r w',
    afterFirstPass zeros oneChestRegistry sampleGame initialKeyItems
    = Some (fr, w) /\
    distinct (remainingKeyItems fr) = 14%nat /\
    getAvailableLocations w = Returns [] w' /\
    determineKeyItemPlacement_impl zeros 1 1 (remainingKeyItems fr) w
    = Returns r w' /\
    success r = false /\
    placement r = [0%nat] /\ placement r <> [].
Proof.
  eexists _, _, _, _. split; [vm_compute; reflexivity|].
  split; [vm_compute; reflexivity|].
  split; [vm_compute; reflexivity|].
  split; [vm_compute; reflexivity|].
  split; [reflexivity|]. split; [reflexivity|]. discriminate.
Qed.

(** ** Retries *)

Lemma locations_undoWeightDecay g :
  locations (LocationGroup.undoWeightDecay g) = locations g.
Proof.
  unfold LocationGroup.undoWeightDecay. by destruct (last (weightStack g)).
Qed.

Lemma elem_of_addLocation g l : l ∈ locations (LocationGroup.addLocation g l).
Proof.
  unfold LocationGroup.addLocation. case_decide; [done|]. simpl.
  apply elem_of_app. right. constructor.
Qed.

Lemma weight_undo_addLocation g l p :
  last (weightStack g) = Some p -> 1 <= p ->
  weight (LocationGroup.undoWeightDecay (LocationGroup.addLocation g l)) = p.
Proof.
  intros Hlast Hp. unfold LocationGroup.undoWeightDecay.
  assert (Hst : weightStack (LocationGroup.addLocation g l) = weightStack g).
  { unfold LocationGroup.addLocation. by case_decide. }
  rewrite Hst, Hlast. unfold LocationGroup.setWeight; simpl.
  case_decide; [lia|done].
Qed.

Lemma pruneKeyItems_Returns fr w fr' w' :
  pruneKeyItems fr w = Returns fr' w' ->
  w' = w /\ keyItemTemp fr' = keyItemTemp fr /\ location fr' = location fr /\
  forall k, k ∈ remainingKeyItems fr' <-> k ∈ remainingKeyItems fr.
Proof.
  rewrite pruneKeyItems_run. intros [= <- <-].
  case_decide; simpl; repeat split; try done; by apply elem_of_collapse.
Qed.

(** C3 (as amended): in a pass that follows a failed recursive call, the
    previously chosen location is first given back to its group and the
    weight decay of that group is undone, before the group is selected; the
    next key item is then drawn while the previous one is still in the game
    and out of the pool, so it is a different key item; only then is the
    previous key item removed from the game and put back into the pool.
    The key items of the game after the pass are those before it, with the
    new one in place of the previous one.  (Between two passes the previous
    key item has no token in the pool: [poolOf_previous_out].) *)
Theorem retry_undoes_previous_choice rand fr w fr' w' g l kt :
  locationGroup fr = Some g ->
  location fr = Some l ->
  keyItemTemp fr = Some kt ->
  (g < length (locationGroups w))%nat ->
  kt ∉ remainingKeyItems fr ->
  tryPlacement rand fr w = Returns fr' w' ->
  exists w1 k,
    undoPreviousChoice fr w = Returns tt w1 /\
    groupAt w1 g
    = LocationGroup.undoWeightDecay (LocationGroup.addLocation (groupAt w g) l) /\
    l ∈ locations (groupAt w1 g) /\
    (forall p, last (weightStack (groupAt w g)) = Some p -> 1 <= p ->
               weight (groupAt w1 g) = p) /\
    game w1 = game w /\
    (pickLocation rand fr ≫= fun fr => pruneKeyItems fr ≫= chooseKeyItem rand) w1
    = Returns fr' w' /\
    keyItemTemp fr' = Some k /\ k <> kt /\
    keyItems (game w') = (keyItems (game w) ∪ {[k]}) ∖ {[kt]} /\
    kt ∈ remainingKeyItems fr' /\ k ∉ remainingKeyItems fr'.
Proof.
  intros Hg Hl Hkt Hlt Hout Htry.
  destruct (undoPreviousChoice_Returns fr w)
    as (w1 & Hundo & _ & Hgame1 & _ & _ & _ & Hgroups1).
  specialize (Hgroups1 g l Hg Hl Hlt).
  assert (Hgroup1 : groupAt w1 g
                    = LocationGroup.undoWeightDecay
                        (LocationGroup.addLocation (groupAt w g) l)).
  { unfold groupAt at 1. rewrite Hgroups1.
    by rewrite list_lookup_total_insert_eq. }
  unfold tryPlacement, chooseLocation in Htry.
  assert (Hrest : (pickLocation rand fr
                   ≫= fun fr => pruneKeyItems fr ≫= chooseKeyItem rand) w1
                  = Returns fr' w').
  { rewrite <- Htry. unfold mbind, M_bind, bind. by rewrite Hundo. }
  pose proof Hrest as Hsteps.
  apply bind_Returns in Hsteps as (fr1 & w2 & Hpick & Hsteps).
  apply pickLocation_Returns in Hpick
    as (g' & l' & grp & _ & _ & _ & -> & _ & Hgame2 & _).
  apply bind_Returns in Hsteps as (fr2 & w3 & Hprune & Hkey).
  apply pruneKeyItems_Returns in Hprune as (-> & Htemp & _ & Hrem).
  apply chooseKeyItem_Returns in Hkey
    as (k & l0 & Hk & _ & -> & _ & _ & _ & _ & Hgame3).
  apply Hrem in Hk. simpl in Hk, Htemp.
  rewrite Htemp in Hgame3 |- *.
  rewrite Hkt in Hgame3 |- *.
  exists w1, k. split; [exact Hundo|]. split; [exact Hgroup1|]. split.
  { rewrite Hgroup1, locations_undoWeightDecay. apply elem_of_addLocation. }
  split.
  { intros p Hp Hp1. rewrite Hgroup1. by apply weight_undo_addLocation. }
  split; [done|]. split; [by rewrite Htemp, Hkt in Hrest|]. split; [done|]. split.
  { intros ->. done. }
  split; [by rewrite Hgame3, Hgame2, Hgame1|]. simpl. split.
  - apply elem_of_app. right. constructor.
  - rewrite elem_of_app, list_elem_of_filter, list_elem_of_singleton.
    intros [[Hne _]| ->]; done.
Qed.

Lemma retry_undoes_previous_choice_witness :
  exists fr w fr' w' w1 k,
    afterFirstFailure zeros oneChestRegistry sampleGame initialKeyItems
    = Some (fr, w) /\
    tryPlacement zeros fr w = Returns fr' w' /\
    undoPreviousChoice fr w = Returns tt w1 /\
    weight (groupAt w 0%nat) = 1 /\ weight (groupAt w1 0%nat) = 4 /\
    locations (groupAt w 0%nat) = [] /\
    locations (groupAt w1 0%nat) = [0%nat] /\
    keyItemTemp fr = Some tomapop /\ keyItemTemp fr' = Some k /\
    k <> tomapop /\
    keyItems (game w') = (keyItems (game w) ∪ {[k]}) ∖ {[tomapop]} /\
    tomapop ∈ remainingKeyItems fr'.
Proof.
  eexists _, _, _, _.
  match goal with
  | |- exists w1 k, ?A /\ ?B /\ _ =>
      assert (HA : A) by (vm_compute; reflexivity);
      assert (HB : B) by (vm_compute; reflexivity)
  end.
  pose proof HB as HC.
  eapply (retry_undoes_previous_choice zeros _ _ _ _ 0%nat 0%nat tomapop) in HC
    as (w1 & k & Hundo & Hgroup & Hloc & Hweight & _ & _ & Hk & Hne & Hgame & Hin & _);
    [|reflexivity|reflexivity|reflexivity|simpl; lia
     |apply (bool_decide_unpack _); vm_compute; exact I].
  exists w1, k. split; [exact HA|]. split; [exact HB|]. split; [exact Hundo|].
  split; [reflexivity|]. split; [by apply Hweight|]. split; [reflexivity|].
  split; [by rewrite Hgroup|]. split; [reflexivity|]. by repeat split.
Defined.

(** C3 (as stated) fails: at the start of the second pass of a solve on a
    registry with a single location, tomapop (5 tokens in the initial pool)
    is the previous choice; when the next key item is drawn, tomapop is still
    in the game and has no token in the pool; after the pass it has one
    token in the pool, not five; and the location of the first pass is twice
    in the list of chosen locations. *)
Lemma retry_does_not_restore_pool :
  exists fr w fr1 w1 fr' w',
    afterFirstFailure zeros oneChestRegistry sampleGame initialKeyItems
    = Some (fr, w) /\
    keyItemTemp fr = Some tomapop /\
    tokens tomapop initialKeyItems = 5%nat /\
    (chooseLocation zeros fr ≫= pruneKeyItems) w = Returns fr1 w1 /\
    tomapop ∈ keyItems (game w1) /\
    tokens tomapop (remainingKeyItems fr1) = 0%nat /\
    tryPlacement zeros fr w = Returns fr' w' /\
    tokens tomapop (remainingKeyItems fr') = 1%nat /\
    chosenLocations w' = [0%nat; 0%nat].
Proof.
  eexists _, _, _, _, _, _.
  split; [vm_compute; reflexivity|].
  split; [reflexivity|].
  split; [vm_compute; reflexivity|].
  split; [vm_compute; reflexivity|].
  split; [apply (bool_decide_unpack _); vm_compute; exact I|].
  split; [vm_compute; reflexivity|].
  split; [vm_compute; reflexivity|].
  split; [vm_compute; reflexivity|]. reflexivity.
Qed.

(** On another registry a retry leaves its trace in the returned list: a
    solve on [gatedRegistry] whose first pass draws tomapop and whose second
    pass draws the pendant succeeds with a list of 16 entries, in which the
    location of the first two passes occurs twice. *)
Lemma retry_leaves_location_in_list :
  observe (determineKeyItemPlacement_impl (sixth 2) 16 3 initialKeyItems
             (initialWorld gatedRegistry sampleGame))
  = Some (true,
          [(0, Some pendant); (0, Some pendant); (1, Some gatekey);
           (2, Some jerky); (3, Some moonstone); (4, Some prismshard);
           (5, Some grandleon); (6, Some heromedal); (7, Some roboribbon);
           (8, Some hilt); (9, Some blade); (10, Some rubyknife);
           (11, Some dreamstone); (12, Some clone); (13, Some ctrigger);
           (14, Some tomapop)]%nat).
Proof. vm_compute. reflexivity. Qed.

(** ** The witness of the depth bound *)


Lemma recursion_depth_bounded_witness :
  (distinct initialKeyItems < 16)%nat /\
  (distinct initialKeyItems <= 15)%nat /\
  determineKeyItemPlacement_impl zeros 16 7 initialKeyItems
    (initialWorld oneChestRegistry sampleGame) <> OutOfDepth /\
  determineKeyItemPlacement_impl zeros 16 7 initialKeyItems
    (initialWorld oneChestRegistry sampleGame) = OutOfIterations.
Proof.
  assert (Hd : (distinct initialKeyItems < 16)%nat) by (vm_compute; lia).
  split; [exact Hd|].
  destruct (recursion_depth_bounded zeros 16 7 initialKeyItems
              (initialWorld oneChestRegistry sampleGame) Hd) as (Hle & Hdepth & _).
  split; [exact Hle|]. split; [exact Hdepth|]. vm_compute. reflexivity.
Defined.

(** ** The construction of the registry *)

(** C6 (as amended): the construction of a registry checks nothing and
    raises nothing: [LocationGroup] stores the base weight it is given,
    whatever its sign, and [addLocation] only skips a location that is
    already a member of that same group.  The registry of
    [initLocationGroups] is well formed by its data: 183 distinct locations
    in 25 groups, no location in two groups, every base weight at least 1. *)
Theorem registry_construction_unchecked :
  (forall nm w rule decay, weight (LocationGroup.init nm w rule decay) = w) /\
  (forall g l,
     locations (LocationGroup.addLocation g l)
     = if decide (l ∈ locations g) then locations g else locations g ++ [l]) /\
  (forall g l, weight (LocationGroup.addLocation g l) = weight g) /\
  length initLocationGroups.1 = 183%nat /\
  length initLocationGroups.2 = 25%nat /\
  length (concat (locations <$> initLocationGroups.2)) = 183%nat /\
  NoDup (concat (locations <$> initLocationGroups.2)) /\
  Forall (fun g => 1 <= weight g) initLocationGroups.2.
Proof.
  split; [done|].
  split; [intros g l; unfold LocationGroup.addLocation; by case_decide|].
  split; [intros g l; unfold LocationGroup.addLocation; by case_decide|].
  split; [vm_compute; reflexivity|].
  split; [vm_compute; reflexivity|].
  split; [vm_compute; reflexivity|].
  split; [apply initLocationGroups_WellFormed|apply initLocationGroups_WellFormed].
Qed.

(** C6 (as stated) fails: [malformedRegistry] has a location that is a
    member of two groups and a group of base weight 0; it is built all the
    same, and a solve on it raises nothing: it returns a true flag, with a
    list in which the shared location occurs twice (and tomapop, first put
    on it, on no location). *)
Lemma malformed_registry_accepted :
  ~ NoDup (concat (locations <$> malformedRegistry.2)) /\
  Exists (fun g => weight g < 1) malformedRegistry.2 /\
  observe (determineKeyItemPlacement_impl zeros 16 2 initialKeyItems
             (initialWorld malformedRegistry sampleGame))
  = Some (true,
          [(0, Some gatekey); (0, Some gatekey); (1, Some jerky);
           (2, Some pendant); (3, Some moonstone); (4, Some prismshard);
           (5, Some grandleon); (6, Some heromedal); (7, Some roboribbon);
           (8, Some hilt); (9, Some blade); (10, Some rubyknife);
           (11, Some dreamstone); (12, Some clone); (13, Some ctrigger)]%nat).
Proof.
  split; [apply (bool_decide_unpack _); vm_compute; exact I|].
  split; [apply (bool_decide_unpack _); vm_compute; exact I|].
  vm_compute. reflexivity.
Qed.

(** * Further properties *)

(** ** The game state *)

Lemma Game_eq g g' :
  characters g = characters g' -> keyItems g = keyItems g' ->
  earlyPendant g = earlyPendant g' -> lockedChars g = lockedChars g' ->
  charLocations g = charLocations g' -> g = g'.
Proof. destruct g, g'; simpl; by intros -> -> -> -> ->. Qed.

(** X1: adding a key item makes the game hold it and removing it makes the
    game lack it; both are idempotent; removing a key item the game lacks
    changes nothing (no error); adding a key item the game lacks and
    removing it again gives back the game, and adds one to the count;
    adding one it holds changes nothing. *)
Theorem keyItem_add_remove g k :
  Game.hasKeyItem (Game.addKeyItem g k) k = true /\
  Game.hasKeyItem (Game.removeKeyItem g k) k = false /\
  Game.addKeyItem (Game.addKeyItem g k) k = Game.addKeyItem g k /\
  Game.removeKeyItem (Game.removeKeyItem g k) k = Game.removeKeyItem g k /\
  (Game.hasKeyItem g k = false ->
   Game.removeKeyItem g k = g /\
   Game.removeKeyItem (Game.addKeyItem g k) k = g /\
   Game.getKeyItemCount (Game.addKeyItem g k) = S (Game.getKeyItemCount g)) /\
  (Game.hasKeyItem g k = true ->
   Game.addKeyItem g k = g /\
   Game.getKeyItemCount (Game.removeKeyItem g k)
   = pred (Game.getKeyItemCount g)).
Proof.
  unfold Game.hasKeyItem, Game.addKeyItem, Game.removeKeyItem,
    Game.getKeyItemCount, Game.set_keyItems; simpl.
  split; [apply bool_decide_eq_true; set_solver|].
  split; [apply bool_decide_eq_false; set_solver|].
  split; [apply Game_eq; simpl; try done; set_solver|].
  split; [apply Game_eq; simpl; try done; set_solver|].
  split.
  - intros Hk. apply bool_decide_eq_false in Hk.
    split; [apply Game_eq; simpl; try done; set_solver|].
    split; [apply Game_eq; simpl; try done; set_solver|].
    rewrite size_union, size_singleton by set_solver. lia.
  - intros Hk. apply bool_decide_eq_true in Hk.
    split; [apply Game_eq; simpl; try done; set_solver|].
    rewrite size_difference, size_singleton by set_solver. lia.
Qed.

(** ** Access grows with the game *)

Lemma hasKeyItem_grows g g' k :
  grows g g' -> Game.hasKeyItem g k = true -> Game.hasKeyItem g' k = true.
Proof.
  intros (Hk & _) H. unfold Game.hasKeyItem in *.
  apply bool_decide_eq_true in H. apply bool_decide_eq_true. by apply Hk.
Qed.

Lemma hasCharacter_grows g g' c :
  grows g g' -> Game.hasCharacter g c = true -> Game.hasCharacter g' c = true.
Proof.
  intros (_ & Hc & _) H. unfold Game.hasCharacter in *.
  apply bool_decide_eq_true in H. apply bool_decide_eq_true. by apply Hc.
Qed.

#[local] Ltac grows_tac :=
  match goal with
  | Hle : grows ?g ?g' |- _ =>
      pose proof (fun k => hasKeyItem_grows g g' k Hle) as HK;
      pose proof (fun c => hasCharacter_grows g g' c Hle) as HC;
      destruct Hle as (_ & _ & Hep & Hlc);
      unfold Game.canAccessDactylCharacter, Game.canAccessOceanPalace,
        Game.canAccessBlackOmen, Game.canAccessMelchiorsRefinements,
        Game.canAccessSealedChests, Game.canGetSunstone,
        Game.canAccessKingsTrial, Game.canAccessDarkAges,
        Game.canAccessMagusCastle, Game.canAccessTyranoLair,
        Game.hasMasamune, Game.canAccessFuture, Game.canAccessPrehistory,
        Game.canAccessGiantsClaw, Game.canAccessRuins,
        Game.canAccessBurrowItem, Game.canAccessFionasShrine;
      rewrite <- ?Hep, <- ?Hlc;
      rewrite ?andb_true_iff, ?orb_true_iff, ?andb_true_iff;
      intuition auto
  end.

Lemma registryRules_eq :
  registryRules
  = [ (fun game => Game.canAccessPrehistory game);
      (fun game => Game.canAccessPrehistory game);
      (fun game => Game.canAccessPrehistory game);
      (fun game => Game.canAccessDarkAges game);
      (fun game => Game.canAccessFionasShrine game);
      (fun game => Game.canAccessGiantsClaw game);
      (fun game => Game.canAccessRuins game && Game.canAccessSealedChests game);
      (fun game => Game.canAccessKingsTrial game);
      (fun game => true); (fun game => true); (fun game => true);
      (fun game => true); (fun game => true); (fun game => true);
      (fun game => Game.canAccessSealedChests game
                   && Game.canAccessMagusCastle game);
      (fun game => Game.canAccessMelchiorsRefinements game);
      (fun game => Game.canAccessBurrowItem game);
      (fun game => Game.canAccessFuture game || Game.canAccessPrehistory game);
      (fun game => Game.canAccessDarkAges game);
      (fun game => Game.canAccessFuture game);
      (fun game => Game.canAccessFuture game);
      (fun game => Game.canAccessFuture game);
      (fun game => Game.canAccessFuture game);
      (fun game => Game.canAccessFuture game);
      (fun game => Game.canAccessSealedChests game) ].
Proof. reflexivity. Qed.

(** X2: access never shrinks: when a game holds every key item and every
    character of another game, under the same flags, every logic function
    of [Game] that is true of the smaller game is true of the larger one, and
    so is the access rule of every group of [initLocationGroups]. *)
Theorem access_grows g g' :
  grows g g' ->
  Forall (fun p => p g = true -> p g' = true) Game_predicates /\
  Forall (fun rule => rule g = true -> rule g' = true) registryRules.
Proof.
  intros Hle. split.
  - unfold Game_predicates. repeat (constructor; [grows_tac|]). constructor.
  - rewrite registryRules_eq. repeat (constructor; [grows_tac|]). constructor.
Qed.

Lemma access_grows_witness :
  let g := Game.addKeyItem sampleGame pendant in
  let g' := Game.addCharacter (Game.addKeyItem g gatekey) Robo in
  grows g g' /\
  Forall (fun p => p g = true -> p g' = true) Game_predicates /\
  Forall (fun rule => rule g = true -> rule g' = true) registryRules.
Proof.
  intros g g'.
  assert (Hle : grows g g').
  { unfold grows, g, g'; simpl. repeat split; set_solver. }
  split; [exact Hle|]. exact (access_grows g g' Hle).
Defined.

(** ** The characters of the game *)

Lemma keyRules_addCharacter g c :
  Game.canAccessFuture (Game.addCharacter g c) = Game.canAccessFuture g /\
  Game.canAccessDactylCharacter (Game.addCharacter g c)
  = Game.canAccessDactylCharacter g /\
  Game.hasMasamune (Game.addCharacter g c) = Game.hasMasamune g.
Proof. by repeat split. Qed.

(** The characters after [updateAvailableCharacters]. *)
Lemma characters_updateAvailableCharacters g :
  characters (Game.updateAvailableCharacters g)
  = characters g
    ∪ {[slot_start (charLocations g)]} ∪ {[slot_start2 (charLocations g)]}
    ∪ {[slot_cathedral (charLocations g)]} ∪ {[slot_castle (charLocations g)]}
    ∪ (if Game.canAccessFuture g
       then {[slot_proto (charLocations g)]} else ∅)
    ∪ (if Game.canAccessDactylCharacter g
       then {[slot_dactyl (charLocations g)]} else ∅)
    ∪ (if Game.hasMasamune g
       then {[slot_burrow (charLocations g)]} else ∅).
Proof.
  unfold Game.updateAvailableCharacters. cbv zeta.
  rewrite !(proj1 (keyRules_addCharacter _ _)).
  destruct (Game.canAccessFuture g);
    rewrite !(proj1 (proj2 (keyRules_addCharacter _ _)));
    (destruct (Game.canAccessDactylCharacter g);
     rewrite !(proj2 (proj2 (keyRules_addCharacter _ _)));
     (destruct (Game.hasMasamune g);
      cbn [characters charLocations Game.addCharacter Game.set_characters];
      set_solver)).
Qed.

Lemma fields_updateAvailableCharacters g :
  earlyPendant (Game.updateAvailableCharacters g) = earlyPendant g /\
  lockedChars (Game.updateAvailableCharacters g) = lockedChars g /\
  charLocations (Game.updateAvailableCharacters g) = charLocations g.
Proof.
  unfold Game.updateAvailableCharacters.
  repeat match goal with |- context [if ?b then _ else _] => destruct b end;
    by repeat split.
Qed.

Lemma keyRules_updateAvailableCharacters g :
  Game.canAccessFuture (Game.updateAvailableCharacters g)
  = Game.canAccessFuture g /\
  Game.canAccessDactylCharacter (Game.updateAvailableCharacters g)
  = Game.canAccessDactylCharacter g /\
  Game.hasMasamune (Game.updateAvailableCharacters g) = Game.hasMasamune g.
Proof.
  destruct (fields_updateAvailableCharacters g) as (_ & Hlc & _).
  unfold Game.canAccessFuture, Game.canAccessDactylCharacter, Game.hasMasamune,
    Game.canAccessPrehistory, Game.hasKeyItem.
  by rewrite keyItems_updateAvailableCharacters, Hlc.
Qed.

Lemma update_sets (A C1 C2 C3 : gset Characters) s1 s2 s3 s4 :
  let R := A ∪ {[s1]} ∪ {[s2]} ∪ {[s3]} ∪ {[s4]} ∪ C1 ∪ C2 ∪ C3 in
  A ⊆ R /\ s1 ∈ R /\ s2 ∈ R /\ s3 ∈ R /\ s4 ∈ R /\
  C1 ⊆ R /\ C2 ⊆ R /\ C3 ⊆ R /\
  R ∪ {[s1]} ∪ {[s2]} ∪ {[s3]} ∪ {[s4]} ∪ C1 ∪ C2 ∪ C3 = R.
Proof. intros R. unfold R. repeat split; set_solver. Qed.

(** X3: [updateAvailableCharacters] only adds characters: it keeps the key
    items and the flags, every character the game had is still there, the
    characters of the four ungated slots are there, and the character of a
    gated slot is there if its gate is open (proto: the pendant; dactyl:
    the gate key, and the dreamstone too under locked characters; burrow:
    hilt and blade).  Running it a second time changes nothing. *)
Theorem updateAvailableCharacters_adds g :
  let g' := Game.updateAvailableCharacters g in
  grows g g' /\ keyItems g' = keyItems g /\
  Game.hasCharacter g' (slot_start (charLocations g)) = true /\
  Game.hasCharacter g' (slot_start2 (charLocations g)) = true /\
  Game.hasCharacter g' (slot_cathedral (charLocations g)) = true /\
  Game.hasCharacter g' (slot_castle (charLocations g)) = true /\
  (Game.hasKeyItem g pendant = true ->
   Game.hasCharacter g' (slot_proto (charLocations g)) = true) /\
  (Game.hasKeyItem g gatekey = true ->
   lockedChars g = false \/ Game.hasKeyItem g dreamstone = true ->
   Game.hasCharacter g' (slot_dactyl (charLocations g)) = true) /\
  (Game.hasKeyItem g hilt = true -> Game.hasKeyItem g blade = true ->
   Game.hasCharacter g' (slot_burrow (charLocations g)) = true) /\
  Game.updateAvailableCharacters g' = g'.
Proof.
  intros g'. subst g'.
  pose proof (characters_updateAvailableCharacters g) as Hchars.
  pose proof (keyItems_updateAvailableCharacters g) as Hkeys.
  destruct (fields_updateAvailableCharacters g) as (Hep & Hlc & Hcl).
  match type of Hchars with
  | _ = ?A ∪ {[?s1]} ∪ {[?s2]} ∪ {[?s3]} ∪ {[?s4]} ∪ ?C1 ∪ ?C2 ∪ ?C3 =>
      destruct (update_sets A C1 C2 C3 s1 s2 s3 s4)
        as (HA & H1 & H2 & H3 & H4 & HC1 & HC2 & HC3 & Hagain)
  end.
  rewrite <- Hchars in HA, H1, H2, H3, H4, HC1, HC2, HC3, Hagain.
  split; [unfold grows; by rewrite Hkeys, Hep, Hlc|]. split; [exact Hkeys|].
  unfold Game.hasCharacter.
  do 4 (split; [by apply bool_decide_eq_true|]).
  split.
  { intros Hp. unfold Game.canAccessFuture in HC1. rewrite Hp in HC1.
    apply bool_decide_eq_true, HC1. by apply elem_of_singleton. }
  split.
  { intros Hg Hd.
    unfold Game.canAccessDactylCharacter, Game.canAccessPrehistory in HC2.
    rewrite Hg in HC2.
    assert (Hor : negb (lockedChars g) || Game.hasKeyItem g dreamstone = true)
      by (destruct Hd as [-> | ->]; by rewrite ?orb_true_r).
    rewrite Hor in HC2.
    apply bool_decide_eq_true, HC2. by apply elem_of_singleton. }
  split.
  { intros Hh Hb. unfold Game.hasMasamune in HC3. rewrite Hh, Hb in HC3.
    apply bool_decide_eq_true, HC3. by apply elem_of_singleton. }
  apply Game_eq.
  - rewrite (characters_updateAvailableCharacters (Game.updateAvailableCharacters g)).
    destruct (keyRules_updateAvailableCharacters g) as (-> & -> & ->).
    by rewrite Hcl.
  - apply keyItems_updateAvailableCharacters.
  - apply fields_updateAvailableCharacters.
  - apply fields_updateAvailableCharacters.
  - apply fields_updateAvailableCharacters.
Qed.

(** ** The two ends of a solve *)

Lemma registryNamedRules_eq :
  (fun grp => (name grp, accessRule grp)) <$> initLocationGroups.2
  = [ ("PrehistoryForestMaze", fun game => Game.canAccessPrehistory game);
      ("PrehistoryReptite", fun game => Game.canAccessPrehistory game);
      ("PrehistoryDactylNest", fun game => Game.canAccessPrehistory game);
      ("Darkages", fun game => Game.canAccessDarkAges game);
      ("Fionashrine", fun game => Game.canAccessFionasShrine game);
      ("Giantsclaw", fun game => Game.canAccessGiantsClaw game);
      ("NorthernRuins",
       fun game => Game.canAccessRuins game && Game.canAccessSealedChests game);
      ("GuardiaTreasury", fun game => Game.canAccessKingsTrial game);
      ("Open", fun game => true); ("OpenKeys", fun game => true);
      ("Heckran", fun game => true); ("CathedralLocations", fun game => true);
      ("GuardiaCastle", fun game => true);
      ("DenadoroLocations", fun game => true);
      ("Magic Cave",
       fun game => Game.canAccessSealedChests game
                   && Game.canAccessMagusCastle game);
      ("MelchiorRefinements",
       fun game => Game.canAccessMelchiorsRefinements game);
      ("FrogsBurrowLocation", fun game => Game.canAccessBurrowItem game);
      ("Ozzie's Fort Front",
       fun game => Game.canAccessFuture game || Game.canAccessPrehistory game);
      ("Ozzie's Fort Back", fun game => Game.canAccessDarkAges game);
      ("FutureOpen", fun game => Game.canAccessFuture game);
      ("FutureLabs", fun game => Game.canAccessFuture game);
      ("FutureSewers", fun game => Game.canAccessFuture game);
      ("GenoDome", fun game => Game.canAccessFuture game);
      ("Factory", fun game => Game.canAccessFuture game);
      ("SealedLocations", fun game => Game.canAccessSealedChests game) ].
Proof. reflexivity. Qed.

Lemma Forall_via_fmap {A B} (f : A -> B) (P : B -> Prop) (l : list A) :
  Forall P (f <$> l) -> Forall (fun x => P (f x)) l.
Proof.
  induction l as [|x l IH]; simpl; intros H; [constructor|].
  inversion H; subst. constructor; auto.
Qed.

#[local] Ltac unfold_rules :=
  unfold Game.canAccessDactylCharacter, Game.canAccessOceanPalace,
    Game.canAccessBlackOmen, Game.canAccessMelchiorsRefinements,
    Game.canAccessSealedChests, Game.canGetSunstone,
    Game.canAccessKingsTrial, Game.canAccessDarkAges,
    Game.canAccessMagusCastle, Game.canAccessTyranoLair,
    Game.hasMasamune, Game.canAccessFuture, Game.canAccessPrehistory,
    Game.canAccessGiantsClaw, Game.canAccessRuins,
    Game.canAccessBurrowItem, Game.canAccessFionasShrine.

(** X4: the two ends of a solve.  In a game without a key item a group of
    [initLocationGroups] is accessible exactly if it is one of the six open
    groups, or Fiona's shrine and the game has Robo.  In a game with the 15
    key items and with Frog, Marle and Robo every logic function of [Game] is
    true and every group of [initLocationGroups] is accessible. *)
Theorem access_at_both_ends g :
  (keyItems g = ∅ ->
   Forall (fun grp =>
             accessRule grp g
             = bool_decide (name grp ∈ openGroupNames)
               || (bool_decide (name grp = "Fionashrine")
                   && Game.hasCharacter g Robo))
          initLocationGroups.2) /\
  ((forall k, Game.hasKeyItem g k = true) ->
   Game.hasCharacter g Frog = true -> Game.hasCharacter g Marle = true ->
   Game.hasCharacter g Robo = true ->
   Forall (fun p => p g = true) Game_predicates /\
   Forall (fun grp => accessRule grp g = true) initLocationGroups.2).
Proof.
  split.
  - intros Hempty.
    assert (Hk : forall k, Game.hasKeyItem g k = false).
    { intros k. unfold Game.hasKeyItem. rewrite Hempty.
      apply bool_decide_eq_false. apply not_elem_of_empty. }
    pose (P := fun nr : string * (Game -> bool) =>
                 nr.2 g
                 = bool_decide (nr.1 ∈ openGroupNames)
                   || (bool_decide (nr.1 = "Fionashrine")
                       && Game.hasCharacter g Robo)).
    apply (Forall_via_fmap (fun grp => (name grp, accessRule grp)) P).
    unfold P.
    rewrite registryNamedRules_eq.
    repeat (constructor;
            [cbn [fst snd]; unfold_rules; rewrite ?Hk;
             match goal with
             | |- _ = ?a || (?b && _) =>
                 let a' := eval vm_compute in a in
                 let b' := eval vm_compute in b in
                 change a with a'; change b with b'
             end; rewrite ?andb_false_r; reflexivity|]).
    constructor.
  - intros Hk HF HM HR. split.
    + unfold Game_predicates.
      repeat (constructor;
              [unfold_rules; rewrite ?Hk, ?HF, ?HM, ?HR, ?orb_true_r;
               reflexivity|]).
      constructor.
    + apply (Forall_via_fmap accessRule (fun rule => rule g = true)).
      fold registryRules. rewrite registryRules_eq.
      repeat (constructor;
              [unfold_rules; rewrite ?Hk, ?HF, ?HM, ?HR, ?orb_true_r;
               reflexivity|]).
      constructor.
Qed.

Lemma access_at_both_ends_witness :
  let g := Game.updateAvailableCharacters sampleGame in
  keyItems g = ∅ /\
  Forall (fun grp =>
            accessRule grp g
            = bool_decide (name grp ∈ openGroupNames)
              || (bool_decide (name grp = "Fionashrine")
                  && Game.hasCharacter g Robo))
         initLocationGroups.2.
Proof.
  intros g. assert (Hempty : keyItems g = ∅) by reflexivity.
  split; [exact Hempty|]. exact (proj1 (access_at_both_ends g) Hempty).
Defined.

(** ** The members of a group *)

Lemma LocationGroup_eq g g' :
  name g = name g' -> locations g = locations g' -> weight g = weight g' ->
  accessRule g = accessRule g' -> weightDecay g = weightDecay g' ->
  weightStack g = weightStack g' -> g = g'.
Proof. destruct g, g'; simpl; by intros -> -> -> -> -> ->. Qed.

Lemma list_remove_None {A} `{EqDecision A} (x : A) (l : list A) :
  x ∉ l -> list_remove x l = None.
Proof.
  induction l as [|y l IH]; intros Hx; [done|]. simpl.
  apply not_elem_of_cons in Hx as [Hne Hx].
  rewrite decide_False by done. by rewrite IH.
Qed.

Lemma list_remove_snoc {A} `{EqDecision A} (x : A) (l : list A) :
  x ∉ l -> list_remove x (l ++ [x]) = Some l.
Proof.
  induction l as [|y l IH]; intros Hx; simpl.
  - by rewrite decide_True.
  - apply not_elem_of_cons in Hx as [Hne Hx].
    rewrite decide_False by done. by rewrite IH.
Qed.

Lemma list_remove_NoDup {A} `{EqDecision A} (x : A) (l l' : list A) :
  NoDup l -> list_remove x l = Some l' -> NoDup l' /\ x ∉ l'.
Proof.
  intros Hnd Hrm. apply list_remove_Permutation in Hrm.
  rewrite Hrm in Hnd. apply NoDup_cons in Hnd. tauto.
Qed.

(** X5: [addLocation] keeps a group free of duplicates: a location that is
    already a member is not added again (the group is unchanged), a new one
    is appended at the end, and nothing but the list of locations changes;
    adding twice is adding once. *)
Theorem addLocation_no_duplicate g l :
  l ∈ locations (LocationGroup.addLocation g l) /\
  (l ∈ locations g -> LocationGroup.addLocation g l = g) /\
  (l ∉ locations g ->
   locations (LocationGroup.addLocation g l) = locations g ++ [l] /\
   LocationGroup.getAvailableLocationCount (LocationGroup.addLocation g l)
   = S (LocationGroup.getAvailableLocationCount g)) /\
  LocationGroup.addLocation (LocationGroup.addLocation g l) l
  = LocationGroup.addLocation g l /\
  (NoDup (locations g) -> NoDup (locations (LocationGroup.addLocation g l))) /\
  weight (LocationGroup.addLocation g l) = weight g /\
  weightStack (LocationGroup.addLocation g l) = weightStack g.
Proof.
  pose proof (elem_of_addLocation g l) as Hin.
  split; [exact Hin|].
  split; [intros Hl; unfold LocationGroup.addLocation; by rewrite decide_True|].
  split.
  { intros Hl. unfold LocationGroup.addLocation,
      LocationGroup.getAvailableLocationCount.
    rewrite decide_False by done. simpl. rewrite length_app. simpl.
    split; [done|lia]. }
  split.
  { unfold LocationGroup.addLocation at 1. by rewrite decide_True. }
  split.
  { intros Hnd. unfold LocationGroup.addLocation. case_decide; [done|]. simpl.
    apply NoDup_app. split; [done|]. split; [|apply NoDup_singleton].
    intros x Hx Hx'. apply list_elem_of_singleton in Hx' as ->. done. }
  unfold LocationGroup.addLocation. by case_decide.
Qed.

(** X6: [removeLocation] raises (the [ValueError] of [list.remove]) exactly
    when the location is not a member.  Otherwise it takes out one
    occurrence, the first, and changes nothing else; in a group without
    duplicates the location is then no longer a member.  Adding a new
    location and removing it gives back the group; removing a member and
    adding it again gives back the same members, the location now last. *)
Theorem removeLocation_member g l :
  (l ∉ locations g <-> LocationGroup.removeLocation g l = None) /\
  (forall g', LocationGroup.removeLocation g l = Some g' ->
     locations g ≡ₚ l :: locations g' /\
     LocationGroup.getAvailableLocationCount g
     = S (LocationGroup.getAvailableLocationCount g') /\
     weight g' = weight g /\ weightStack g' = weightStack g /\
     name g' = name g /\
     (NoDup (locations g) ->
      (l ∉ locations g') /\
      locations (LocationGroup.addLocation g' l) = locations g' ++ [l] /\
      (locations (LocationGroup.addLocation g' l) ≡ₚ locations g))) /\
  (l ∉ locations g ->
   LocationGroup.removeLocation (LocationGroup.addLocation g l) l = Some g).
Proof.
  split; [|split].
  - unfold LocationGroup.removeLocation. split.
    + intros Hl. by rewrite list_remove_None.
    + intros Hnone Hl. destruct (list_remove_Some l (locations g) Hl) as [l' E].
      by rewrite E in Hnone.
  - unfold LocationGroup.removeLocation. intros g' Hrm.
    destruct (list_remove l (locations g)) as [locs|] eqn:E; [|discriminate].
    injection Hrm as <-. simpl.
    pose proof (list_remove_Permutation _ _ _ E) as Hperm.
    split; [done|]. split.
    { unfold LocationGroup.getAvailableLocationCount. simpl.
      by rewrite Hperm. }
    do 3 (split; [done|]). intros Hnd.
    destruct (list_remove_NoDup _ _ _ Hnd E) as [Hnd' Hout].
    split; [done|]. unfold LocationGroup.addLocation. simpl.
    rewrite decide_False by done. simpl. split; [done|].
    rewrite Hperm. symmetry. apply Permutation_cons_append.
  - intros Hl. unfold LocationGroup.removeLocation, LocationGroup.addLocation.
    rewrite decide_False by done. simpl. rewrite list_remove_snoc by done.
    simpl. f_equal. by apply LocationGroup_eq.
Qed.

(** ** The stack of weights *)

Lemma decay_undo g :
  1 <= weight g ->
  LocationGroup.undoWeightDecay (LocationGroup.decayWeight g) = g.
Proof.
  intros Hg. destruct g as [nm locs w rule decay st]; simpl in Hg.
  unfold LocationGroup.undoWeightDecay, LocationGroup.decayWeight; simpl.
  destruct decay as [f|]; simpl; rewrite last_snoc, removelast_last;
    unfold LocationGroup.setWeight, LocationGroup.set_weightStack; simpl;
    (case_decide; [lia|reflexivity]).
Qed.

(** X7: weight decays nest: on a group whose weight is at least 1, any
    number of [decayWeight] calls followed by as many [undoWeightDecay]
    calls gives back the group, weight and stack; each decay pushes one
    entry on the stack. *)
Theorem decays_undo_in_reverse g n :
  1 <= weight g ->
  Nat.iter n LocationGroup.undoWeightDecay
    (Nat.iter n LocationGroup.decayWeight g) = g /\
  length (weightStack (Nat.iter n LocationGroup.decayWeight g))
  = (length (weightStack g) + n)%nat.
Proof.
  intros Hg. split.
  - induction n as [|n IH]; [done|].
    rewrite Nat.iter_succ_r.
    change (Nat.iter (S n) LocationGroup.decayWeight g)
      with (LocationGroup.decayWeight (Nat.iter n LocationGroup.decayWeight g)).
    rewrite decay_undo; [exact IH|].
    destruct n; [done|]. simpl. apply decayWeight_floor.
  - induction n as [|n IH]; simpl; [lia|].
    unfold LocationGroup.decayWeight at 1. simpl.
    destruct (weightDecay _); simpl; rewrite length_app, IH; simpl; lia.
Qed.

Lemma decays_undo_in_reverse_witness :
  let g := LocationGroup.init "Open" 10 (fun _ => true)
             (Some (fun weight => int (float weight * 0.2)%float)) in
  1 <= weight g /\
  Nat.iter 3 LocationGroup.undoWeightDecay
    (Nat.iter 3 LocationGroup.decayWeight g) = g /\
  weightStack (Nat.iter 3 LocationGroup.decayWeight g) = [10; 2; 1].
Proof.
  intros g. assert (Hg : 1 <= weight g) by (simpl; lia).
  split; [exact Hg|]. split; [exact (proj1 (decays_undo_in_reverse g 3 Hg))|].
  vm_compute. reflexivity.
Defined.

(** ** The snapshot of the accessible groups *)

(** X8: [getAvailableLocations] returns the groups, in the order of
    [locationGroups] and each once, that are accessible in the game with its
    characters updated and that have a location left, and no other; it changes
    nothing but the characters of the game, and raises nothing. *)
Theorem getAvailableLocations_snapshot w :
  exists avail,
    getAvailableLocations w
    = Returns avail (set_game w (Game.updateAvailableCharacters (game w))) /\
    (forall g, g ∈ avail <->
       (g < length (locationGroups w))%nat /\
       LocationGroup.canAccess (groupAt w g)
         (Game.updateAvailableCharacters (game w)) = true /\
       locations (groupAt w g) <> []) /\
    avail `sublist_of` seq 0 (length (locationGroups w)) /\
    NoDup avail.
Proof.
  destruct (getAvailableLocations_run w) as (avail & w1 & Hrun & Hw1 & Havail).
  assert (Hg : forall g, groupAt w1 g = groupAt w g)
    by (intros g; by rewrite Hw1).
  assert (Hgame : game w1 = Game.updateAvailableCharacters (game w))
    by (by rewrite Hw1).
  assert (Hlen : length (locationGroups w1) = length (locationGroups w))
    by (by rewrite Hw1).
  exists avail. split; [by rewrite <- Hw1|].
  split; [|split].
  - intros g. rewrite Havail, list_elem_of_filter, elem_of_seq, Hg, Hgame, Hlen.
    unfold LocationGroup.getAvailableLocationCount. split.
    + intros [[Hacc Hcount] [_ Hlt]]. split; [simpl in Hlt; lia|].
      split; [done|]. intros Hnil. rewrite Hnil in Hcount. simpl in Hcount. lia.
    + intros (Hlt & Hacc & Hne). split; [|simpl; lia]. split; [done|].
      destruct (locations (groupAt w g)); [done|simpl; lia].
  - rewrite Havail, Hlen. apply sublist_filter.
  - rewrite Havail. apply NoDup_filter, NoDup_seq.
Qed.

(** ** The weighted selection *)

Lemma weightTotal_nonneg0 w avail :
  (forall g, g ∈ avail -> 0 <= weight (groupAt w g)) ->
  0 <= weightTotal w avail.
Proof.
  induction avail as [|g avail IH]; intros Hw; [done|].
  rewrite weightTotal_cons. unfold LocationGroup.getWeight.
  assert (0 <= weight (groupAt w g)) by (apply Hw, elem_of_cons; by left).
  assert (0 <= weightTotal w avail); [|lia].
  apply IH. intros g' Hg'. apply Hw, elem_of_cons. by right.
Qed.

Lemma selectGroup_skip w pre rest locationChoice counter group :
  (forall g, g ∈ pre -> 0 <= weight (groupAt w g)) ->
  counter + weightTotal w pre < locationChoice ->
  selectGroup w (pre ++ rest) locationChoice counter group
  = selectGroup w rest locationChoice (counter + weightTotal w pre)
      (match last pre with Some g => Some g | None => group end).
Proof.
  revert counter group. induction pre as [|g pre IH]; intros counter group Hw Hc.
  - simpl. unfold weightTotal. simpl. by rewrite Z.add_0_r.
  - rewrite weightTotal_cons in Hc. simpl.
    assert (0 <= weightTotal w pre).
    { apply weightTotal_nonneg0. intros g0 Hg0. apply Hw.
      apply elem_of_cons. by right. }
    unfold LocationGroup.getWeight in *.
    rewrite decide_False by lia.
    rewrite IH; [|intros g0 Hg0; apply Hw, elem_of_cons; by right|lia].
    rewrite weightTotal_cons. unfold LocationGroup.getWeight.
    rewrite Z.add_assoc. f_equal. destruct pre as [|x l]; [done|].
    change (last (g :: x :: l)) with (last (x :: l)).
    destruct (last (x :: l)) eqn:E; [done|].
    by apply last_None in E.
Qed.

(** X9: the selection is weighted: with groups of non-negative weight, the
    group of the snapshot that is selected is the one whose interval of the
    running sum holds the draw; a group of weight [x] preceded by a total
    weight of [t] is selected by exactly the draws [t+1 .. t+x], whatever
    follows it. *)
Theorem selectGroup_interval w pre g post locationChoice :
  (forall g', g' ∈ pre -> 0 <= weight (groupAt w g')) ->
  weightTotal w pre < locationChoice
    <= weightTotal w pre + weight (groupAt w g) ->
  selectGroup w (pre ++ g :: post) locationChoice 0 None = (Some g, Some g).
Proof.
  intros Hw [Hlo Hhi].
  rewrite selectGroup_skip by (done || lia). simpl.
  unfold LocationGroup.getWeight. by rewrite decide_True by lia.
Qed.

Lemma selectGroup_interval_witness :
  let w := initialWorld initLocationGroups sampleGame in
  (forall g', g' ∈ [8; 9; 10]%nat -> 0 <= weight (groupAt w g')) /\
  (weightTotal w [8; 9; 10]%nat < 20
   <= weightTotal w [8; 9; 10]%nat + weight (groupAt w 11%nat)) /\
  selectGroup w [8; 9; 10; 11; 12; 13]%nat 20 0 None
  = (Some 11%nat, Some 11%nat).
Proof.
  intros w.
  assert (Hw : forall g', g' ∈ [8; 9; 10]%nat -> 0 <= weight (groupAt w g')).
  { intros g' Hg'. repeat (apply elem_of_cons in Hg' as [->|Hg']);
      [vm_compute; discriminate..|by apply elem_of_nil in Hg']. }
  assert (Hc : weightTotal w [8; 9; 10]%nat < 20
               <= weightTotal w [8; 9; 10]%nat + weight (groupAt w 11%nat))
    by (vm_compute; split; [reflexivity|discriminate]).
  split; [exact Hw|]. split; [exact Hc|].
  exact (selectGroup_interval w [8; 9; 10]%nat 11%nat [12; 13]%nat 20 Hw Hc).
Defined.

(** ** Success and failure *)

(** X11: a call with an empty pool returns true at once, with the list of
    chosen locations as it is and the world untouched.  A call with a pool
    that is not empty returns a false flag exactly when it finds no group
    accessible on entry: once it has entered its loop it returns true or
    does not return, whatever the recursive calls report. *)
Theorem failure_only_on_entry rand depth iterations pool w :
  (pool = [] ->
   determineKeyItemPlacement_impl rand (S depth) iterations pool w
   = Returns {| success := true; placement := chosenLocations w;
                keyItemsLeft := [] |} w) /\
  (pool <> [] ->
   ((exists r w',
       determineKeyItemPlacement_impl rand (S depth) iterations pool w
       = Returns r w' /\ success r = false)
    <-> exists w', getAvailableLocations w = Returns [] w')) /\
  (forall recurse fr r w',
     placementLoop rand recurse iterations fr w = Returns r w' ->
     success r = true).
Proof.
  split; [|split].
  - intros ->. reflexivity.
  - intros Hpool. split.
    + intros (r & w' & Hrun & Hs). exists w'.
      by apply (impl_failure _ _ _ _ _ _ _ Hrun Hs).
    + intros (w' & Hav).
      destruct (impl_empty_snapshot rand depth iterations pool w w' Hpool Hav)
        as [Hrun _].
      by eexists _, _.
  - intros recurse fr r w' Hrun.
    by apply placementLoop_success in Hrun as [? _].
Qed.

Lemma failure_only_on_entry_witness :
  exists r w',
    determineKeyItemPlacement_impl zeros 1 0 [pendant]
      (initialWorld ([], []) sampleGame) = Returns r w' /\
    success r = false.
Proof.
  apply (failure_only_on_entry zeros 0 0 [pendant]
           (initialWorld ([], []) sampleGame)); [discriminate|].
  eexists. vm_compute. reflexivity.
Defined.

(** ** Playing the placement through *)

(** The first pass of a call, taken apart. *)
Lemma tryPlacement_first rand avail pool w fr' w' :
  (forall g, g ∈ avail -> (g < length (locationGroups w))%nat) ->
  tryPlacement rand (newFrame avail pool) w = Returns fr' w' ->
  exists g l grp k,
    g ∈ avail /\ l ∈ locations (groupAt w g) /\
    LocationGroup.removeLocation (groupAt w g) l = Some grp /\
    heap w' = <[l := Location.setKeyItem (locationAt w l) k]> (heap w) /\
    locationGroups w'
    = <[g := LocationGroup.decayWeight grp]> (locationGroups w) /\
    chosenLocations w' = chosenLocations w ++ [l] /\
    game w' = Game.addKeyItem (game w) k /\
    cursor w' = (3 + cursor w)%nat.
Proof.
  intros Hav H. unfold tryPlacement, chooseLocation in H.
  apply bind_Returns in H as (fr1 & w1 & H1 & H).
  apply bind_Returns in H1 as ([] & w0 & [= <-] & H1).
  apply pickLocation_Returns in H1
    as (g & l & grp & Hg & Hl & Hrm & -> & Hheap1 & Hgame1 & Hchosen1 & Hcur1
        & Hgroups1).
  rewrite list_lookup_total_insert_eq, list_insert_insert_eq in Hgroups1
    by (rewrite ?length_insert; by apply Hav).
  apply bind_Returns in H as (fr2 & w2 & H2 & H).
  rewrite pruneKeyItems_run in H2. injection H2 as <- <-.
  match type of H with
  | chooseKeyItem _ ?f _ = _ => set (fr2 := f) in *
  end.
  assert (Hloc2 : location fr2 = Some l) by (subst fr2; by case_decide).
  assert (Htemp2 : keyItemTemp fr2 = None) by (subst fr2; by case_decide).
  clearbody fr2.
  apply chooseKeyItem_Returns in H
    as (k & l' & Hk & Hl' & -> & Hheap3 & Hgroups3 & Hchosen3 & Hcur3 & Hgame3).
  rewrite Hloc2 in Hl'. injection Hl' as <-.
  rewrite Htemp2 in Hgame3.
  exists g, l, grp, k. unfold locationAt in *.
  rewrite Hheap3, Hheap1, Hgroups3, Hgroups1, Hchosen3, Hchosen1, Hgame3, Hgame1,
    Hcur3, Hcur1. done.
Qed.

Lemma collect_snoc g items k :
  collect g (items ++ [k])
  = Game.addKeyItem (Game.updateAvailableCharacters (collect g items)) k.
Proof. unfold collect. by rewrite foldl_snoc. Qed.

Lemma inLogic_snoc groups g placed l k :
  inLogic groups g (placed ++ [(l, k)])
  = inLogic groups g placed
    && reachable groups (Game.updateAvailableCharacters (collect g placed.*2)) l.
Proof.
  revert g. induction placed as [|[l0 k0] placed IH]; intros g.
  - cbn [inLogic app fmap list_fmap collect foldl]. by rewrite andb_true_r.
  - cbn [inLogic app]. rewrite IH. by rewrite andb_assoc.
Qed.

Lemma placedItems_snoc w w' l k :
  l ∉ chosenLocations w ->
  (l < length (heap w))%nat ->
  heap w' = <[l := Location.setKeyItem (locationAt w l) k]> (heap w) ->
  chosenLocations w' = chosenLocations w ++ [l] ->
  placedItems w' = placedItems w ++ [(l, k)].
Proof.
  intros Hl Hlt Hheap Hchosen. unfold placedItems, locationAt.
  rewrite Hchosen, omap_app, Hheap. f_equal.
  - apply list_omap_ext. apply Forall2_same_length_lookup_2; [done|].
    intros i l1 l2 H1 H2. assert (l2 = l1) as -> by congruence.
    rewrite list_lookup_total_insert_ne; [done|].
    intros <-. apply Hl. by eapply list_elem_of_lookup_2.
  - cbn [omap list_omap]. by rewrite list_lookup_total_insert_eq by done.
Qed.

Lemma reachable_intro groups game grp l :
  grp ∈ groups -> accessRule grp game = true -> l ∈ locations grp ->
  reachable groups game l = true.
Proof.
  intros Hgrp Hrule Hl. unfold reachable. apply existsb_exists.
  exists grp. split; [by apply list_elem_of_In|].
  unfold LocationGroup.canAccess. rewrite Hrule. cbn [andb].
  by apply bool_decide_eq_true.
Qed.

(** The first pass of a call keeps [Progress]. *)
Lemma first_pass_Progress rand registry game0 pool w avail w1 fr' w2 :
  Consistent w pool -> Progress registry game0 w ->
  getAvailableLocations w = Returns avail w1 ->
  tryPlacement rand (newFrame avail pool) w1 = Returns fr' w2 ->
  Progress registry game0 w2.
Proof.
  intros Hc Hp Hrun Htry.
  destruct (getAvailableLocations_run w) as (avail' & w1' & Hrun' & Hw1 & Havail).
  rewrite Hrun in Hrun'. injection Hrun' as <- <-.
  assert (Hheap1 : heap w1 = heap w) by (by rewrite Hw1).
  assert (Hgroups1 : locationGroups w1 = locationGroups w) by (by rewrite Hw1).
  assert (Hchosen1 : chosenLocations w1 = chosenLocations w) by (by rewrite Hw1).
  assert (Hcursor1 : cursor w1 = cursor w) by (by rewrite Hw1).
  assert (Hgame1 : game w1 = Game.updateAvailableCharacters (game w))
    by (by rewrite Hw1).
  assert (Hav : forall g, g ∈ avail ->
            (g < length (locationGroups w1))%nat /\
            LocationGroup.canAccess (groupAt w1 g) (game w1) = true).
  { intros g Hg. rewrite Havail in Hg.
    apply list_elem_of_filter in Hg as [[Hacc _] Hseq].
    apply elem_of_seq in Hseq. split; [lia|done]. }
  apply tryPlacement_first in Htry
      as (g & l & grp & k & Hg & Hl & Hrm & Hheap2 & Hgroups2 & Hchosen2 & Hgame2
          & Hcursor2); [|intros g Hg; by apply Hav].
  destruct (Hav g Hg) as [Hlt Hacc]. clear Hav Havail.
  unfold groupAt, locationAt in *.
  rewrite Hheap1 in Hheap2. rewrite Hgroups1 in Hl, Hrm, Hgroups2, Hlt, Hacc.
  rewrite Hchosen1 in Hchosen2. rewrite Hgame1 in Hgame2, Hacc.
  rewrite Hcursor1 in Hcursor2. clear Hheap1 Hgroups1 Hchosen1 Hgame1 Hcursor1 Hw1 Hrun.
  destruct (removeLocation_Some _ _ _ Hrm) as [Hperm Hrule].
  assert (Hgl : locationGroups w !! g = Some (locationGroups w !!! g))
    by (by apply list_lookup_lookup_total_lt).
  assert (Hlgroups : l ∈ concat (locations <$> locationGroups w)).
  { apply elem_of_concat. exists (locations (locationGroups w !!! g)).
    split; [|done]. apply list_elem_of_fmap. eexists. split; [done|].
    by eapply list_elem_of_lookup_2. }
  assert (Hlheap : (l < length (heap w))%nat).
  { apply Hc. apply elem_of_app. by right. }
  assert (Hlchosen : l ∉ chosenLocations w).
  { destruct Hc as [_ Hnd _ _ _ _]. apply NoDup_app in Hnd as (_ & Hdisj & _).
    intros Hin. by apply (Hdisj l). }
  destruct Hp as [Hsites Hgroups Hall Hplaced Hgame Hlogic Hdraws].
  destruct (Forall2_lookup_l _ _ _ _ _ Hgroups Hgl)
    as (grp0 & Hgrp0 & Hrule0 & Hname0 & Hsub0).
  pose proof (placedItems_snoc w w2 l k Hlchosen Hlheap Hheap2 Hchosen2)
    as Hitems.
  split.
  - rewrite Hheap2.
    rewrite <- (list_insert_id registry.1 l (registry.1 !!! l)).
    + apply Forall2_insert; [done|].
      assert (Hsite : sameSite (heap w !!! l) (registry.1 !!! l)).
      { eapply Forall2_lookup_lr; [exact Hsites| |];
          apply list_lookup_lookup_total_lt; [done|].
        by rewrite <- (Forall2_length _ _ _ Hsites). }
      exact Hsite.
    + apply list_lookup_lookup_total_lt.
      by rewrite <- (Forall2_length _ _ _ Hsites).
  - rewrite Hgroups2. rewrite <- (list_insert_id registry.2 g grp0 Hgrp0).
    apply Forall2_insert; [done|]. split; [|split].
    + by rewrite accessRule_decayWeight, Hrule.
    + rewrite <- Hname0. unfold LocationGroup.decayWeight.
      unfold LocationGroup.removeLocation in Hrm.
      destruct (list_remove l _); [|done]. injection Hrm as <-.
      by destruct (weightDecay _).
    + rewrite locations_decayWeight. intros x Hx. apply Hsub0.
      rewrite Hperm. by apply elem_of_cons; right.
  - rewrite <- Hall, Hchosen2, Hgroups2.
    rewrite (concat_locations_insert (locationGroups w) g _
               (LocationGroup.decayWeight grp) l Hgl)
      by (by rewrite locations_decayWeight).
    by rewrite <- app_assoc.
  - by rewrite Hitems, fmap_app, Hplaced, Hchosen2.
  - rewrite Hitems, fmap_app. cbn [fmap list_fmap snd].
    by rewrite collect_snoc, <- Hgame.
  - rewrite Hitems, inLogic_snoc, Hlogic, <- Hgame. cbn [andb].
    apply (reachable_intro _ _ grp0).
    + by eapply list_elem_of_lookup_2.
    + by rewrite <- Hrule0.
    + by apply Hsub0.
  - rewrite Hcursor2, Hchosen2, length_app, Hdraws. simpl. lia.
Qed.

Lemma initialWorld_Progress registry game0 :
  Progress registry game0 (initialWorld registry game0).
Proof.
  split; try done.
  - apply Forall_Forall2_diag, Forall_forall. by intros x _.
  - apply Forall_Forall2_diag, Forall_forall. by intros x _.
Qed.

(** A call entered in a consistent state keeps [Progress]. *)
Lemma impl_Progress rand registry game0 depth iterations pool w r w' :
  Consistent w pool -> Progress registry game0 w ->
  determineKeyItemPlacement_impl rand depth iterations pool w = Returns r w' ->
  Progress registry game0 w'.
Proof.
  revert pool w r w'.
  induction depth as [|d IH]; intros pool w r w' Hc Hp Hrun; [done|].
  simpl in Hrun. case_decide as Hlen.
  { by injection Hrun as _ <-. }
  assert (Hpool : pool <> []) by (by destruct pool).
  destruct (getAvailableLocations_Consistent w pool Hc Hpool)
    as (avail & w1 & Hget & Hc1 & Hkeys & Havail & Hav).
  rewrite (bind_run _ _ _ _ _ Hget) in Hrun.
  rewrite decide_False in Hrun by (by destruct avail).
  destruct iterations as [|n]; [done|].
  simpl in Hrun.
  destruct (tryPlacement_Consistent rand avail pool w1 Hc1 Hpool Havail Hav)
    as (fr1 & w2 & Htry & Hc2 & Hsize).
  rewrite (bind_run _ _ _ _ _ Htry) in Hrun.
  pose proof (first_pass_Progress _ _ _ _ _ _ _ _ _ Hc Hp Hget Htry) as Hp2.
  pose proof (impl_Consistent rand d (S n) (remainingKeyItems fr1) w2 Hc2)
    as Hc3.
  apply bind_Returns in Hrun as (r3 & w3 & Hrec & Hrun).
  rewrite Hrec in Hc3. destruct Hc3 as (Hs & _ & _).
  pose proof (IH _ _ _ _ Hc2 Hp2 Hrec) as Hp3.
  destruct n as [|n]; [done|].
  simpl in Hrun. rewrite Hs in Hrun. by injection Hrun as _ <-.
Qed.

Lemma placedItems_items w ks :
  (fun l => keyItem (locationAt w l)) <$> chosenLocations w = Some <$> ks ->
  (placedItems w).*2 = ks.
Proof.
  unfold placedItems. generalize (chosenLocations w). intros ls. revert ks.
  induction ls as [|l ls IH]; intros [|k ks] H; try done.
  injection H as Hk H. cbn [omap list_omap]. rewrite Hk. cbn.
  f_equal. by apply IH.
Qed.

Lemma Consistent_all_items w :
  Consistent w [] -> (placedItems w).*2 ≡ₚ KeyItems_members.
Proof.
  intros [_ _ _ _ (ks & Hnd & Hmap & Hset) Hpool].
  rewrite (placedItems_items w ks Hmap).
  apply NoDup_Permutation; [done| |].
  - apply (bool_decide_unpack _). vm_compute. exact I.
  - intros k. split; [intros _; by destruct k; vm_compute; set_solver|].
    intros _. apply (elem_of_list_to_set (C := gset KeyItems)).
    rewrite <- Hset. destruct (decide (k ∈ keyItems (game w))) as [|Hn]; [done|].
    apply Hpool in Hn. by apply elem_of_nil in Hn.
Qed.

(** The solve on the registry of the script, with both invariants. *)
Lemma determineKeyItemPlacement_Progress rand depth iterations charlocs
    lockedChars earlyPendant r w :
  determineKeyItemPlacement rand depth iterations charlocs lockedChars
    earlyPendant = Returns r w ->
  success r = true /\ placement r = chosenLocations w /\ Consistent w [] /\
  Progress initLocationGroups (newGame charlocs lockedChars earlyPendant) w.
Proof.
  intros Hrun.
  pose proof (determineKeyItemPlacement_Consistent rand depth iterations
                charlocs lockedChars earlyPendant) as H.
  rewrite Hrun in H. destruct H as (Hs & Hpl & Hc).
  split; [done|]. split; [done|]. split; [done|].
  unfold determineKeyItemPlacement in Hrun.
  destruct getInitialKeyItems_tokens as (pool & Hpool & _ & Htok).
  rewrite Hpool in Hrun.
  eapply impl_Progress; [| |exact Hrun].
  - apply initialWorld_Consistent.
    + apply initLocationGroups_WellFormed.
    + done.
    + intros k. apply tokens_pos_elem_of. rewrite Htok. destruct k; simpl; lia.
  - apply initialWorld_Progress.
Qed.

(** The solve on the registry of the script returns within the bounds. *)
Lemma determineKeyItemPlacement_returns rand depth iterations charlocs
    lockedChars earlyPendant :
  (16 <= depth)%nat -> (2 <= iterations)%nat ->
  exists r w,
    determineKeyItemPlacement rand depth iterations charlocs lockedChars
      earlyPendant = Returns r w.
Proof.
  intros Hd Hi.
  pose proof (determineKeyItemPlacement_Consistent rand depth iterations
                charlocs lockedChars earlyPendant) as H.
  destruct (determineKeyItemPlacement _ _ _ _ _ _) as [r w| | |];
    [|done|lia|lia].
  by exists r, w.
Qed.

(** X12: the placement is in logic.  Whenever the solve returns, the key
    items can be picked up in the order of the returned list: the list
    pairs its locations with the 15 key items, and each location is a member
    (in the registry) of a group that is accessible to a player who holds
    exactly the key items of the locations before it, with the characters
    these key items give.  It does return as soon as 16 nested calls and
    2 iterations per loop are allowed. *)
Theorem placement_in_logic rand depth iterations charlocs lockedChars
    earlyPendant :
  (16 <= depth)%nat -> (2 <= iterations)%nat ->
  exists r w,
    determineKeyItemPlacement rand depth iterations charlocs lockedChars
      earlyPendant = Returns r w /\
    (placedItems w).*1 = placement r /\
    (placedItems w).*2 ≡ₚ KeyItems_members /\
    inLogic initLocationGroups.2 (newGame charlocs lockedChars earlyPendant)
      (placedItems w) = true.
Proof.
  intros Hd Hi.
  pose proof (determineKeyItemPlacement_Consistent rand depth iterations
                charlocs lockedChars earlyPendant) as H.
  destruct (determineKeyItemPlacement _ _ _ _ _ _) as [r w| | |] eqn:Hrun;
    [|done|lia|lia].
  clear H. exists r, w. split; [done|].
  apply determineKeyItemPlacement_Progress in Hrun as (_ & Hpl & Hc & Hp).
  split; [|split].
  - rewrite Hpl. apply Hp.
  - by apply Consistent_all_items.
  - apply Hp.
Qed.

Lemma placement_in_logic_witness :
  exists r w,
    determineKeyItemPlacement zeros 16 2 sampleCharLocations false false
    = Returns r w /\
    (placedItems w).*1 = placement r /\
    (placedItems w).*2 ≡ₚ KeyItems_members /\
    inLogic initLocationGroups.2 sampleGame (placedItems w) = true.
Proof.
  apply (placement_in_logic zeros 16 2 sampleCharLocations false false); lia.
Defined.


(** ** The treasure *)

Lemma randrange_run rand stop w :
  0 < stop ->
  randrange rand stop w
  = Returns (Z.of_nat (rand (cursor w)) `mod` stop)
            (set_cursor w (S (cursor w))).
Proof. intros H. unfold randrange. by rewrite decide_False by lia. Qed.

Lemma choice_outcome {A} rand (seq : list A) w :
  (seq <> [] /\
   exists a, a ∈ seq /\
             choice rand seq w = Returns a (set_cursor w (S (cursor w))))
  \/ (seq = [] /\ choice rand seq w = Raises IndexError).
Proof.
  destruct seq as [|x seq'] eqn:E; [by right|]. left. split; [done|].
  destruct (choice_nonempty rand (x :: seq') w) as (a & Hrun & Ha); [done|].
  by exists a.
Qed.

#[local] Ltac treasure_choice rand n :=
  match goal with
  | |- context [choice rand ?seq ?w1] =>
      let a := fresh "a" in
      let Ha := fresh "Ha" in
      destruct (choice_outcome rand seq w1) as [(_ & a & Ha & ->)|[_ ->]];
      [left; exists a, n; split; [reflexivity|];
       split; [unfold tierTreasures; set_solver|lia]
      |by right]
  end.

(** What [getRandomTreasure] gives: a code of the tier after two or three
    draws, or the [IndexError] of a choice from an empty table. *)
Lemma getRandomTreasure_run rand treasure lootTier w :
  (exists treasureCode n,
      getRandomTreasure rand treasure lootTier w
      = Returns treasureCode (set_cursor w (n + cursor w)) /\
      treasureCode ∈ tierTreasures treasure lootTier /\ (n = 2 \/ n = 3)%nat)
  \/ getRandomTreasure rand treasure lootTier w = Raises IndexError.
Proof.
  unfold getRandomTreasure.
  rewrite (bind_run _ _ _ _ _ (randrange_run rand 11 w ltac:(lia))).
  destruct lootTier; cbv beta iota; case_decide;
    try (by treasure_choice rand 2%nat);
    rewrite (bind_run _ _ _ _ _ (randrange_run rand 100 _ ltac:(lia)));
    repeat case_decide; by treasure_choice rand 3%nat.
Qed.

(** The tables from which no choice can fail. *)
Lemma getRandomTreasure_stocked rand treasure lootTier w :
  mlvlconsumables treasure <> [] -> glvlconsumables treasure <> [] ->
  mlvlitems treasure <> [] -> glvlitems treasure <> [] ->
  hlvlitems treasure <> [] -> alvlitems treasure <> [] ->
  getRandomTreasure rand treasure lootTier w <> Raises IndexError.
Proof.
  intros H1 H2 H3 H4 H5 H6. unfold getRandomTreasure.
  rewrite (bind_run _ _ _ _ _ (randrange_run rand 11 w ltac:(lia))).
  assert (Hc : forall (seq : list Z) w1,
             seq <> [] -> choice rand seq w1 <> Raises IndexError).
  { intros seq w1 Hne.
    destruct (choice_nonempty rand seq w1 Hne) as (a & -> & _). done. }
  assert (Happ : forall l k : list Z, l <> [] \/ k <> [] -> l ++ k <> []).
  { intros l k [H|H] Hnil; apply app_eq_nil in Hnil as [? ?]; done. }
  destruct lootTier; cbv beta iota; case_decide;
    try (apply Hc; auto 6);
    rewrite (bind_run _ _ _ _ _ (randrange_run rand 100 _ ltac:(lia)));
    repeat case_decide; apply Hc; auto 6.
Qed.

(** X14: [getRandomTreasure] returns a code of the tables of the location's
    tier (mid: the two lowest consumable tables and the item tables up to
    the high one; mid-high and high: one level up each), after two draws
    for a consumable and three for an item, and changes nothing else; or it
    raises the [IndexError] of a choice from an empty table, and nothing
    else.  It does not raise when the two middle consumable tables and the
    four item tables have an entry each. *)
Theorem getRandomTreasure_tier rand treasure lootTier w :
  ((exists treasureCode n,
      getRandomTreasure rand treasure lootTier w
      = Returns treasureCode (set_cursor w (n + cursor w)) /\
      treasureCode ∈ tierTreasures treasure lootTier /\ (n = 2 \/ n = 3)%nat)
   \/ getRandomTreasure rand treasure lootTier w = Raises IndexError) /\
  (mlvlconsumables treasure <> [] -> glvlconsumables treasure <> [] ->
   mlvlitems treasure <> [] -> glvlitems treasure <> [] ->
   hlvlitems treasure <> [] -> alvlitems treasure <> [] ->
   getRandomTreasure rand treasure lootTier w <> Raises IndexError).
Proof.
  split; [apply getRandomTreasure_run|apply getRandomTreasure_stocked].
Qed.

Lemma getRandomTreasure_tier_witness :
  getRandomTreasure zeros sampleTreasure High
    (initialWorld initLocationGroups sampleGame) <> Raises IndexError.
Proof.
  apply (getRandomTreasure_tier zeros sampleTreasure High
           (initialWorld initLocationGroups sampleGame)); discriminate.
Defined.

(** ** The ROM *)

Lemma write_lookup_eq (rom : Rom) pos byte : write rom pos byte !! pos = Some byte.
Proof.
  unfold write, Rom in *. case_decide as Hlt.
  - by rewrite list_lookup_insert_eq.
  - rewrite lookup_app_r by lia.
    rewrite lookup_app_r by (rewrite length_replicate; lia).
    rewrite length_replicate.
    by replace (pos - length rom - (pos - length rom))%nat with 0%nat by lia.
Qed.

Lemma write_lookup_ne (rom : Rom) pos byte pos' x :
  pos' <> pos -> rom !! pos' = Some x -> write rom pos byte !! pos' = Some x.
Proof.
  intros Hne Hx. unfold write, Rom in *. case_decide as Hlt.
  - by rewrite list_lookup_insert_ne.
  - by apply lookup_app_l_Some.
Qed.

Lemma applyLog_app rom log1 log2 :
  applyLog rom (log1 ++ log2) = applyLog (applyLog rom log1) log2.
Proof. unfold applyLog. by rewrite foldl_app. Qed.

Lemma applyLog_other rom log pos x :
  (forall offset byte, (offset, byte) ∈ log -> pos <> Z.to_nat offset) ->
  rom !! pos = Some x -> applyLog rom log !! pos = Some x.
Proof.
  revert rom. induction log as [|[offset byte] log IH]; intros rom Hlog Hx.
  - done.
  - change (applyLog rom ((offset, byte) :: log))
      with (applyLog (write rom (Z.to_nat offset) byte) log).
    apply IH.
    + intros o b Hin. apply (Hlog o b). by apply elem_of_cons; right.
    + apply write_lookup_ne; [|done]. apply (Hlog offset byte). by left.
Qed.

(** After writes at distinct offsets every offset holds the byte that was
    written there. *)
Lemma applyLog_lookup rom log offset byte :
  NoDup log.*1 -> Forall (fun e => 0 <= e.1) log ->
  (offset, byte) ∈ log ->
  applyLog rom log !! Z.to_nat offset = Some byte.
Proof.
  revert rom. induction log as [|[o b] log IH]; intros rom Hnd Hpos Hin.
  - by apply elem_of_nil in Hin.
  - change (applyLog rom ((o, b) :: log))
      with (applyLog (write rom (Z.to_nat o) b) log).
    cbn [fmap list_fmap fst] in Hnd. apply NoDup_cons in Hnd as [Hnotin Hnd].
    apply Forall_cons in Hpos as [Ho Hpos]. cbn [fst] in Ho.
    apply elem_of_cons in Hin as [[= -> ->]|Hin].
    + apply applyLog_other; [|apply write_lookup_eq].
      intros o' b' Hin' Heq. apply Hnotin.
      assert (0 <= o') by (by apply (proj1 (Forall_forall _ _) Hpos (o', b'))).
      assert (o' = o) as -> by lia.
      apply list_elem_of_fmap. by exists (o, b').
    + by apply IH.
Qed.

Lemma KeyItems_value_byte k : 0 <= KeyItems_value k <= 255.
Proof. destruct k; simpl; lia. Qed.

Lemma forEach_cons_Done {A B} (body : A -> B -> Outcome A) acc acc' x l :
  body acc x = Done acc' ->
  forEach body acc (x :: l) = forEach body acc' l.
Proof.
  intros H. unfold forEach. cbn [foldl].
  change (mret acc ≫= fun acc0 => body acc0 x) with (body acc x).
  by rewrite H.
Qed.

Lemma stamp_offsets loc byte : (stamp loc byte).*1 = targets loc.
Proof.
  unfold stamp. rewrite <- list_fmap_compose. apply list_fmap_id.
Qed.

Lemma elem_of_stamp loc byte offset b :
  (offset, b) ∈ stamp loc byte <-> offset ∈ targets loc /\ b = byte.
Proof.
  unfold stamp. rewrite list_elem_of_fmap. split.
  - intros (o & [= -> ->] & Ho). done.
  - intros [Ho ->]. by exists offset.
Qed.

(** One pass of the key-item loop. *)
Lemma writeKeyItem_run w (rom : Rom) l k :
  keyItem (locationAt w l) = Some k ->
  Forall (fun offset => 0 <= offset) (targets (locationAt w l)) ->
  writeKeyItem w rom l = Done (applyLog rom (keyItemStamp w l)).
Proof.
  intros Hk Hpos. unfold writeKeyItem, keyItemStamp, stamp, targets in *.
  unfold Location.getKeyItem. rewrite Hk.
  pose proof (KeyItems_value_byte k) as Hbyte.
  apply Forall_cons in Hpos as [Hp Hpos]. unfold seek, pack_B.
  rewrite decide_False by lia. cbn [mbind Outcome_bind mret Outcome_ret from_option].
  rewrite decide_True by done.
  cbn [mbind Outcome_bind mret Outcome_ret].
  destruct (pointer2 (locationAt w l)) as [p2|]; [|done].
  apply Forall_cons in Hpos as [Hp2 _].
  by destruct (decide (p2 < 0)); [lia|].
Qed.

Lemma forEach_writeKeyItem w ls :
  forall rom : Rom,
  (forall l, l ∈ ls ->
     is_Some (keyItem (locationAt w l)) /\
     Forall (fun offset => 0 <= offset) (targets (locationAt w l))) ->
  forEach (writeKeyItem w) rom ls
  = Done (applyLog rom (concat (keyItemStamp w <$> ls))).
Proof.
  induction ls as [|l ls IH]; intros rom Hls; [done|].
  destruct (Hls l) as [[k Hk] Hpos]; [by left|].
  rewrite (forEach_cons_Done _ _ _ _ _ (writeKeyItem_run w rom l k Hk Hpos)).
  rewrite IH by (intros l' Hl'; apply Hls; by right).
  cbn [fmap list_fmap concat]. by rewrite applyLog_app.
Qed.

(** One pass of the treasure loop. *)
Lemma writeTreasure_run rand treasure chosen (rom : Rom) w l :
  stocked treasure ->
  (is_Some (lootTier (locationAt w l)) -> is_Some (pointer2 (locationAt w l))) ->
  Forall (fun offset => 0 <= offset) (targets (locationAt w l)) ->
  exists log n,
    writeTreasure rand treasure chosen (rom, w) l
    = Done (applyLog rom log, set_cursor w (n + cursor w)) /\
    treasureStamp treasure chosen w l log.
Proof.
  intros (H1 & H2 & H3 & H4 & H5 & H6 & Hbytes) Hp2 Hpos.
  unfold writeTreasure, treasureStamp.
  destruct (lootTier (locationAt w l)) as [tier|] eqn:Htier;
    [|exists [], 0%nat; split; [by destruct w|done]].
  case_decide as Hin; [exists [], 0%nat; split; [by destruct w|done]|].
  destruct (getRandomTreasure_run rand treasure tier w)
    as [(code & n & Hrun & Hcode & _)|Hraise];
    [|by apply getRandomTreasure_stocked in Hraise].
  rewrite Hrun.
  assert (Hbyte : 0 <= code <= 255).
  { by apply (proj1 (Forall_forall _ _) (Hbytes tier)). }
  destruct Hp2 as [p2 Hp2]; [done|].
  change (locationAt (set_cursor w (n + cursor w)) l) with (locationAt w l).
  unfold targets in Hpos. rewrite Hp2 in Hpos.
  apply Forall_cons in Hpos as [Hp Hpos]. apply Forall_cons in Hpos as [Hp2' _].
  exists (stamp (locationAt w l) code), n. split; [|by exists code].
  unfold seek, pack_B, stamp, targets. rewrite Hp2.
  destruct (decide (pointer (locationAt w l) < 0)); [lia|].
  destruct (decide (0 <= code <= 255)); [|done].
  cbn [mbind Outcome_bind mret Outcome_ret from_option].
  by destruct (decide (p2 < 0)); [lia|].
Qed.

Lemma treasureStamp_ext treasure chosen w w' l log :
  heap w' = heap w ->
  treasureStamp treasure chosen w l log ->
  treasureStamp treasure chosen w' l log.
Proof. unfold treasureStamp, locationAt. by intros ->. Qed.

(** The treasure loop. *)
Lemma forEach_writeTreasure rand treasure chosen ls :
  forall (rom : Rom) w,
  stocked treasure ->
  (forall l, l ∈ ls ->
     (is_Some (lootTier (locationAt w l)) ->
      is_Some (pointer2 (locationAt w l))) /\
     Forall (fun offset => 0 <= offset) (targets (locationAt w l))) ->
  exists logs w',
    forEach (writeTreasure rand treasure chosen) (rom, w) ls
    = Done (applyLog rom (concat logs), w') /\
    heap w' = heap w /\ locationGroups w' = locationGroups w /\
    game w' = game w /\ chosenLocations w' = chosenLocations w /\
    Forall2 (treasureStamp treasure chosen w) ls logs.
Proof.
  induction ls as [|l ls IH]; intros rom w Hst Hls.
  { exists [], w. by repeat split. }
  destruct (Hls l) as [Hp2 Hpos]; [by left|].
  destruct (writeTreasure_run rand treasure chosen rom w l Hst Hp2 Hpos)
    as (log & n & Hrun & Hstamp).
  rewrite (forEach_cons_Done _ _ _ _ _ Hrun).
  destruct (IH (applyLog rom log) (set_cursor w (n + cursor w)) Hst)
    as (logs & w' & Hloop & Hheap & Hgroups & Hgame & Hchosen & Hall).
  { intros l' Hl'. apply Hls. by right. }
  exists (log :: logs), w'. rewrite Hloop. cbn [concat].
  rewrite applyLog_app. split; [done|]. repeat split; try done.
  constructor; [done|].
  eapply Forall2_impl; [exact Hall|].
  intros l' log' H'. by apply (treasureStamp_ext _ _ (set_cursor w (n + cursor w))).
Qed.

(** ** Distinct offsets *)

Lemma concat_NoDup_lookup {A} (ts : list (list A)) i a :
  NoDup (concat ts) -> ts !! i = Some a -> NoDup a.
Proof.
  revert i. induction ts as [|t ts IH]; intros i Hnd Hi; [done|].
  cbn [concat] in Hnd. apply NoDup_app in Hnd as (Ht & _ & Hts).
  destruct i as [|i]; [by injection Hi as <-|]. by apply (IH i).
Qed.

Lemma concat_NoDup_disjoint {A} (ts : list (list A)) i j a b x :
  NoDup (concat ts) -> ts !! i = Some a -> ts !! j = Some b ->
  x ∈ a -> x ∈ b -> i = j.
Proof.
  revert i j. induction ts as [|t ts IH]; intros i j Hnd Hi Hj Ha Hb; [done|].
  cbn [concat] in Hnd. apply NoDup_app in Hnd as (Ht & Hdisj & Hts).
  destruct i as [|i], j as [|j]; [done| | |f_equal; by apply IH].
  - injection Hi as <-. destruct (Hdisj x Ha).
    apply elem_of_concat. exists b. split; [|done].
    by eapply list_elem_of_lookup_2.
  - injection Hj as <-. destruct (Hdisj x Hb).
    apply elem_of_concat. exists a. split; [|done].
    by eapply list_elem_of_lookup_2.
Qed.

Lemma stamps_NoDup (ts : list (list Z)) (ls : list nat) (offs : list (list Z)) :
  NoDup (concat ts) -> NoDup ls ->
  Forall2 (fun l o => o = [] \/ ts !! l = Some o) ls offs ->
  NoDup (concat offs).
Proof.
  intros Hts Hls Hall. induction Hall as [|l o ls offs Ho Hall IH].
  { constructor. }
  apply NoDup_cons in Hls as [Hl Hls]. cbn [concat]. apply NoDup_app.
  split; [|split; [|by apply IH]].
  - destruct Ho as [->|Ho]; [constructor|by eapply concat_NoDup_lookup].
  - intros x Hx Hx'. apply elem_of_concat in Hx' as (o' & Ho' & Hxo').
    apply list_elem_of_lookup in Ho' as [i Hi].
    destruct (Forall2_lookup_r _ _ _ _ _ Hall Hi) as (l' & Hl' & Hol').
    destruct Ho as [->|Ho]; [by apply elem_of_nil in Hx|].
    destruct Hol' as [->|Hol']; [by apply elem_of_nil in Hxo'|].
    assert (l = l') as -> by (by eapply (concat_NoDup_disjoint ts)).
    apply Hl. by eapply list_elem_of_lookup_2.
Qed.

Lemma fmap_concat {A B} (f : A -> B) (ls : list (list A)) :
  f <$> concat ls = concat ((fun l : list A => f <$> l) <$> ls).
Proof.
  induction ls as [|l ls IH]; [done|].
  cbn [concat fmap list_fmap]. by rewrite fmap_app, IH.
Qed.

Lemma sameSite_targets a b :
  sameSite a b -> targets a = targets b /\ lootTier a = lootTier b.
Proof. intros (_ & Hp & Hp2 & Ht). unfold targets. by rewrite Hp, Hp2, Ht. Qed.

Lemma Forall2_elem_of {A B} (P : A -> B -> Prop) l k :
  Forall2 P l k -> Forall2 (fun x y => x ∈ l /\ P x y) l k.
Proof.
  intros H. apply Forall2_same_length_lookup_2; [by eapply Forall2_length|].
  intros i x y Hx Hy. split; [by eapply list_elem_of_lookup_2|].
  by eapply Forall2_lookup_lr.
Qed.

Lemma Forall2_elem_of_r {A B} (P : A -> B -> Prop) l k y :
  Forall2 P l k -> y ∈ k -> exists x, x ∈ l /\ P x y.
Proof.
  intros H Hy. apply list_elem_of_lookup in Hy as [i Hi].
  destruct (Forall2_lookup_r _ _ _ _ _ H Hi) as (x & Hx & HP).
  exists x. split; [by eapply list_elem_of_lookup_2|done].
Qed.

Lemma Forall2_elem_of_l {A B} (P : A -> B -> Prop) l k x :
  Forall2 P l k -> x ∈ l -> exists y, y ∈ k /\ P x y.
Proof.
  intros H Hx. apply list_elem_of_lookup in Hx as [i Hi].
  destruct (Forall2_lookup_l _ _ _ _ _ H Hi) as (y & Hy & HP).
  exists y. split; [by eapply list_elem_of_lookup_2|done].
Qed.

(** The two loops of the writer, on any world whose locations have
    distinct offsets. *)
Lemma write_loops rand treasure (rom : Rom) w remaining :
  stocked treasure ->
  NoDup (concat (targets <$> heap w)) ->
  (forall l, (l < length (heap w))%nat ->
     Forall (fun offset => 0 <= offset) (targets (locationAt w l)) /\
     (is_Some (lootTier (locationAt w l)) ->
      is_Some (pointer2 (locationAt w l)))) ->
  NoDup (chosenLocations w ++ remaining) ->
  (forall l, l ∈ chosenLocations w ++ remaining -> (l < length (heap w))%nat) ->
  (forall l, l ∈ chosenLocations w -> is_Some (keyItem (locationAt w l))) ->
  exists rom1 rom' w',
    forEach (writeKeyItem w) rom (chosenLocations w) = Done rom1 /\
    forEach (writeTreasure rand treasure (chosenLocations w)) (rom1, w)
      remaining = Done (rom', w') /\
    heap w' = heap w /\ locationGroups w' = locationGroups w /\
    game w' = game w /\ chosenLocations w' = chosenLocations w /\
    (forall l k offset,
       l ∈ chosenLocations w -> keyItem (locationAt w l) = Some k ->
       offset ∈ targets (locationAt w l) ->
       rom' !! Z.to_nat offset = Some (KeyItems_value k)) /\
    (forall l tier,
       l ∈ remaining -> lootTier (locationAt w l) = Some tier ->
       exists treasureCode,
         treasureCode ∈ tierTreasures treasure tier /\
         forall offset, offset ∈ targets (locationAt w l) ->
                        rom' !! Z.to_nat offset = Some treasureCode) /\
    (forall pos x,
       rom !! pos = Some x ->
       (forall l offset,
          l ∈ chosenLocations w
          \/ (l ∈ remaining /\ is_Some (lootTier (locationAt w l))) ->
          offset ∈ targets (locationAt w l) -> pos <> Z.to_nat offset) ->
       rom' !! pos = Some x).
Proof.
  intros Hst Hdistinct Hsites Hnd Hrefs Hkeys.
  set (chosen := chosenLocations w) in *.
  assert (Hsite : forall l, l ∈ chosen ++ remaining ->
            Forall (fun offset => 0 <= offset) (targets (locationAt w l)) /\
            (is_Some (lootTier (locationAt w l)) ->
             is_Some (pointer2 (locationAt w l)))).
  { intros l Hl. by apply Hsites, Hrefs. }
  rewrite forEach_writeKeyItem
    by (intros l Hl; split; [by apply Hkeys|apply Hsite, elem_of_app; by left]).
  destruct (forEach_writeTreasure rand treasure chosen remaining
              (applyLog rom (concat (keyItemStamp w <$> chosen))) w Hst)
    as (logsT & w' & Hloop & Hheap & Hgroups & Hgame & Hchosen & HallT).
  { intros l Hl. destruct (Hsite l) as [? ?]; [apply elem_of_app; by right|].
    done. }
  eexists _, _, w'. split; [reflexivity|]. split; [exact Hloop|].
  split; [done|]. split; [done|]. split; [done|]. split; [done|].
  rewrite <- applyLog_app, <- concat_app.
  set (logs := (keyItemStamp w <$> chosen) ++ logsT).
  (* every location of the two loops with its writes *)
  pose (Rel := fun (l : LocRef) (log : list (Z * Z)) =>
                 (l ∈ chosen /\ log = keyItemStamp w l) \/
                 (l ∈ remaining /\ treasureStamp treasure chosen w l log)).
  assert (Hall : Forall2 Rel (chosen ++ remaining) logs).
  { apply Forall2_app.
    - apply Forall2_fmap_r.
      apply Forall2_same_length_lookup_2; [done|].
      intros i l l' Hl Hl'. assert (l' = l) as -> by congruence.
      left. split; [by eapply list_elem_of_lookup_2|done].
    - eapply Forall2_impl; [apply Forall2_elem_of, HallT|].
      intros l log [Hl Hlog]. by right. }
  assert (Hshape : forall l log, l ∈ chosen ++ remaining -> Rel l log ->
            log = [] \/
            exists byte, log = stamp (locationAt w l) byte /\
                         (l ∈ chosen
                          \/ (l ∈ remaining /\
                              is_Some (lootTier (locationAt w l))))).
  { intros l log Hl [[Hlc ->]|[Hlr Hstamp]].
    - unfold keyItemStamp. destruct (keyItem (locationAt w l)); [|by left].
      right. eexists. split; [done|by left].
    - unfold treasureStamp in Hstamp.
      destruct (lootTier (locationAt w l)) as [tier|]; [|by left].
      case_decide; [by left|]. destruct Hstamp as (code & _ & ->).
      right. exists code. split; [done|]. right. by split. }
  assert (Hentry : forall offset byte,
            (offset, byte) ∈ concat logs ->
            exists l, (l ∈ chosen
                       \/ (l ∈ remaining /\
                           is_Some (lootTier (locationAt w l)))) /\
                      (l < length (heap w))%nat /\
                      offset ∈ targets (locationAt w l)).
  { intros offset byte Hin. apply elem_of_concat in Hin as (log & Hlog & Hin).
    destruct (Forall2_elem_of_r _ _ _ _ Hall Hlog) as (l & Hl & Hrel).
    destruct (Hshape l log Hl Hrel) as [->|(b & -> & Hwhich)];
      [by apply elem_of_nil in Hin|].
    apply elem_of_stamp in Hin as [Hoff _].
    exists l. split; [done|]. split; [by apply Hrefs|done]. }
  assert (Hoffsets : NoDup (concat logs).*1).
  { rewrite fmap_concat.
    apply (stamps_NoDup (targets <$> heap w) (chosen ++ remaining));
      [done|done|].
    apply Forall2_fmap_r.
    eapply Forall2_impl; [apply Forall2_elem_of, Hall|].
    intros l log [Hl Hrel]. cbv beta.
    destruct (Hshape l log Hl Hrel) as [->|(b & -> & _)]; [by left|].
    right. rewrite stamp_offsets, list_lookup_fmap.
    unfold locationAt.
    by rewrite (list_lookup_lookup_total_lt (heap w) l) by (by apply Hrefs). }
  assert (Hpos : Forall (fun e : Z * Z => 0 <= e.1) (concat logs)).
  { apply Forall_forall. intros [offset byte] Hin.
    destruct (Hentry offset byte Hin) as (l & _ & Hl & Hoff).
    destruct (Hsites l Hl) as [Hnonneg _].
    by apply (proj1 (Forall_forall _ _) Hnonneg). }
  split; [|split].
  - intros l k offset Hl Hk Hoff.
    apply applyLog_lookup; [done|done|].
    apply elem_of_concat. exists (keyItemStamp w l). split.
    + apply elem_of_app. left. apply list_elem_of_fmap. by exists l.
    + unfold keyItemStamp. rewrite Hk. by apply elem_of_stamp.
  - intros l tier Hl Htier.
    destruct (Forall2_elem_of_l _ _ _ _ HallT Hl) as (log & Hlog & Hstamp).
    unfold treasureStamp in Hstamp. rewrite Htier in Hstamp.
    rewrite decide_False in Hstamp.
    2:{ apply NoDup_app in Hnd as (_ & Hdisj & _). intros Hc.
        by apply (Hdisj l). }
    destruct Hstamp as (code & Hcode & ->).
    exists code. split; [done|]. intros offset Hoff.
    apply applyLog_lookup; [done|done|].
    apply elem_of_concat. exists (stamp (locationAt w l) code). split.
    + apply elem_of_app. by right.
    + by apply elem_of_stamp.
  - intros pos x Hx Hfree. apply applyLog_other; [|done].
    intros offset byte Hin.
    destruct (Hentry offset byte Hin) as (l & Hwhich & _ & Hoff).
    by apply (Hfree l).
Qed.

(** ** The registry of the script, as the writer needs it *)

Lemma registry_offsets : NoDup (concat (targets <$> initLocationGroups.1)).
Proof. apply (bool_decide_unpack _). vm_compute. exact I. Qed.

Lemma registry_sites :
  Forall (fun loc =>
            Forall (fun offset => 0 <= offset) (targets loc) /\
            (is_Some (lootTier loc) -> is_Some (pointer2 loc)))
         initLocationGroups.1.
Proof. apply (bool_decide_unpack _). vm_compute. exact I. Qed.

Lemma registry_members :
  Forall (fun l => l ∈ concat (locations <$> initLocationGroups.2))
         (seq 0 (length initLocationGroups.1)).
Proof. apply (bool_decide_unpack _). vm_compute. exact I. Qed.

Lemma Forall2_fmap_eq {A B} (f : A -> B) l k :
  Forall2 (fun a b => f a = f b) l k -> f <$> l = f <$> k.
Proof. induction 1 as [|a b l k H _ IH]; [done|]. cbn. by rewrite H, IH. Qed.

Lemma elem_of_placedItems w l k :
  (l, k) ∈ placedItems w <->
  l ∈ chosenLocations w /\ keyItem (locationAt w l) = Some k.
Proof.
  unfold placedItems. rewrite list_elem_of_omap. split.
  - intros (x & Hx & Hk).
    destruct (keyItem (locationAt w x)) as [k'|] eqn:E; [|done].
    injection Hk as -> ->. done.
  - intros [Hl Hk]. exists l. split; [done|]. by rewrite Hk.
Qed.

(** X15: the ROM [writeKeyItems] leaves.  With tables from which every
    choice succeeds and whose codes are bytes, and bounds that let the solve
    finish, [writeKeyItems] returns after writing, for every random source,
    character placement, pair of flags and ROM; the location objects are
    those of the registry apart from their key items, and the chosen
    locations hold the 15 key items.  In the ROM it leaves, every offset
    (the pointer, and the second pointer if there is one) of a chosen
    location holds the value of that location's key item; the offsets of
    every baseline location that was not chosen hold one treasure code of
    the location's tier; and every byte of the ROM at another position is
    as it was. *)
Theorem writeKeyItems_rom rand treasure depth iterations (rom : Rom)
    charLocations lockedChars earlyPendant :
  stocked treasure -> (16 <= depth)%nat -> (2 <= iterations)%nat ->
  exists rom' w,
    writeKeyItems rand treasure depth iterations rom charLocations lockedChars
      earlyPendant = Done (Written rom' w) /\
    Forall2 sameSite (heap w) initLocationGroups.1 /\
    (placedItems w).*2 ≡ₚ KeyItems_members /\
    (forall l k offset,
       (l, k) ∈ placedItems w -> offset ∈ targets (locationAt w l) ->
       rom' !! Z.to_nat offset = Some (KeyItems_value k)) /\
    (forall l tier,
       (l < length (heap w))%nat -> l ∉ chosenLocations w ->
       lootTier (locationAt w l) = Some tier ->
       exists treasureCode,
         treasureCode ∈ tierTreasures treasure tier /\
         forall offset, offset ∈ targets (locationAt w l) ->
                        rom' !! Z.to_nat offset = Some treasureCode) /\
    (forall pos x,
       rom !! pos = Some x ->
       (forall l offset,
          (l < length (heap w))%nat ->
          l ∈ chosenLocations w \/ is_Some (lootTier (locationAt w l)) ->
          offset ∈ targets (locationAt w l) -> pos <> Z.to_nat offset) ->
       rom' !! pos = Some x).
Proof.
  intros Hst Hd Hi.
  destruct (determineKeyItemPlacement_returns rand depth iterations
              charLocations lockedChars earlyPendant Hd Hi) as (r & w & Hrun).
  unfold writeKeyItems. rewrite Hrun.
  apply determineKeyItemPlacement_Progress in Hrun as (-> & -> & Hc & Hp).
  destruct Hp as [Hsites _ Hall _ _ _ _].
  pose proof (Forall2_length _ _ _ Hsites) as Hlen.
  assert (Hsite : forall l, (l < length (heap w))%nat ->
            sameSite (locationAt w l) (initLocationGroups.1 !!! l)).
  { intros l Hl. eapply Forall2_lookup_lr; [exact Hsites| |];
      apply list_lookup_lookup_total_lt; [done|by rewrite <- Hlen]. }
  set (remaining := concat (LocationGroup.getLocations <$> locationGroups w)).
  assert (Hrem : remaining = concat (locations <$> locationGroups w)) by done.
  destruct (write_loops rand treasure rom w remaining Hst)
    as (rom1 & rom' & w' & Hkeys & Hloot & Hheap & _ & _ & Hchosen & Ha & Hb
        & Hother).
  - rewrite (Forall2_fmap_eq targets (heap w) initLocationGroups.1);
      [apply registry_offsets|].
    eapply Forall2_impl; [exact Hsites|]. intros a b Hab.
    by apply sameSite_targets.
  - intros l Hl. destruct (Hsite l Hl) as (_ & Hptr & Hptr2 & Htier).
    destruct (sameSite_targets _ _ (Hsite l Hl)) as [Htargets _].
    rewrite Htargets, Htier, Hptr2.
    apply (proj1 (Forall_lookup _ _) registry_sites l).
    apply list_lookup_lookup_total_lt. by rewrite <- Hlen.
  - rewrite Hrem. apply Hc.
  - rewrite Hrem. apply Hc.
  - intros l Hl. by apply (bijective_total _ _ (Consistent_Bijective w Hc)).
  - rewrite Hkeys. cbn [mbind Outcome_bind]. rewrite Hloot.
    cbn [mbind Outcome_bind].
    assert (Hat : forall l, locationAt w' l = locationAt w l)
      by (intros l; unfold locationAt; by rewrite Hheap).
    exists rom', w'. split; [done|]. rewrite Hheap, Hchosen.
    assert (Hitems : placedItems w' = placedItems w).
    { unfold placedItems. rewrite Hchosen. apply list_omap_ext.
      apply Forall_Forall2_diag, Forall_forall. intros l _. by rewrite Hat. }
    rewrite Hitems.
    split; [done|]. split; [by apply Consistent_all_items|].
    split; [|split].
    + intros l k offset Hlk Hoff. rewrite Hat in Hoff.
      apply elem_of_placedItems in Hlk as [Hl Hk]. by apply (Ha l).
    + intros l tier Hl Hnot Htier. rewrite Hat in Htier.
      destruct (Hb l tier) as (code & Hcode & Hrom); [|done|].
      * assert (Hin : l ∈ chosenLocations w ++ remaining).
        { rewrite Hrem, Hall.
          apply (proj1 (Forall_forall _ _) registry_members).
          apply elem_of_seq. rewrite <- Hlen. lia. }
        apply elem_of_app in Hin as [?|?]; done.
      * exists code. split; [done|]. intros offset Hoff. rewrite Hat in Hoff.
        by apply Hrom.
    + intros pos x Hx Hfree. apply Hother; [done|].
      intros l offset Hwhich Hoff.
      apply (Hfree l); [| |by rewrite Hat].
      * apply Hc. rewrite <- Hrem.
        destruct Hwhich as [?|[? _]]; apply elem_of_app; auto.
      * rewrite Hat. destruct Hwhich as [?|[_ ?]]; auto.
Qed.

Lemma stocked_sampleTreasure : stocked sampleTreasure.
Proof.
  repeat split; try discriminate.
  intros []; apply (bool_decide_unpack _); vm_compute; exact I.
Qed.

Lemma writeKeyItems_rom_witness :
  stocked sampleTreasure /\
  exists rom' w,
    writeKeyItems zeros sampleTreasure 16 2 [0; 0; 0] sampleCharLocations
      false false = Done (Written rom' w) /\
    (placedItems w).*2 ≡ₚ KeyItems_members /\
    (forall l k offset,
       (l, k) ∈ placedItems w -> offset ∈ targets (locationAt w l) ->
       rom' !! Z.to_nat offset = Some (KeyItems_value k)).
Proof.
  split; [exact stocked_sampleTreasure|].
  destruct (writeKeyItems_rom zeros sampleTreasure 16 2 [0; 0; 0]
              sampleCharLocations false false stocked_sampleTreasure
              ltac:(lia) ltac:(lia))
    as (rom' & w & Hrun & _ & Hitems & Hkeys & _).
  exists rom', w. split; [exact Hrun|]. split; [exact Hitems|exact Hkeys].
Defined.

(** X16: [writeKeyItems] never takes its failure branch: whatever the
    random source, the tables, the ROM, the character placement, the flags
    and the bounds, it does not end with the message that the key items
    could not be placed. *)
Theorem writeKeyItems_never_unable rand treasure depth iterations (rom : Rom)
    charLocations lockedChars earlyPendant :
  writeKeyItems rand treasure depth iterations rom charLocations lockedChars
    earlyPendant <> Done Unable.
Proof.
  unfold writeKeyItems.
  pose proof (determineKeyItemPlacement_Consistent rand depth iterations
                charLocations lockedChars earlyPendant) as H.
  destruct (determineKeyItemPlacement _ _ _ _ _ _) as [r w| | |]; try done.
  destruct H as (-> & _ & _).
  destruct (forEach (writeKeyItem w) rom (placement r)) as [rom1| |];
    cbn [mbind Outcome_bind]; try done.
  destruct (forEach _ _ _) as [[rom2 w2]| |]; cbn [mbind Outcome_bind]; done.
Qed.

(** X17: the values of the key items are bytes, so [st.pack] accepts each
    of them, and they are pairwise distinct, so the byte at an offset of a
    chosen location tells which key item was placed there. *)
Theorem key_item_bytes k :
  pack_B (KeyItems_value k) = Done (KeyItems_value k) /\
  forall k', KeyItems_value k = KeyItems_value k' -> k = k'.
Proof.
  split.
  - unfold pack_B. rewrite decide_True by apply KeyItems_value_byte. done.
  - intros k'. by destruct k, k'.
Qed.

(** ** A solve that cannot succeed *)

(** No group is in the snapshot when no group has a location. *)
Lemma getAvailableLocations_none w :
  (forall g, locations (groupAt w g) = []) ->
  getAvailableLocations w
  = Returns [] (set_game w (Game.updateAvailableCharacters (game w))).
Proof.
  intros Hempty.
  destruct (getAvailableLocations_run w) as (avail & w1 & Hrun & Hw1 & Havail).
  rewrite Hrun. subst w1.
  destruct avail as [|g rest]; [done|].
  assert (Hg : g ∈ g :: rest) by (by left).
  rewrite Havail in Hg. apply list_elem_of_filter in Hg as [[_ Hcount] _].
  unfold LocationGroup.getAvailableLocationCount in Hcount.
  change (groupAt (set_game w _) g) with (groupAt w g) in Hcount.
  rewrite Hempty in Hcount. simpl in Hcount. lia.
Qed.

(** A pass through the loop of a call whose snapshot is the one group [g],
    when [g] holds the one location [l] that is left (before the first pass)
    or [l] is the location chosen in the pass before. *)
Lemma tryPlacement_starved rand S0 g l fr w :
  availableLocations fr = [g] ->
  (g < length (locationGroups w))%nat ->
  (forall g', g' <> g -> locations (groupAt w g') = []) ->
  1 <= weight (groupAt w g) ->
  poolOf S0 fr -> (2 <= size S0)%nat ->
  (locationGroup fr = None /\ locations (groupAt w g) = [l]) \/
  (locationGroup fr = Some g /\ location fr = Some l /\
   locations (groupAt w g) = []) ->
  exists fr' w',
    tryPlacement rand fr w = Returns fr' w' /\
    availableLocations fr' = [g] /\
    keyItemConfirmed fr' = keyItemConfirmed fr /\
    locationGroup fr' = Some g /\ location fr' = Some l /\
    poolOf S0 fr' /\ remainingKeyItems fr' <> [] /\
    length (locationGroups w') = length (locationGroups w) /\
    (forall g', locations (groupAt w' g') = []) /\
    1 <= weight (groupAt w' g).
Proof.
  intros Havail Hg Hothers Hweight Hpool Hsize Hcase.
  (* the undo *)
  destruct (undoPreviousChoice_Returns fr w)
    as (w1 & Hundo & _ & _ & _ & _ & Hsame & Hredo).
  assert (Hw1 : length (locationGroups w1) = length (locationGroups w) /\
                locations (groupAt w1 g) = [l] /\
                1 <= weight (groupAt w1 g) /\
                forall g', g' <> g -> locations (groupAt w1 g') = []).
  { destruct Hcase as [[Hnone Hlocs]|(Hsome & Hloc & Hlocs)].
    - by rewrite (Hsame Hnone).
    - unfold groupAt in *. rewrite (Hredo g l Hsome Hloc Hg).
      rewrite length_insert, list_lookup_total_insert_eq by done.
      split; [done|]. split; [|split].
      + rewrite locations_undoWeightDecay. unfold LocationGroup.addLocation.
        rewrite Hlocs. by rewrite decide_False by apply not_elem_of_nil.
      + apply undoWeightDecay_floor. unfold LocationGroup.addLocation.
        by case_decide.
      + intros g' Hne. rewrite list_lookup_total_insert_ne by done.
        by apply Hothers. }
  destruct Hw1 as (Hlen1 & Hlocs1 & Hweight1 & Hothers1).
  (* the choice of the location *)
  destruct (pickLocation_progress rand fr w1) as (fr1 & w2 & Hpick).
  { by rewrite Havail. }
  { intros g0 Hg0. rewrite Havail in Hg0.
    apply list_elem_of_singleton in Hg0 as ->. split; [done|].
    by rewrite Hlocs1. }
  pose proof Hpick as Hpick'.
  apply pickLocation_Returns in Hpick'
    as (g0 & l0 & grp & Hg0 & Hl0 & Hrm & Hfr1 & _ & _ & _ & _ & Hgroups2).
  rewrite Havail in Hg0. apply list_elem_of_singleton in Hg0 as ->.
  rewrite Hlocs1 in Hl0. apply list_elem_of_singleton in Hl0 as ->.
  rewrite list_lookup_total_insert_eq, list_insert_insert_eq in Hgroups2
    by (rewrite ?length_insert; lia).
  apply removeLocation_Some in Hrm as [Hperm _].
  rewrite Hlocs1 in Hperm.
  assert (Hgrp : locations grp = []).
  { apply Permutation_length in Hperm. simpl in Hperm.
    destruct (locations grp); [done|simpl in Hperm; lia]. }
  (* the choice of the key item *)
  pose proof (pruneKeyItems_run fr1 w2) as Hprune.
  set (fr2 := if decide (Game.getKeyItemCount (game w2) = 10%nat)
              then rebind_remainingKeyItems fr1 (collapse (remainingKeyItems fr1))
              else fr1) in Hprune.
  assert (Hfr2 : availableLocations fr2 = [g] /\
                 keyItemConfirmed fr2 = keyItemConfirmed fr /\
                 locationGroup fr2 = Some g /\ location fr2 = Some l /\
                 keyItemTemp fr2 = keyItemTemp fr /\
                 list_to_set (C := gset KeyItems) (remainingKeyItems fr2)
                 = list_to_set (remainingKeyItems fr)).
  { subst fr2 fr1. case_decide; cbn; rewrite ?list_to_set_collapse; done. }
  destruct Hfr2 as (Hav2 & Hconf2 & Hgrp2 & Hloc2 & Htemp2 & Hset2).
  assert (Hne2 : remainingKeyItems fr2 <> []).
  { intros Hnil. rewrite Hnil in Hset2. unfold poolOf in Hpool.
    destruct (keyItemTemp fr) as [kt|].
    - destruct Hpool as [Hkt Hset]. rewrite Hset in Hset2.
      assert (Hsz : size (S0 ∖ {[kt]}) = 0%nat)
        by (by rewrite <- Hset2).
      rewrite size_difference, size_singleton in Hsz
        by (by apply singleton_subseteq_l). lia.
    - rewrite Hpool in Hset2.
      assert (Hsz : size S0 = 0%nat) by (by rewrite <- Hset2). lia. }
  destruct (chooseKeyItem_progress rand fr2 w2 Hne2) as (fr3 & w3 & Hkey);
    [by rewrite Hloc2|].
  assert (Htry : tryPlacement rand fr w = Returns fr3 w3).
  { unfold tryPlacement, chooseLocation.
    assert (Hchoose : (undoPreviousChoice fr ≫= fun _ => pickLocation rand fr) w
                      = Returns fr1 w2).
    { by rewrite (bind_run _ _ _ _ _ Hundo). }
    rewrite (bind_run _ _ _ _ _ Hchoose).
    by rewrite (bind_run _ _ _ _ _ Hprune). }
  exists fr3, w3. split; [exact Htry|].
  destruct (tryPlacement_poolOf rand S0 fr w fr3 w3 Hpool Htry)
    as [Hpool3 Hdistinct].
  apply chooseKeyItem_Returns in Hkey
    as (k & l' & _ & _ & Hfr3 & _ & Hgroups3 & _).
  assert (Hne3 : remainingKeyItems fr3 <> []).
  { intros Hnil. rewrite Hnil in Hdistinct.
    change (distinct []) with (size (∅ : gset KeyItems)) in Hdistinct.
    rewrite size_empty in Hdistinct. lia. }
  rewrite Hfr3 in Hne3, Hpool3 |- *. cbn.
  split; [done|]. split; [done|]. split; [done|]. split; [done|].
  split; [exact Hpool3|]. split; [exact Hne3|].
  unfold groupAt in *. rewrite Hgroups3, Hgroups2, length_insert.
  split; [done|]. split.
  - intros g'. destruct (decide (g' = g)) as [->|Hne].
    + rewrite list_lookup_total_insert_eq by lia.
      by rewrite locations_decayWeight.
    + rewrite list_lookup_total_insert_ne by done. by apply Hothers1.
  - rewrite list_lookup_total_insert_eq by lia. apply decayWeight_floor.
Qed.

(** The loop of such a call never ends: every recursive call finds no
    location and reports a failure. *)
Lemma placementLoop_starved rand S0 g l depth budget iterations :
  forall fr w,
  availableLocations fr = [g] -> keyItemConfirmed fr = false ->
  (g < length (locationGroups w))%nat ->
  (forall g', g' <> g -> locations (groupAt w g') = []) ->
  1 <= weight (groupAt w g) ->
  poolOf S0 fr -> (2 <= size S0)%nat ->
  (locationGroup fr = None /\ locations (groupAt w g) = [l]) \/
  (locationGroup fr = Some g /\ location fr = Some l /\
   locations (groupAt w g) = []) ->
  placementLoop rand (determineKeyItemPlacement_impl rand (S depth) budget)
    iterations fr w = OutOfIterations.
Proof.
  induction iterations as [|n IH];
    intros fr w Havail Hconf Hg Hothers Hweight Hpool Hsize Hcase; [done|].
  cbn [placementLoop]. rewrite Hconf.
  destruct (tryPlacement_starved rand S0 g l fr w Havail Hg Hothers Hweight
              Hpool Hsize Hcase)
    as (fr' & w' & Htry & Havail' & Hconf' & Hgrp' & Hloc' & Hpool' & Hne'
        & Hlen' & Hempty' & Hweight').
  rewrite (bind_run _ _ _ _ _ Htry).
  destruct (impl_empty_snapshot rand depth budget (remainingKeyItems fr') w' _
              Hne' (getAvailableLocations_none w' Hempty')) as [Hrec _].
  rewrite (bind_run _ _ _ _ _ Hrec). cbn [success keyItemsLeft].
  apply IH.
  - exact Havail'.
  - reflexivity.
  - cbn [locationGroups set_game]. by rewrite Hlen'.
  - intros g' _. exact (Hempty' g').
  - exact Hweight'.
  - exact Hpool'.
  - exact Hsize.
  - right. split; [exact Hgrp'|]. split; [exact Hloc'|exact (Hempty' g)].
Qed.

Lemma singleton_list (g : nat) (l : list nat) :
  NoDup l -> (forall x, x ∈ l <-> x = g) -> l = [g].
Proof.
  intros Hnd Hiff. destruct l as [|x l].
  - assert (H : g ∈ @nil nat) by (by apply Hiff). by apply elem_of_nil in H.
  - assert (x = g) as -> by (apply Hiff; by left).
    destruct l as [|y l]; [done|].
    assert (y = g) as -> by (apply Hiff; right; by left).
    apply NoDup_cons in Hnd as [Hnotin _]. destruct Hnotin. by left.
Qed.

(** X18: a solve that cannot succeed does not end.  When one group holds
    the only location that is left, is accessible, and two or more distinct
    key items are still to place, the call places one of them, finds no
    location in the recursive call, undoes the choice and tries again, for
    ever: whatever the random source, every bound on the number of
    iterations is exhausted. *)
Theorem starved_solve_diverges rand depth iterations pool w g l :
  (g < length (locationGroups w))%nat ->
  locations (groupAt w g) = [l] ->
  (forall g', g' <> g -> locations (groupAt w g') = []) ->
  accessRule (groupAt w g) (Game.updateAvailableCharacters (game w)) = true ->
  1 <= weight (groupAt w g) ->
  (2 <= distinct pool)%nat ->
  determineKeyItemPlacement_impl rand (S (S depth)) iterations pool w
  = OutOfIterations.
Proof.
  intros Hg Hlocs Hothers Haccess Hweight Hpool.
  cbn [determineKeyItemPlacement_impl].
  rewrite decide_False.
  2:{ intros Hlen. apply nil_length_inv in Hlen. rewrite Hlen in Hpool.
      change (distinct []) with (size (∅ : gset KeyItems)) in Hpool.
      rewrite size_empty in Hpool. lia. }
  destruct (getAvailableLocations_run w) as (avail & w1 & Hrun & Hw1 & Havail).
  rewrite (bind_run _ _ _ _ _ Hrun).
  assert (Hgroups : locationGroups w1 = locationGroups w) by (by rewrite Hw1).
  assert (Hgame : game w1 = Game.updateAvailableCharacters (game w))
    by (by rewrite Hw1).
  assert (Hone : avail = [g]).
  { apply singleton_list; [rewrite Havail; apply NoDup_filter, NoDup_seq|].
    intros x. rewrite Havail, list_elem_of_filter, elem_of_seq.
    unfold groupAt, LocationGroup.getAvailableLocationCount,
      LocationGroup.canAccess in *.
    rewrite Hgroups, Hgame. split.
    - intros [[_ Hcount] _]. destruct (decide (x = g)) as [|Hne]; [done|].
      rewrite (Hothers x Hne) in Hcount. simpl in Hcount. lia.
    - intros ->. rewrite Hlocs. split; [split; [done|simpl; lia]|lia]. }
  rewrite Hone. rewrite decide_False by done.
  apply (placementLoop_starved rand (list_to_set pool) g l); try done.
  - by rewrite Hgroups.
  - unfold groupAt. rewrite Hgroups. exact Hothers.
  - unfold groupAt. rewrite Hgroups. exact Hweight.
  - left. split; [done|]. unfold groupAt. rewrite Hgroups. exact Hlocs.
Qed.

Lemma starved_solve_diverges_witness :
  determineKeyItemPlacement_impl zeros 2 5 [pendant; gatekey]
    (initialWorld oneChestRegistry sampleGame) = OutOfIterations.
Proof.
  apply (starved_solve_diverges zeros 0 5 [pendant; gatekey]
           (initialWorld oneChestRegistry sampleGame) 0%nat 0%nat).
  - vm_compute. lia.
  - reflexivity.
  - intros [|g'] Hne; [done|]. reflexivity.
  - reflexivity.
  - vm_compute. discriminate.
  - vm_compute. lia.
Defined.

(** ** The registry of the script *)

(** X19: what [initLocationGroups] builds: 183 location objects in 25
    groups with distinct names; every location is a member of exactly one
    group, once; 15 of the locations are baseline locations (as many as
    there are key items) and 16 more have a second pointer; the 214 offsets
    of the locations are pairwise distinct, so no two writes of the writer
    hit the same offset; and every group starts with a weight of at least 1
    and no decayed weight to restore. *)
Theorem registry_census :
  length initLocationGroups.1 = 183%nat /\
  length initLocationGroups.2 = 25%nat /\
  NoDup (name <$> initLocationGroups.2) /\
  (concat (locations <$> initLocationGroups.2) ≡ₚ seq 0 183) /\
  length (filter (fun loc => is_Some (lootTier loc)) initLocationGroups.1)
  = length KeyItems_members /\
  length (filter (fun loc => is_Some (pointer2 loc)) initLocationGroups.1)
  = 31%nat /\
  length (concat (targets <$> initLocationGroups.1)) = 214%nat /\
  NoDup (concat (targets <$> initLocationGroups.1)) /\
  Forall (fun g => 1 <= weight g /\ weightStack g = [])
         initLocationGroups.2.
Proof.
  split; [vm_compute; reflexivity|]. split; [vm_compute; reflexivity|].
  split; [apply (bool_decide_unpack _); vm_compute; exact I|].
  split; [apply (bool_decide_unpack _); vm_compute; exact I|].
  split; [vm_compute; reflexivity|]. split; [vm_compute; reflexivity|].
  split; [vm_compute; reflexivity|].
  split; [apply registry_offsets|].
  apply (bool_decide_unpack _). vm_compute. exact I.
Qed.

(** ** The errors of the choice of a location *)

(** The loop over a snapshot that is not empty leaves its variable bound. *)
Lemma selectGroup_bound w avail locationChoice counter group :
  avail <> [] \/ is_Some group ->
  is_Some (selectGroup w avail locationChoice counter group).1.
Proof.
  revert counter group. induction avail as [|g avail IH];
    intros counter group Hne.
  - destruct Hne as [?|?]; done.
  - cbn [selectGroup]. case_decide; [done|]. apply IH. by right.
Qed.

(** The errors of the choice of a location, one by one. *)
Lemma pickLocation_Raises rand fr w e :
  let total := weightTotal w (availableLocations fr) in
  let locationChoice := 1 + Z.of_nat (rand (cursor w)) `mod` total in
  pickLocation rand fr w = Raises e <->
  (e = ValueError /\ total < 1) \/
  (e = IndexError /\ 1 <= total /\
   exists g,
     (selectGroup w (availableLocations fr) locationChoice 0 None).1 = Some g /\
     locations (groupAt w g) = []).
Proof.
  intros total locationChoice. unfold pickLocation. rewrite gets_bind.
  fold total.
  destruct (decide (total < 1)) as [Hlt|Hge].
  { unfold randint. rewrite decide_True by done.
    split; [intros [= <-]; by left|].
    intros [[-> _]|(_ & Hle & _)]; [done|lia]. }
  assert (Hr : randint rand 1 total w
               = Returns locationChoice (set_cursor w (S (cursor w)))).
  { unfold randint. rewrite decide_False by done.
    rewrite (bind_run _ _ _ _ _ (draw_run rand w)).
    subst locationChoice. by replace (total - 1 + 1) with total by lia. }
  rewrite (bind_run _ _ _ _ _ Hr). clear Hr.
  rewrite gets_bind.
  rewrite (selectGroup_ext _ w) by done.
  assert (Hne : availableLocations fr <> []).
  { intros Hnil. subst total. rewrite Hnil in Hge.
    change (weightTotal w []) with 0 in Hge. lia. }
  destruct (selectGroup_bound w (availableLocations fr) locationChoice 0 None)
    as [g Hg]; [by left|].
  rewrite Hg. cbn [fst snd]. rewrite gets_bind.
  unfold LocationGroup.getLocations.
  change (groupAt (set_cursor w (S (cursor w))) g) with (groupAt w g).
  destruct (locations (groupAt w g)) as [|l ls] eqn:Hlocs.
  { split; [intros [= <-]; right|].
    - split; [done|]. split; [lia|]. by exists g.
    - intros [[-> ?]|(-> & _)]; [lia|done]. }
  destruct (choice_nonempty rand (l :: ls) (set_cursor w (S (cursor w))))
    as (l' & Hrun & Hl'); [done|].
  rewrite (bind_run _ _ _ _ _ Hrun).
  split.
  - intros Hraise. exfalso. revert Hraise.
    unfold mbind, M_bind, bind, removeLocation at 1.
    change (groupAt (set_cursor (set_cursor w (S (cursor w))) _) g)
      with (groupAt w g).
    destruct (LocationGroup.removeLocation (groupAt w g) l') as [grp|] eqn:Hrm;
      [done|].
    unfold LocationGroup.removeLocation in Hrm. rewrite Hlocs in Hrm.
    destruct (list_remove_Some l' (l :: ls) Hl') as [ls' Hsome].
    by rewrite Hsome in Hrm.
  - intros [[_ ?]|(_ & _ & g' & Hg' & Hempty)]; [lia|].
    assert (g' = g) as -> by congruence. by rewrite Hlocs in Hempty.
Qed.


(** X10: the errors of the choice of a location, and no other.  The choice
    raises [ValueError] exactly when the weights of the snapshot add up to
    less than 1 (an empty snapshot, or weights that are not positive): the
    range of [rand.randint(1, weightTotal)] is empty.  It raises
    [IndexError] exactly when the weights add up to 1 or more and the group
    at which the selection loop stops for the drawn number, whichever group
    of the snapshot that is, has no location: [rand.choice] of an empty
    list.  In every other case it returns. *)
Theorem pickLocation_errors rand fr w :
  let total := weightTotal w (availableLocations fr) in
  let locationChoice := 1 + Z.of_nat (rand (cursor w)) `mod` total in
  (forall e,
     pickLocation rand fr w = Raises e <->
     (e = ValueError /\ total < 1) \/
     (e = IndexError /\ 1 <= total /\
      exists g,
        (selectGroup w (availableLocations fr) locationChoice 0 None).1
        = Some g /\
        locations (groupAt w g) = [])) /\
  ((exists fr' w', pickLocation rand fr w = Returns fr' w') \/
   (exists e, pickLocation rand fr w = Raises e)).
Proof.
  intros total locationChoice. split.
  - intros e. apply pickLocation_Raises.
  - destruct (straight_pickLocation rand fr w) as [Hdepth Hiter].
    destruct (pickLocation rand fr w) as [fr' w'|e| |]; [|by right; exists e|done..].
    left. by exists fr', w'.
Qed.

Lemma pickLocation_errors_witness :
  pickLocation zeros (newFrame [2%nat] [pendant])
    (initialWorld malformedRegistry sampleGame) = Raises ValueError /\
  pickLocation threes (newFrame [0; 1]%nat [pendant])
    (initialWorld halfEmptyRegistry sampleGame) = Raises IndexError.
Proof.
  split.
  - apply (proj1 (pickLocation_errors zeros (newFrame [2%nat] [pendant])
                    (initialWorld malformedRegistry sampleGame)) ValueError).
    left. split; [reflexivity|]. vm_compute. reflexivity.
  - apply (proj1 (pickLocation_errors threes (newFrame [0; 1]%nat [pendant])
                    (initialWorld halfEmptyRegistry sampleGame)) IndexError).
    right. split; [reflexivity|]. split; [vm_compute; discriminate|].
    exists 1%nat. split; vm_compute; reflexivity.
Defined.

(** ** What a solve leaves behind *)

Lemma list_remove_sublist {A} `{EqDecision A} (x : A) (l l' : list A) :
  list_remove x l = Some l' ->
  l' `sublist_of` l /\ length l = S (length l').
Proof.
  revert l'. induction l as [|y l IH]; intros l' H; [done|].
  cbn [list_remove] in H. case_decide as Hy.
  - injection H as <-. split; [by apply sublist_cons|done].
  - destruct (list_remove x l) as [l0|]; [|done]. injection H as <-.
    destruct (IH l0 eq_refl) as [Hsub Hlen].
    split; [by apply sublist_skip|simpl; by rewrite Hlen].
Qed.

Lemma decayWeight_set_locations g ls :
  LocationGroup.decayWeight (LocationGroup.set_locations g ls)
  = LocationGroup.set_locations (LocationGroup.decayWeight g) ls.
Proof.
  unfold LocationGroup.decayWeight. cbn. by destruct (weightDecay g).
Qed.

Lemma spentGroup_refl g : spentGroup g g.
Proof. exists 0%nat. split; [by destruct g|]. split; [done|simpl; lia]. Qed.

(** A property of the world that every first pass keeps is kept by every
    call entered in a consistent state. *)
Lemma impl_invariant rand (Inv : World -> Prop) :
  (forall pool w avail w1 fr' w2,
     Consistent w pool -> Inv w ->
     getAvailableLocations w = Returns avail w1 ->
     tryPlacement rand (newFrame avail pool) w1 = Returns fr' w2 ->
     Inv w2) ->
  forall depth iterations pool w r w',
    Consistent w pool -> Inv w ->
    determineKeyItemPlacement_impl rand depth iterations pool w = Returns r w' ->
    Inv w'.
Proof.
  intros Hstep depth iterations. induction depth as [|d IH];
    intros pool w r w' Hc Hp Hrun; [done|].
  simpl in Hrun. case_decide as Hlen.
  { by injection Hrun as _ <-. }
  assert (Hpool : pool <> []) by (by destruct pool).
  destruct (getAvailableLocations_Consistent w pool Hc Hpool)
    as (avail & w1 & Hget & Hc1 & Hkeys & Havail & Hav).
  rewrite (bind_run _ _ _ _ _ Hget) in Hrun.
  rewrite decide_False in Hrun by (by destruct avail).
  destruct iterations as [|n]; [done|].
  simpl in Hrun.
  destruct (tryPlacement_Consistent rand avail pool w1 Hc1 Hpool Havail Hav)
    as (fr1 & w2 & Htry & Hc2 & Hsize).
  rewrite (bind_run _ _ _ _ _ Htry) in Hrun.
  pose proof (Hstep _ _ _ _ _ _ Hc Hp Hget Htry) as Hp2.
  pose proof (impl_Consistent rand d (S n) (remainingKeyItems fr1) w2 Hc2)
    as Hc3.
  apply bind_Returns in Hrun as (r3 & w3 & Hrec & Hrun).
  rewrite Hrec in Hc3. destruct Hc3 as (Hs & _ & _).
  pose proof (IH _ _ _ _ Hc2 Hp2 Hrec) as Hp3.
  destruct n as [|n]; [done|].
  simpl in Hrun. rewrite Hs in Hrun. by injection Hrun as _ <-.
Qed.

(** The first pass of a call takes one location out of one group and
    decays the weight of that group once. *)
Lemma first_pass_spent rand (registry : list Location * list LocationGroup)
    pool w avail w1 fr' w2 :
  Forall2 spentGroup (locationGroups w) registry.2 ->
  getAvailableLocations w = Returns avail w1 ->
  tryPlacement rand (newFrame avail pool) w1 = Returns fr' w2 ->
  Forall2 spentGroup (locationGroups w2) registry.2.
Proof.
  intros Hspent Hrun Htry.
  destruct (getAvailableLocations_run w) as (avail' & w1' & Hrun' & Hw1 & Havail).
  rewrite Hrun in Hrun'. injection Hrun' as <- <-.
  assert (Hgroups1 : locationGroups w1 = locationGroups w) by (by rewrite Hw1).
  apply tryPlacement_first in Htry
      as (g & l & grp & k & Hg & Hl & Hrm & _ & Hgroups2 & _).
  2:{ intros g Hg. rewrite Havail in Hg.
      apply list_elem_of_filter in Hg as [_ Hseq].
      apply elem_of_seq in Hseq. lia. }
  assert (Hlt : (g < length (locationGroups w))%nat).
  { rewrite Havail in Hg. apply list_elem_of_filter in Hg as [_ Hseq].
    apply elem_of_seq in Hseq. rewrite Hgroups1 in Hseq. lia. }
  unfold groupAt in *. rewrite Hgroups1 in Hl, Hrm, Hgroups2. rewrite Hgroups2.
  assert (Hgl : locationGroups w !! g = Some (locationGroups w !!! g))
    by (by apply list_lookup_lookup_total_lt).
  destruct (Forall2_lookup_l _ _ _ _ _ Hspent Hgl)
    as (grp0 & Hgrp0 & n & Heq & Hsub & Hlen).
  rewrite <- (list_insert_id registry.2 g grp0 Hgrp0).
  apply Forall2_insert; [done|].
  unfold LocationGroup.removeLocation in Hrm.
  destruct (list_remove l (locations (locationGroups w !!! g))) as [ls|] eqn:Hls;
    [|done].
  injection Hrm as <-.
  destruct (list_remove_sublist _ _ _ Hls) as [Hsub' Hlen'].
  exists (S n). rewrite locations_decayWeight. cbn [locations LocationGroup.set_locations].
  split; [|split].
  - rewrite Heq at 1. rewrite decayWeight_set_locations.
    rewrite decayWeight_set_locations. reflexivity.
  - by etrans.
  - lia.
Qed.

Lemma determineKeyItemPlacement_spent rand depth iterations charlocs
    lockedChars earlyPendant r w :
  determineKeyItemPlacement rand depth iterations charlocs lockedChars
    earlyPendant = Returns r w ->
  Forall2 spentGroup (locationGroups w) initLocationGroups.2.
Proof.
  intros Hrun. unfold determineKeyItemPlacement in Hrun.
  destruct getInitialKeyItems_tokens as (pool & Hpool & _ & Htok).
  rewrite Hpool in Hrun.
  eapply (impl_invariant rand
            (fun w => Forall2 spentGroup (locationGroups w)
                              initLocationGroups.2)); [| | |exact Hrun].
  - intros pool' w0 avail w1 fr' w2 _ Hinv Hget Htry.
    by eapply first_pass_spent.
  - apply initialWorld_Consistent.
    + apply initLocationGroups_WellFormed.
    + done.
    + intros k. apply tokens_pos_elem_of. rewrite Htok. destruct k; simpl; lia.
  - apply Forall_Forall2_diag, Forall_forall. intros g _.
    apply spentGroup_refl.
Qed.

(** X13: what a solve leaves behind.  Whenever the solve returns it has
    made 45 draws, three per key item; every location of the registry is
    either in the returned list or still in a group, never both and never
    twice, so 168 locations are left in the groups; the location objects
    differ from those of the registry only in the key item they hold; and
    every group is the group of the registry after as many [decayWeight]
    calls as it has lost locations, with the locations it has left in their
    order: its name, access rule and decay function are those of the
    registry, and its weight and weight stack are those of the decays. *)
Theorem solve_leaves_registry rand depth iterations charlocs lockedChars
    earlyPendant r w :
  determineKeyItemPlacement rand depth iterations charlocs lockedChars
    earlyPendant = Returns r w ->
  cursor w = 45%nat /\
  (placement r ++ concat (locations <$> locationGroups w)
   ≡ₚ concat (locations <$> initLocationGroups.2)) /\
  NoDup (placement r ++ concat (locations <$> locationGroups w)) /\
  length (concat (locations <$> locationGroups w)) = 168%nat /\
  Forall2 sameSite (heap w) initLocationGroups.1 /\
  Forall2 sameGroup (locationGroups w) initLocationGroups.2 /\
  Forall2 spentGroup (locationGroups w) initLocationGroups.2.
Proof.
  intros Hrun.
  pose proof (determineKeyItemPlacement_spent _ _ _ _ _ _ _ _ Hrun) as Hspent.
  pose proof (determineKeyItemPlacement_Consistent rand depth iterations
                charlocs lockedChars earlyPendant) as H.
  rewrite Hrun in H. destruct H as (_ & _ & Hc').
  apply Consistent_Bijective in Hc' as [Hlen _ _ _ _].
  apply determineKeyItemPlacement_Progress in Hrun as (_ & Hpl & Hc & Hp).
  rewrite Hpl.
  destruct Hp as [Hsites Hgroups Hall _ _ _ Hdraws].
  split; [by rewrite Hdraws, Hlen|].
  split; [done|]. split; [apply Hc|]. split; [|done].
  apply Permutation_length in Hall.
  rewrite length_app, Hlen in Hall.
  assert (Htotal : length (concat (locations <$> initLocationGroups.2))
                   = 183%nat) by (vm_compute; reflexivity).
  lia.
Qed.

Lemma solve_leaves_registry_witness :
  exists r w,
    determineKeyItemPlacement zeros 16 2 sampleCharLocations false false
    = Returns r w /\
    cursor w = 45%nat /\
    length (concat (locations <$> locationGroups w)) = 168%nat /\
    Forall2 spentGroup (locationGroups w) initLocationGroups.2.
Proof.
  destruct (determineKeyItemPlacement_returns zeros 16 2 sampleCharLocations
              false false) as (r & w & Hrun); [lia|lia|].
  exists r, w. split; [done|].
  destruct (solve_leaves_registry zeros 16 2 sampleCharLocations false false
              r w Hrun) as (Hcur & _ & _ & Hlen & _ & _ & Hspent).
  exact (conj Hcur (conj Hlen Hspent)).
Defined.

(** ** The collapse in a pass and in a solve *)











